(** * gdsfactory [migrate]: the 7-to-8 rename pass of [src/gdsfactory/cli.py]

    A shallow embedding of the [migrate] command: the two regular
    expressions it compiles from the set [to_be_replaced], the two
    substitutions [pattern2.sub(replacement, pattern1.sub(replacement, content))],
    and the driver that reads, writes and reports files. *)

From Stdlib Require Import List NArith Bool String Ascii Lia Permutation Arith.
Import ListNotations.
Open Scope N_scope.

(** ** Text

    A Python [str] is a sequence of Unicode code points. *)

Definition text := list N.

(** A literal of the source, as code points. *)
Definition lit (s : string) : text := map N_of_ascii (list_ascii_of_string s).

Fixpoint text_eqb (a b : text) : bool :=
  match a, b with
  | [], [] => true
  | x :: a', y :: b' => (x =? y) && text_eqb a' b'
  | _, _ => false
  end.

(** The marker of [replacement = r"d\1"]: the letter d. *)
Definition marker : N := 100.
Definition dot : N := 46.
Definition newline : N := 10.

(** [to_be_replaced], in the order the source lists it.  It is a Python
    [set]: the order in which ["|".join] meets its elements is the set's
    iteration order, so the patterns are built from a list of names
    ([rewrite_with]); [rewrite] takes the order of the source text. *)
Definition to_be_replaced : list text :=
  map lit
    [ "center"; "mirror"; "move"; "movex"; "movey"; "rotate"; "size_info";
      "x"; "xmin"; "xmax"; "xsize"; "y"; "ymin"; "ymax"; "ysize" ]%string.

(** ** The regular expressions

    Both patterns have the shape [\b(a1|a2|...|an)\b] with literal
    alternatives; [re] tries the alternatives from left to right at the
    leftmost position and backtracks into the alternation when the closing
    [\b] fails. *)

Module Re.
Section Regex.

(** What Python's Unicode database says of a code point above ASCII:
    whether it is alphanumeric ([str.isalnum]).  The table is not part of the
    repository; every result below holds for each such table. *)
Variable uni_alnum : N -> bool.

Definition ascii_word (c : N) : bool :=
  ((48 <=? c) && (c <=? 57)) || ((65 <=? c) && (c <=? 90))
  || ((97 <=? c) && (c <=? 122)) || (c =? 95).

(** [\w] of a [str] pattern: Unicode alphanumerics and the underscore. *)
Definition is_word (c : N) : bool :=
  if c <? 128 then ascii_word c else uni_alnum c.

Definition word_at (o : option N) : bool :=
  match o with
  | Some c => is_word c
  | None => false
  end.

(** [\b] between the character before the position ([None] at the start of
    the text) and the character at it ([None] at the end). *)
Definition at_boundary (prev next : option N) : bool :=
  xorb (word_at prev) (word_at next).

Fixpoint strip_prefix (p s : text) : option text :=
  match p, s with
  | [], _ => Some s
  | _ :: _, [] => None
  | x :: p', y :: s' => if x =? y then strip_prefix p' s' else None
  end.

(** The character before the position reached after reading [a]. *)
Definition prev_after (a : text) (prev : option N) : option N :=
  fold_left (fun _ c => Some c) a prev.

(** One alternative at one position: [\b], the literal, [\b]. *)
Definition alt_matches (prev : option N) (s : text) (alt : text) : bool :=
  at_boundary prev (hd_error s) &&
  match strip_prefix alt s with
  | Some rest => at_boundary (prev_after alt prev) (hd_error rest)
  | None => false
  end.

(** The match at a position, if any: the first alternative that succeeds. *)
Definition match_at (alts : list text) (prev : option N) (s : text)
  : option text :=
  find (alt_matches prev s) alts.

(** [pattern.sub(r"d\1", s)] from a position on: [prev] is the character
    before it and [skip] counts the characters of the current match still to
    be copied (group 1 is the whole match).  At a match the marker is
    emitted, the matched characters are copied, and the scan resumes after
    them; elsewhere one character is copied.  The alternatives are
    non-empty, so no match is empty. *)
Fixpoint sub_go (alts : list text) (prev : option N) (skip : nat) (s : text)
  : text :=
  match s with
  | [] => []
  | c :: s' =>
      match skip with
      | S k => c :: sub_go alts (Some c) k s'
      | O =>
          match match_at alts prev s with
          | Some m => marker :: c :: sub_go alts (Some c) (pred (List.length m)) s'
          | None => c :: sub_go alts (Some c) 0 s'
          end
      end
  end.

Definition re_sub (alts : list text) (s : text) : text :=
  sub_go alts None 0 s.

(** The alternatives of [pattern1]: [r"d\." + _r]. *)
Definition pattern1 (names : list text) : list text :=
  map (fun r => marker :: dot :: r) names.

(** The alternatives of [pattern2]. *)
Definition pattern2 (names : list text) : list text := names.

(** [pattern2.sub(replacement, pattern1.sub(replacement, content))] *)
Definition rewrite_with (names : list text) (content : text) : text :=
  re_sub (pattern2 names) (re_sub (pattern1 names) content).

Definition rewrite (content : text) : text :=
  rewrite_with to_be_replaced content.

(** *** Notions the results are stated with *)

(** The run of [sub_go] as a relation between the text from a position on
    and what is emitted for it: the scan copies a character where no
    alternative matches, and at a match emits the marker and the match and
    goes on behind it. *)
Inductive scan (alts : list text) : option N -> text -> text -> Prop :=
| scan_nil prev :
    scan alts prev [] []
| scan_copy prev c s o :
    match_at alts prev (c :: s) = None ->
    scan alts (Some c) s o ->
    scan alts prev (c :: s) (c :: o)
| scan_hit prev m r o :
    m <> [] ->
    match_at alts prev (m ++ r) = Some m ->
    scan alts (prev_after m prev) r o ->
    scan alts prev (m ++ r) (marker :: m ++ o).

(** No alternative matches at any position from here on. *)
Fixpoint quiet (alts : list text) (prev : option N) (s : text) : Prop :=
  match_at alts prev s = None /\
  match s with
  | [] => True
  | c :: s' => quiet alts (Some c) s'
  end.

(** An occurrence bounded on both sides: no word character before it and
    none behind it. *)
Definition bounded (prev : option N) (rest : text) : Prop :=
  word_at prev = false /\ word_at (hd_error rest) = false.

(** Cutting the text behind [u] changes no match that starts in [u]:
    at every position of [u] the match is the same with and without
    [rest]. *)
Definition stable (alts : list text) (prev : option N) (u rest : text)
  : Prop :=
  forall a b, u = a ++ b -> b <> [] ->
  match_at alts (prev_after a prev) (b ++ rest)
  = match_at alts (prev_after a prev) b.

(** The text is empty or ends with a character that is no word character. *)
Definition closed_end (u : text) : bool :=
  negb (word_at (prev_after u None)).

(** The text is empty or starts with a character that is no word
    character. *)
Definition closed_start (v : text) : bool :=
  negb (word_at (hd_error v)).

(** The text ends with [d.], the [d] standing after a boundary: a
    qualifier that a name behind it would complete. *)
Definition qualified_end (u : text) : bool :=
  match rev u with
  | c2 :: c1 :: r =>
      (c2 =? dot) && (c1 =? marker) && negb (word_at (hd_error r))
  | _ => false
  end.

(** At most one alternative matches at a position. *)
Definition unique_alts (alts : list text) : Prop :=
  forall prev s a b,
    In a alts -> In b alts ->
    alt_matches prev s a = true -> alt_matches prev s b = true -> a = b.

End Regex.

(** A legacy name, as the catalogue has them: a non-empty run of ASCII
    identifier characters without the marker. *)
Definition legacyb (a : text) : bool :=
  match a with
  | [] => false
  | _ => forallb (fun c => ascii_word c && negb (c =? marker)) a
  end.

Definition legacy (a : text) : Prop := legacyb a = true.

(** [ins s o]: [o] is [s] with markers put in, each in front of an ASCII
    identifier character of [s] (possibly behind other markers). *)
Inductive ins : text -> text -> Prop :=
| ins_nil : ins [] []
| ins_keep c s o : ins s o -> ins (c :: s) (c :: o)
| ins_mark c s o :
    ascii_word c = true -> ins (c :: s) o -> ins (c :: s) (marker :: o).

Definition mem (a : text) (l : list text) : bool := existsb (text_eqb a) l.

Definition nonempty_alts (alts : list text) : Prop :=
  forall a, In a alts -> a <> [].

(** Every alternative starts with an ASCII identifier character. *)
Definition headed (alts : list text) : Prop :=
  forall a, In a alts -> exists c a', a = c :: a' /\ ascii_word c = true.

(** The alternatives of either pattern: a name, or a name behind [d.]. *)
Definition shaped (ns alts : list text) : Prop :=
  forall a, In a alts ->
  exists n, In n ns /\ (a = n \/ a = marker :: dot :: n).

(** [n] occurs in [t] as a substring. *)
Fixpoint occursb (n t : text) : bool :=
  match strip_prefix n t with
  | Some _ => true
  | None =>
      match t with
      | [] => false
      | _ :: t' => occursb n t'
      end
  end.

(** [c.join(ls)] *)
Fixpoint join_with (c : N) (ls : list text) : text :=
  match ls with
  | [] => []
  | [l] => l
  | l :: ls' => l ++ c :: join_with c ls'
  end.

(** The text starts with a line feed. *)
Definition starts_lf (s : text) : bool :=
  match s with
  | c :: _ => c =? newline
  | [] => false
  end.

End Re.

(** ** Paths, the file system and the driver *)

Module Cli.

(** A [pathlib] path value: whether it starts at the root, and its
    components.  Two paths are equal when both agree. *)
Record Path := mkPath { anchored : bool; parts : list string }.

Fixpoint parts_eqb (a b : list string) : bool :=
  match a, b with
  | [], [] => true
  | x :: a', y :: b' => String.eqb x y && parts_eqb a' b'
  | _, _ => false
  end.

Definition path_eqb (p q : Path) : bool :=
  Bool.eqb (anchored p) (anchored q) && parts_eqb (parts p) (parts q).

(** [root / "a" / "b"] and [Path("a/b")]. *)
Definition abs (l : list string) : Path := mkPath true l.
Definition rel (l : list string) : Path := mkPath false l.

(** [p / q] *)
Definition joinpath (p q : Path) : Path :=
  if anchored q then q else mkPath (anchored p) (parts p ++ parts q).

(** [p.name] *)
Definition name (p : Path) : string := last (parts p) EmptyString.

(** [p / s] for a file name [s]: the empty name adds nothing. *)
Definition join_name (p : Path) (s : string) : Path :=
  match s with
  | EmptyString => p
  | _ => joinpath p (rel [s])
  end.

(** [p.parent] *)
Definition parent (p : Path) : Path :=
  mkPath (anchored p) (removelast (parts p)).

(** The text of [s] from its last dot on. *)
Fixpoint from_last_dot (s : string) : option string :=
  match s with
  | EmptyString => None
  | String c s' =>
      match from_last_dot s' with
      | Some r => Some r
      | None => if Ascii.eqb c "." then Some s else None
      end
  end.

(** [p.suffix]: [name[i:]] for [i = name.rfind(".")] when
    [0 < i < len(name) - 1], else the empty string. *)
Definition suffix (p : Path) : string :=
  match name p with
  | EmptyString => EmptyString
  | String _ n' =>
      match from_last_dot n' with
      | Some r => if Nat.eqb (String.length r) 1 then EmptyString else r
      | None => EmptyString
      end
  end.

Fixpoint strip_parts (base l : list string) : option (list string) :=
  match base, l with
  | [], _ => Some l
  | _ :: _, [] => None
  | x :: base', y :: l' => if String.eqb x y then strip_parts base' l' else None
  end.

(** [p.relative_to(base)]; [None] where Python raises [ValueError]. *)
Definition relative_to (p base : Path) : option Path :=
  if Bool.eqb (anchored p) (anchored base) then
    match strip_parts (parts base) (parts p) with
    | Some l => Some (rel l)
    | None => None
    end
  else None.

Fixpoint join_parts (l : list string) : string :=
  match l with
  | [] => EmptyString
  | [x] => x
  | x :: l' => (x ++ "/" ++ join_parts l')%string
  end.

(** [str(p)] *)
Definition path_str (p : Path) : string :=
  if anchored p then ("/" ++ join_parts (parts p))%string
  else match parts p with
       | [] => "."%string
       | l => join_parts l
       end.

(** [q] is [p] or lies above it. *)
Definition path_prefixb (q p : Path) : bool :=
  Bool.eqb (anchored q) (anchored p)
  && match strip_parts (parts q) (parts p) with
     | Some _ => true
     | None => false
     end.

(** The initial segments of a list, the shortest first. *)
Fixpoint inits {A} (l : list A) : list (list A) :=
  match l with
  | [] => [[]]
  | x :: l' => [] :: map (cons x) (inits l')
  end.

(** The directories above [p] and [p] itself, from the top. *)
Definition ancestors (p : Path) : list Path :=
  map (mkPath (anchored p)) (inits (parts p)).

(** *** The file system

    What stands at a location: a directory, or a file, with the text that
    reading it as UTF-8 gives ([None] where its bytes do not decode).  The
    file system lists what stands at each location, under the resolved form
    of its path ([Path.resolve]: made absolute, symbolic links followed). *)
Inductive node : Type :=
| Dir
| File (content : option text).

Definition FS : Type := list (Path * node).

Fixpoint lookup (fs : FS) (p : Path) : option node :=
  match fs with
  | [] => None
  | (q, n) :: fs' => if path_eqb q p then Some n else lookup fs' p
  end.

Fixpoint update (fs : FS) (p : Path) (n : node) : FS :=
  match fs with
  | [] => [(p, n)]
  | (q, m) :: fs' =>
      if path_eqb q p then (q, n) :: fs' else (q, m) :: update fs' p n
  end.

Definition is_dir_node (n : node) : bool :=
  match n with
  | Dir => true
  | File _ => false
  end.

Definition dir_at (fs : FS) (p : Path) : bool :=
  match lookup fs p with
  | Some Dir => true
  | _ => false
  end.

(** What lies at or below [root]. *)
Definition below (root : Path) (fs : FS) : FS :=
  filter (fun e => path_prefixb root (fst e)) fs.

(** The names below [root], each with whether it is a directory: what a
    walk of the tree sees. *)
Definition shape (root : Path) (fs : FS) : list (Path * bool) :=
  map (fun e => (fst e, is_dir_node (snd e))) (below root fs).

(** The exceptions the command can end with. *)
Inductive exn : Type :=
| ValueError
| UnicodeDecodeError
| FileNotFoundError
| FileExistsError
| NotADirectoryError
| IsADirectoryError
| MarkupError.

(** What the command does, in order: the effects that succeeded. *)
Inductive event : Type :=
| Mkdir (p : Path)                                   (* p.mkdir(parents=True, exist_ok=True) *)
| ReadText (p : Path) (t : text)                     (* open(p).read() gave t *)
| WriteText (p : Path) (t : text)                    (* open(p, "w").write(t) *)
| PrintUpdated (p : Path)                            (* pprint(f"Updated ...{p}...") *)
| PrintDiff (a b : list text) (fromfile tofile : string).
                                                     (* pprint of unified_diff(a, b, fromfile, tofile) *)

(** What the run does not change: how paths resolve, the file system it
    starts from, what the generator [input.rglob("*.py")] yields next (the
    location below [input], given the names the tree holds when it is asked
    and the locations it has yielded so far; [None] when it is exhausted),
    and whether [rich] accepts the text of a print ([rich.print] reads square
    brackets as markup and raises [MarkupError] on a closing tag that closes
    nothing). *)
Record World := mkWorld {
  resolve : Path -> Path;
  files : FS;
  rglob_py : Path -> list (Path * bool) -> list (list string)
             -> option (list string);
  rich_accepts : event -> bool
}.

(** How a computation ends: with a value, with an exception, or not within
    the steps it was given. *)
Inductive result (A : Type) : Type :=
| Returned (a : A)
| Raised (e : exn)
| Unfinished.

Arguments Returned {A} a.
Arguments Raised {A} e.
Arguments Unfinished {A}.

(** A computation on the file system: the effects, how it ends, and the
    file system it leaves. *)
Definition M (A : Type) : Type := FS -> list event * result A * FS.

Definition ret {A} (a : A) : M A := fun fs => ([], Returned a, fs).
Definition raise {A} (e : exn) : M A := fun fs => ([], Raised e, fs).

Definition bind {A B} (m : M A) (k : A -> M B) : M B :=
  fun fs =>
    match m fs with
    | (evs, Returned a, fs') =>
        match k a fs' with
        | (evs', r, fs'') => (evs ++ evs', r, fs'')
        end
    | (evs, Raised e, fs') => (evs, Raised e, fs')
    | (evs, Unfinished, fs') => (evs, Unfinished, fs')
    end.

Notation "x <- m ;; k" := (bind m (fun x => k))
  (at level 61, m at next level, right associativity).
Notation "m ;; k" := (bind m (fun _ => k))
  (at level 61, right associativity).

Definition events {A} (r : list event * result A * FS) : list event :=
  fst (fst r).
Definition outcome {A} (r : list event * result A * FS) : result A :=
  snd (fst r).
Definition final {A} (r : list event * result A * FS) : FS := snd r.

(** [p.is_dir()] *)
Definition is_dir (w : World) (p : Path) : M bool :=
  fun fs => ([], Returned (dir_at fs (resolve w p)), fs).

(** [open(p, encoding="utf-8").read()] *)
Definition read (w : World) (p : Path) : M text :=
  fun fs =>
    match lookup fs (resolve w p) with
    | Some (File (Some t)) => ([ReadText p t], Returned t, fs)
    | Some (File None) => ([], Raised UnicodeDecodeError, fs)
    | Some Dir => ([], Raised IsADirectoryError, fs)
    | None => ([], Raised FileNotFoundError, fs)
    end.

(** Creating the directories [ds], given from the top: one that exists is
    passed, a file in the way is an error. *)
Fixpoint mkdirs (fs : FS) (ds : list Path) : exn + FS :=
  match ds with
  | [] => inr fs
  | d :: ds' =>
      match lookup fs d with
      | Some Dir => mkdirs fs ds'
      | Some (File _) =>
          inl match ds' with
              | [] => FileExistsError
              | _ => NotADirectoryError
              end
      | None => mkdirs (update fs d Dir) ds'
      end
  end.

(** [p.mkdir(parents=True, exist_ok=True)] *)
Definition mkdir (w : World) (p : Path) : M unit :=
  fun fs =>
    match mkdirs fs (ancestors (resolve w p)) with
    | inr fs' => ([Mkdir p], Returned tt, fs')
    | inl e => ([], Raised e, fs)
    end.

(** [open(p, "w", encoding="utf-8").write(t)]: the directory of the file
    must exist, and no directory may stand where the file goes. *)
Definition write_text (w : World) (p : Path) (t : text) : M unit :=
  fun fs =>
    let c := resolve w p in
    match lookup fs (parent c) with
    | Some Dir =>
        match lookup fs c with
        | Some Dir => ([], Raised IsADirectoryError, fs)
        | _ => ([WriteText p t], Returned tt, update fs c (File (Some t)))
        end
    | Some (File _) => ([], Raised NotADirectoryError, fs)
    | None => ([], Raised FileNotFoundError, fs)
    end.

(** [pprint(...)], the print of [rich], of the text [e] stands for. *)
Definition pprint (w : World) (e : event) : M unit :=
  fun fs =>
    if rich_accepts w e then ([e], Returned tt, fs)
    else ([], Raised MarkupError, fs).

(** [for inp in input.rglob("*.py"): body]: the generator is asked for the
    next file each time round, with the tree as it is then; [seen] are the
    locations it has yielded.  The loop is cut after [fuel] rounds. *)
Fixpoint for_rglob (fuel : nat) (w : World) (input : Path)
    (seen : list (list string)) (body : Path -> M unit) : M unit :=
  match fuel with
  | O => fun fs => ([], Unfinished, fs)
  | S fuel' =>
      fun fs =>
        match rglob_py w input (shape (resolve w input) fs) seen with
        | None => ret tt fs
        | Some r =>
            (body (joinpath input (rel r)) ;;
             for_rglob fuel' w input (seen ++ [r]) body) fs
        end
  end.

(** [str.splitlines] boundaries: LF, CR, CR LF, VT, FF, FS, GS, RS, NEL, LS, PS. *)
Definition is_linebreak (c : N) : bool :=
  (c =? 10) || (c =? 13) || (c =? 11) || (c =? 12) || (c =? 28) || (c =? 29)
  || (c =? 30) || (c =? 133) || (c =? 8232) || (c =? 8233).

(** [s.splitlines()], [cur] holding the current line reversed. *)
Fixpoint splitlines_go (cur : text) (s : text) : list text :=
  match s with
  | [] => match cur with
          | [] => []
          | _ => [rev cur]
          end
  | c :: s' =>
      if is_linebreak c then
        rev cur ::
          match s' with
          | c' :: s'' =>
              if (c =? 13) && (c' =? 10) then splitlines_go [] s''
              else splitlines_go [] s'
          | [] => []
          end
      else splitlines_go (c :: cur) s'
  end.

Definition splitlines (s : text) : list text := splitlines_go [] s.

(** A [str] handed to [unified_diff] as a sequence: its characters, one
    string each. *)
Definition chars (s : text) : list text := map (fun c => [c]) s.

Inductive Migration : Type := upgrade7to8.

Section Driver.

Variable uni_alnum : N -> bool.

(** The body of the loop of lines 231-252: the output tree differs from
    the input tree. *)
Definition mirror_file (w : World) (input output inp : Path) : M unit :=
  content <- read w inp ;;
  let new_content := Re.rewrite uni_alnum content in
  out <- match relative_to inp input with
         | Some r => ret (joinpath output r)
         | None => raise ValueError
         end ;;
  mkdir w (parent out) ;;
  write_text w out new_content ;;
  if negb (text_eqb content new_content) then
    pprint w (PrintUpdated out) ;;
    pprint w (PrintDiff (splitlines content) (splitlines new_content)
                (path_str (resolve w inp)) (path_str (resolve w out)))
  else ret tt.

(** The body of the loop of lines 254-275: the tree is rewritten in place. *)
Definition inplace_file (w : World) (input output inp : Path) : M unit :=
  content <- read w inp ;;
  let new_content := Re.rewrite uni_alnum content in
  if negb (text_eqb content new_content) then
    out <- match relative_to inp input with
           | Some r => ret (joinpath output r)
           | None => raise ValueError
           end ;;
    mkdir w (parent out) ;;
    write_text w out new_content ;;
    pprint w (PrintUpdated out) ;;
    pprint w (PrintDiff (splitlines content) (splitlines new_content)
                (path_str (resolve w inp)) (path_str (resolve w out)))
  else ret tt.

(** The command, lines 175-275, as a computation on the file system. *)
Definition migrate_from (fuel : nat) (w : World) (migration : Migration)
    (input : Path) (output : option Path) (inplace : bool) : M unit :=
  let input := resolve w input in
  output <- match output with
            | None => if negb inplace then raise ValueError else ret input
            | Some o => ret o
            end ;;
  (* output.resolve(): the value is dropped *)
  let _ := resolve w output in
  input_is_dir <- is_dir w input ;;
  if negb input_is_dir then
    output <- (output_is_dir <- is_dir w output ;;
               if output_is_dir then ret (join_name output (name input))
               else if String.eqb (suffix output) ".py" then
                 mkdir w (parent output) ;; ret output
               else
                 let output := join_name output (name input) in
                 mkdir w (parent output) ;; ret output) ;;
    content <- read w input ;;
    let new_content := Re.rewrite uni_alnum content in
    if path_eqb output input then
      if negb (text_eqb content new_content) then
        write_text w output new_content ;;
        pprint w (PrintUpdated output) ;;
        pprint w (PrintDiff (splitlines content) (splitlines new_content)
                    (path_str (resolve w input)) (path_str (resolve w output)))
      else ret tt
    else
      write_text w output new_content ;;
      if negb (text_eqb content new_content) then
        pprint w (PrintUpdated output) ;;
        pprint w (PrintDiff (chars content) (chars new_content)
                    (path_str input) (path_str output))
      else ret tt
  else
    if negb (path_eqb output input) then
      for_rglob fuel w input [] (mirror_file w input output)
    else
      for_rglob fuel w input [] (inplace_file w input output).

(** A run of the command on the file system of [w]: what it did, how it
    ended, and the file system it left. *)
Definition migrate (fuel : nat) (w : World) (migration : Migration)
    (input : Path) (output : option Path) (inplace : bool)
  : list event * result unit * FS :=
  migrate_from fuel w migration input output inplace (files w).

End Driver.
End Cli.

(** ** The commands that derive a file name

    [layermap_to_dataclass], [from_updk_command] and [text_from_pdf_command]
    of [cli.py]: each derives a file name from its argument with
    [with_suffix] and hands the work to a library.  What the library is
    called with is the value of the model. *)

Module Commands.
Import Cli.

Fixpoint has_slash (s : string) : bool :=
  match s with
  | EmptyString => false
  | String c s' => Ascii.eqb c "/" || has_slash s'
  end.

Fixpoint no_dot (s : string) : bool :=
  match s with
  | EmptyString => true
  | String c s' => negb (Ascii.eqb c ".") && no_dot s'
  end.

(** The suffixes [with_suffix] accepts: without a separator, and empty or
    starting with a dot without being the dot alone. *)
Definition valid_suffix (sfx : string) : bool :=
  negb (has_slash sfx)
  && match sfx with
     | EmptyString => true
     | String c _ => Ascii.eqb c "." && negb (String.eqb sfx ".")
     end.

(** [p.with_suffix(sfx)]; [None] where it raises [ValueError] (an invalid
    suffix, a path with an empty name).  The old suffix is cut off the name,
    [name[:-len(old_suffix)]], and the new one put on. *)
Definition with_suffix (p : Path) (sfx : string) : option Path :=
  if negb (valid_suffix sfx) then None
  else
    match name p with
    | EmptyString => None
    | n =>
        let old_suffix := suffix p in
        let n' :=
          match old_suffix with
          | EmptyString => (n ++ sfx)%string
          | _ =>
              (substring 0 (String.length n - String.length old_suffix) n
               ++ sfx)%string
          end in
        Some (mkPath (anchored p) (removelast (parts p) ++ [n']))
    end.

Inductive error : Type :=
| ValueError
| FileNotFoundError (p : Path)
| FileExistsError (p : Path).

(** [layermap_to_dataclass(filepath, force)], lines 26-40: the path handed
    to [lyp_to_dataclass], or the exception.  [exists_] is what
    [Path.exists] answers. *)
Definition layermap_to_dataclass (exists_ : Path -> bool)
    (filepath : Path) (force : bool) : error + Path :=
  let filepath_lyp := filepath in
  match with_suffix filepath_lyp ".py" with
  | None => inl ValueError
  | Some filepath_py =>
      if negb (exists_ filepath_lyp) then inl (FileNotFoundError filepath_lyp)
      else if negb force && exists_ filepath_py
           then inl (FileExistsError filepath_py)
           else inr filepath_lyp
  end.

(** [from_updk_command(filepath, filepath_out)], lines 113-118: the two
    arguments [from_updk] is called with; the output is the string given or,
    for the empty string, the path derived. *)
Definition from_updk_command (filepath : Path) (filepath_out : string)
  : error + (Path * (string + Path)) :=
  match filepath_out with
  | EmptyString =>
      match with_suffix filepath ".py" with
      | None => inl ValueError
      | Some q => inr (filepath, inr q)
      end
  | _ => inr (filepath, inl filepath_out)
  end.

(** [text_from_pdf_command(filepath)], lines 121-133: the file written and
    its text.  [pdf] is what opening the file and reading its pages gives. *)
Definition text_from_pdf_command (pdf : error + list text) (filepath : Path)
  : error + (Path * text) :=
  match pdf with
  | inl e => inl e
  | inr pages =>
      let text := Re.join_with newline pages in
      match with_suffix filepath ".md" with
      | None => inl ValueError
      | Some f => inr (f, text)
      end
  end.

End Commands.

(** ** The driver's rule, as the specification words it *)

Module DriverSpec.
Import Cli.

(** What a run shows of a file task: the file written, the notice, the diff. *)
Inductive obs : Type :=
| Wrote (dst : Path) (t : text)
| Noticed (dst : Path)
| Diffed.

Definition observe (e : event) : list obs :=
  match e with
  | Mkdir _ => []
  | ReadText _ _ => []
  | WriteText p t => [Wrote p t]
  | PrintUpdated p => [Noticed p]
  | PrintDiff _ _ _ _ => [Diffed]
  end.

Definition observations (evs : list event) : list obs := flat_map observe evs.

(** The rule of the Migration Driver in the specification's words: with the
    destination equal to the source the text is written only if changed,
    otherwise it is always written; notice and diff only if changed. *)
Definition driver_rule (uni_alnum : N -> bool)
    (task : Path * Path * text) : list obs :=
  let '(src, dst, original) := task in
  let rewritten := Re.rewrite uni_alnum original in
  let changed := negb (text_eqb original rewritten) in
  (if path_eqb dst src then
     if changed then [Wrote dst rewritten] else []
   else [Wrote dst rewritten])
  ++ (if changed then [Noticed dst; Diffed] else []).

(** The output path the command works with (lines 176-179 of the source);
    [None] where it raises [ValueError]. *)
Definition effective_output (input : Path) (output : option Path)
    (inplace : bool) : option Path :=
  match output with
  | None => if negb inplace then None else Some input
  | Some o => Some o
  end.

(** The destination of the single file (section 4.4): below the output if
    that is a directory, the output itself if it is named [.py], else below
    the output. *)
Definition single_dest (w : World) (input output : Path) : Path :=
  if dir_at (files w) (resolve w output) then join_name output (name input)
  else if String.eqb (suffix output) ".py" then output
  else join_name output (name input).

(** The destination of the source [src] (section 4.4): for a directory the
    place below the output that mirrors the place of [src] below the
    input. *)
Definition dest_of (w : World) (input output src : Path) : Path :=
  if dir_at (files w) (resolve w input) then
    match relative_to src input with
    | Some r => joinpath output r
    | None => output
    end
  else single_dest w input output.

(** The files a run has read, with the text read, in order: the sources of
    the file tasks it took up. *)
Definition reads (evs : list event) : list (Path * text) :=
  flat_map (fun e => match e with
                     | ReadText p t => [(p, t)]
                     | _ => []
                     end) evs.

(** The file tasks (section 4.4) of the sources read, with the original
    text: input and output path resolved, the destination as [dest_of]
    gives it. *)
Definition file_tasks (w : World) (input : Path) (output : option Path)
    (inplace : bool) (sources : list (Path * text))
  : list (Path * Path * text) :=
  let input := resolve w input in
  match effective_output input output inplace with
  | None => []
  | Some output =>
      let output := resolve w output in
      map (fun s => (fst s, dest_of w input output (fst s), snd s)) sources
  end.

(** The rewrite changes the text. *)
Definition changed (uni_alnum : N -> bool) (t : text) : bool :=
  negb (text_eqb t (Re.rewrite uni_alnum t)).

(** The paths written and the paths named in a notice, in order. *)
Definition written (evs : list event) : list Path :=
  flat_map (fun e => match e with
                     | WriteText p _ => [p]
                     | _ => []
                     end) evs.

Definition noticed (evs : list event) : list Path :=
  flat_map (fun e => match e with
                     | PrintUpdated p => [p]
                     | _ => []
                     end) evs.

(** The file [p] holds, in [fs], a text that the rewrite changes. *)
Definition changes (uni_alnum : N -> bool) (w : World) (fs : FS) (p : Path)
  : bool :=
  match lookup fs (resolve w p) with
  | Some (File (Some t)) => changed uni_alnum t
  | _ => false
  end.

(** The diffs a run prints, in order. *)
Definition diffs (evs : list event) : list event :=
  filter (fun e => match e with
                   | PrintDiff _ _ _ _ => true
                   | _ => false
                   end) evs.

(** The diff of the file [src] of the tree, holding [c], for the output
    [out]: line by line, labelled with the resolved source and
    destination. *)
Definition tree_diff (uni_alnum : N -> bool) (w : World)
    (input out : Path) (s : Path * text) : list event :=
  if changed uni_alnum (snd s) then
    [PrintDiff (splitlines (snd s))
       (splitlines (Re.rewrite uni_alnum (snd s)))
       (path_str (resolve w (fst s)))
       (path_str (resolve w (dest_of w input out (fst s))))]
  else [].

(** The run only read: it created no directory, wrote no file and printed
    nothing. *)
Definition only_reads (evs : list event) : bool :=
  forallb (fun e => match e with
                    | ReadText _ _ => true
                    | _ => false
                    end) evs.

(** *** The walk of the tree, taken at once *)

(** What the generator [next] yields when nothing changes under it, if it
    comes to an end within [fuel] rounds. *)
Fixpoint listing (next : list (list string) -> option (list string))
    (fuel : nat) (seen : list (list string)) : option (list (list string)) :=
  match fuel with
  | O => None
  | S fuel' =>
      match next seen with
      | None => Some []
      | Some r =>
          match listing next fuel' (seen ++ [r]) with
          | Some l => Some (r :: l)
          | None => None
          end
      end
  end.

(** [list(input.rglob("*.py"))] on the file system [w] starts from: the
    locations below [input]. *)
Definition rglob (fuel : nat) (w : World) (input : Path)
  : option (list (list string)) :=
  listing (rglob_py w input (shape (resolve w input) (files w))) fuel [].

(** A loop over a list fixed beforehand; the first exception ends it. *)
Fixpoint for_each {A} (l : list A) (body : A -> M unit) : M unit :=
  match l with
  | [] => ret tt
  | x :: l' => body x ;; for_each l' body
  end.

(** Every directory down to [c] exists. *)
Definition dirs_exist (fs : FS) (c : Path) : bool :=
  forallb (dir_at fs) (ancestors c).

(** The destination [d] and its directory lie outside the tree of
    [input]. *)
Definition outside (w : World) (input d : Path) : bool :=
  negb (path_prefixb (resolve w input) (resolve w d))
  && negb (path_prefixb (resolve w input) (resolve w (parent d))).

(** The run over the files at [rs] leaves the names of the tree it walks
    alone: in place, the directory of each file exists; into another tree,
    each destination and its directory lie outside the tree walked. *)
Definition keeps_tree (w : World) (input out : Path)
    (rs : list (list string)) : bool :=
  if path_eqb out input then
    forallb (fun r => dirs_exist (files w)
                        (resolve w (parent (joinpath input (rel r))))) rs
  else
    forallb (fun r => outside w input (joinpath out (rel r))) rs.

(** The world in which the generator yields the locations [rs], whatever
    the tree holds. *)
Definition with_found (w : World) (rs : list (list string)) : World :=
  mkWorld (resolve w) (files w)
    (fun _ _ seen => nth_error rs (List.length seen)) (rich_accepts w).

(** The world with another file system to start from. *)
Definition with_files (w : World) (fs : FS) : World :=
  mkWorld (resolve w) fs (rglob_py w) (rich_accepts w).

(** *** What a run is made of

    The shapes the theorems below give to the runs of the loop bodies. *)

(** The prints of [full], one after the other: those that went out and how
    it ended. *)
Inductive printed (w : World)
  : list event -> list event -> result unit -> Prop :=
| printed_done : printed w [] [] (Returned tt)
| printed_next e full es r :
    rich_accepts w e = true -> printed w full es r ->
    printed w (e :: full) (e :: es) r
| printed_stop e full :
    rich_accepts w e = false ->
    printed w (e :: full) [] (Raised MarkupError).

Section Runs.

Variable uni_alnum : N -> bool.

(** The notice and the diff of a changed file. *)
Definition notices (w : World) (inp d : Path) (t : text) : list event :=
  if changed uni_alnum t then
    [PrintUpdated d;
     PrintDiff (splitlines t) (splitlines (Re.rewrite uni_alnum t))
       (path_str (resolve w inp)) (path_str (resolve w d))]
  else [].

(** What the body of either loop does with the file [inp] and its
    destination [d], from the file system [fs]; [always] says whether an
    unchanged text is written too (the loop into another tree). *)
Inductive file_run (w : World) (always : bool) (inp d : Path) (fs : FS)
  : list event * result unit * FS -> Prop :=
| run_unread e :
    (forall t, lookup fs (resolve w inp) <> Some (File (Some t))) ->
    (lookup fs (resolve w inp) = Some (File None) <-> e = UnicodeDecodeError) ->
    file_run w always inp d fs ([], Raised e, fs)
| run_same t :
    lookup fs (resolve w inp) = Some (File (Some t)) ->
    always = false -> changed uni_alnum t = false ->
    file_run w always inp d fs ([ReadText inp t], Returned tt, fs)
| run_no_directory t e :
    lookup fs (resolve w inp) = Some (File (Some t)) ->
    always || changed uni_alnum t = true ->
    mkdirs fs (ancestors (resolve w (parent d))) = inl e ->
    e <> UnicodeDecodeError ->
    file_run w always inp d fs ([ReadText inp t], Raised e, fs)
| run_no_write t fs1 e :
    lookup fs (resolve w inp) = Some (File (Some t)) ->
    always || changed uni_alnum t = true ->
    mkdirs fs (ancestors (resolve w (parent d))) = inr fs1 ->
    e <> UnicodeDecodeError ->
    file_run w always inp d fs
      ([ReadText inp t; Mkdir (parent d)], Raised e, fs1)
| run_written t fs1 es r :
    lookup fs (resolve w inp) = Some (File (Some t)) ->
    always || changed uni_alnum t = true ->
    mkdirs fs (ancestors (resolve w (parent d))) = inr fs1 ->
    dir_at fs1 (resolve w d) = false ->
    printed w (notices w inp d t) es r ->
    file_run w always inp d fs
      (ReadText inp t :: Mkdir (parent d)
         :: WriteText d (Re.rewrite uni_alnum t) :: es,
       r,
       update fs1 (resolve w d) (File (Some (Re.rewrite uni_alnum t)))).

(** The body of the loop a directory run takes. *)
Definition loop_body (w : World) (input out : Path) : Path -> M unit :=
  if negb (path_eqb out input) then mirror_file uni_alnum w input out
  else inplace_file uni_alnum w input out.

End Runs.

(** The file at [c] holds a text that the rewrite leaves as it is. *)
Definition settled (uni_alnum : N -> bool) (fs : FS) (c : Path) : Prop :=
  exists u, lookup fs c = Some (File (Some u))
            /\ changed uni_alnum u = false.

(** The names below [root] are as in [fs0], and the directories of [fs0]
    are still there. *)
Definition same_tree (root : Path) (fs0 fs : FS) : Prop :=
  shape root fs = shape root fs0
  /\ forall d, dir_at fs0 d = true -> dir_at fs d = true.

(** The effects of a run show its file tasks by the rule [rule], seen
    through [see]: each file read is followed by what the rule says of its
    task; the flag is off when the last task is cut short. *)
Inductive shown {X : Type} (see : event -> list X)
    (rule : Path * text -> list X) : list event -> bool -> Prop :=
| shown_nil : shown see rule [] true
| shown_skip e evs c :
    see e = [] -> reads [e] = [] -> shown see rule evs c ->
    shown see rule (e :: evs) c
| shown_task p t es evs c :
    reads es = [] -> flat_map see (ReadText p t :: es) = rule (p, t) ->
    shown see rule evs c ->
    shown see rule (ReadText p t :: es ++ evs) c
| shown_cut p t es :
    reads es = [] ->
    (exists rest, rule (p, t) = flat_map see (ReadText p t :: es) ++ rest) ->
    shown see rule (ReadText p t :: es) false.

(** One file shown: nothing when it cannot be read, else the read and what
    the rule says of the task, in full when the body returned. *)
Definition file_shown {X : Type} (see : event -> list X)
    (rule : Path * text -> list X) (inp : Path)
    (r : list event * result unit * FS) : Prop :=
  (events r = [] /\ exists e, outcome r = Raised e)
  \/ exists t es,
       events r = ReadText inp t :: es /\ reads es = []
       /\ (exists rest,
              rule (inp, t) = flat_map see (ReadText inp t :: es) ++ rest)
       /\ ((outcome r = Returned tt
            /\ flat_map see (ReadText inp t :: es) = rule (inp, t))
           \/ exists e, outcome r = Raised e).

(** A diff, seen alone. *)
Definition see_diff (e : event) : list event :=
  match e with
  | PrintDiff _ _ _ _ => [e]
  | _ => []
  end.

End DriverSpec.

(** ** Concrete inputs for the examples *)

Module Examples.
Import Cli.

(** A generator for the examples: the first name below [input] that ends in
    [.py] and was not yielded yet, in the order the file system lists the
    names; it looks at the tree each time it is asked. *)
Definition next_py (input : Path) (sh : list (Path * bool))
    (seen : list (list string)) : option (list string) :=
  find (fun r => negb (existsb (parts_eqb r) seen))
    (flat_map (fun e =>
                 if String.eqb (suffix (fst e)) ".py" then
                   match strip_parts (parts input) (parts (fst e)) with
                   | Some (x :: r) => [x :: r]
                   | _ => []
                   end
                 else []) sh).

(** A world without symbolic links, run from the root, in which [rich]
    accepts every text. *)
Definition plain (fs : FS) : World :=
  mkWorld (fun p => p) fs next_py (fun _ => true).

(** A tree [/src] with [bad.py] (not UTF-8) and [good.py], found in this
    order. *)
Definition tree_with_bad_file : World :=
  plain [ (abs [], Dir);
          (abs ["src"], Dir);
          (abs ["src"; "bad.py"], File None);
          (abs ["src"; "good.py"], File (Some (lit "x = 1"))) ]%string.

(** The same tree with the files found in the other order. *)
Definition tree_with_bad_file_last : World :=
  plain [ (abs [], Dir);
          (abs ["src"], Dir);
          (abs ["src"; "good.py"], File (Some (lit "x = 1")));
          (abs ["src"; "bad.py"], File None) ]%string.

(** A tree [/in] with [a.py] (holding [x]), then [bad.py] (not UTF-8),
    then [c.py] (holding [pass]). *)
Definition tree_with_bad_file_between : World :=
  plain [ (abs [], Dir);
          (abs ["in"], Dir);
          (abs ["in"; "a.py"], File (Some (lit "x")));
          (abs ["in"; "bad.py"], File None);
          (abs ["in"; "c.py"], File (Some (lit "pass"))) ]%string.

(** One file [/a/f.py] holding [x = 1]. *)
Definition one_file : World :=
  plain [ (abs [], Dir);
          (abs ["a"], Dir);
          (abs ["a"; "f.py"], File (Some (lit "x = 1"))) ]%string.

(** The command run in [/w], where [a.py] holds [x]: a relative path
    resolves below [/w]. *)
Definition in_cwd : World :=
  mkWorld (fun p => if anchored p then p else abs ("w"%string :: parts p))
    [ (abs [], Dir);
      (abs ["w"], Dir);
      (abs ["w"; "a.py"], File (Some (lit "x"))) ]%string
    next_py (fun _ => true).

(** The same, with [a.py] holding [dx], which the rewrite leaves as it
    is. *)
Definition in_cwd_settled : World :=
  mkWorld (fun p => if anchored p then p else abs ("w"%string :: parts p))
    [ (abs [], Dir);
      (abs ["w"], Dir);
      (abs ["w"; "a.py"], File (Some (lit "dx"))) ]%string
    next_py (fun _ => true).

(** A tree [/in] with the one file [a/b/c.py], holding [y = 2]. *)
Definition nested_tree : World :=
  plain [ (abs [], Dir);
          (abs ["in"], Dir);
          (abs ["in"; "a"], Dir);
          (abs ["in"; "a"; "b"], Dir);
          (abs ["in"; "a"; "b"; "c.py"], File (Some (lit "y = 2"))) ]%string.

(** One file [/n/notes.txt] holding [x = 1]. *)
Definition text_file : World :=
  plain [ (abs [], Dir);
          (abs ["n"], Dir);
          (abs ["n"; "notes.txt"], File (Some (lit "x = 1"))) ]%string.

(** A tree [/in] with [a.py] (holding [x]), [b.py] (holding [dx]) and a
    third file that is not UTF-8, found in this order. *)
Definition mixed_tree : World :=
  plain [ (abs [], Dir);
          (abs ["in"], Dir);
          (abs ["in"; "a.py"], File (Some (lit "x")));
          (abs ["in"; "b.py"], File (Some (lit "dx")));
          (abs ["in"; "c.py"], File None) ]%string.

(** A tree [/in] with [a.py] (holding [x]) and [b.py] (holding [dx]). *)
Definition two_file_tree : World :=
  plain [ (abs [], Dir);
          (abs ["in"], Dir);
          (abs ["in"; "a.py"], File (Some (lit "x")));
          (abs ["in"; "b.py"], File (Some (lit "dx"))) ]%string.

(** Only [/t/layers.lyp] exists. *)
Definition only_lyp (p : Path) : bool :=
  path_eqb p (abs ["t"; "layers.lyp"]%string).

(** One file [/a/f.py] of two lines, [x] and [y]. *)
Definition two_lines : World :=
  plain [ (abs [], Dir);
          (abs ["a"], Dir);
          (abs ["a"; "f.py"],
           File (Some (lit ("x" ++ String "010" "y")))) ]%string.

End Examples.


(** The table under which no code point above ASCII is alphanumeric; the
    example texts are ASCII, so the choice does not show. *)
Definition ascii_only : N -> bool := fun _ => false.

Definition nl : string := String "010" EmptyString.

(** * Results *)

Ltac inv H := inversion H; subst; clear H.

Create HintDb re discriminated.
#[global] Hint Constructors Re.ins : re.

Section ReTheory.

Variable ua : N -> bool.

Import Re.
Local Abbreviation is_word := (Re.is_word ua).
Local Abbreviation word_at := (Re.word_at ua).
Local Abbreviation at_boundary := (Re.at_boundary ua).
Local Abbreviation alt_matches := (Re.alt_matches ua).
Local Abbreviation match_at := (Re.match_at ua).
Local Abbreviation sub_go := (Re.sub_go ua).
Local Abbreviation re_sub := (Re.re_sub ua).
Local Abbreviation rewrite_with := (Re.rewrite_with ua).
Local Abbreviation rewrite := (Re.rewrite ua).
Local Abbreviation scan := (Re.scan ua).
Local Abbreviation quiet := (Re.quiet ua).
Local Abbreviation bounded := (Re.bounded ua).
Local Abbreviation unique_alts := (Re.unique_alts ua).
Local Abbreviation stable := (Re.stable ua).
Local Abbreviation closed_end := (Re.closed_end ua).
Local Abbreviation closed_start := (Re.closed_start ua).
Local Abbreviation qualified_end := (Re.qualified_end ua).

(** *** Prefixes and matches *)

Lemma text_eqb_eq a b : text_eqb a b = true <-> a = b.
Proof.
  revert b; induction a as [|x a IH]; intros [|y b]; simpl; split;
    try congruence; try reflexivity.
  - intros H. apply andb_true_iff in H as [H1 H2].
    apply N.eqb_eq in H1. apply IH in H2. congruence.
  - intros H. inv H. rewrite N.eqb_refl. simpl. now apply IH.
Qed.

Lemma strip_prefix_spec a s r : strip_prefix a s = Some r <-> s = a ++ r.
Proof.
  revert s; induction a as [|x a IH]; intros s; simpl.
  - split; congruence.
  - destruct s as [|y s]; [split; discriminate|].
    destruct (N.eqb_spec x y) as [->|Hxy].
    + rewrite IH. split; congruence.
    + split; [discriminate | congruence].
Qed.

Lemma strip_prefix_app a r : strip_prefix a (a ++ r) = Some r.
Proof. now apply strip_prefix_spec. Qed.

Lemma prev_after_cons c a prev :
  prev_after (c :: a) prev = prev_after a (Some c).
Proof. reflexivity. Qed.

Lemma prev_after_app a b prev :
  prev_after (a ++ b) prev = prev_after b (prev_after a prev).
Proof. unfold prev_after. apply fold_left_app. Qed.

Lemma prev_after_nonempty a p q : a <> [] -> prev_after a p = prev_after a q.
Proof. destruct a; [congruence | reflexivity]. Qed.

Lemma alt_matches_spec prev s a :
  alt_matches prev s a = true <->
  at_boundary prev (hd_error s) = true /\
  exists r, s = a ++ r /\ at_boundary (prev_after a prev) (hd_error r) = true.
Proof.
  unfold Re.alt_matches. rewrite andb_true_iff. split.
  - intros [H1 H2]. split; [exact H1|].
    destruct (strip_prefix a s) as [r|] eqn:E; [|discriminate].
    exists r. split; [now apply strip_prefix_spec | exact H2].
  - intros [H1 (r & -> & H2)]. split; [exact H1|].
    now rewrite strip_prefix_app.
Qed.

Lemma match_at_some alts prev s m :
  match_at alts prev s = Some m -> In m alts /\ alt_matches prev s m = true.
Proof. apply find_some. Qed.

Lemma match_at_none alts prev s :
  match_at alts prev s = None ->
  forall a, In a alts -> alt_matches prev s a = false.
Proof. intros H a Ha. exact (find_none _ _ H a Ha). Qed.

Lemma match_at_none_intro alts prev s :
  (forall a, In a alts -> alt_matches prev s a = false) ->
  match_at alts prev s = None.
Proof.
  intros H. unfold Re.match_at.
  destruct (find (alt_matches prev s) alts) as [m|] eqn:E; [|reflexivity].
  apply find_some in E as [E1 E2]. rewrite (H _ E1) in E2. discriminate.
Qed.

(** *** The scan *)

Lemma sub_go_skip alts a prev r :
  sub_go alts prev (List.length a) (a ++ r)
  = a ++ sub_go alts (prev_after a prev) 0 r.
Proof.
  revert prev; induction a as [|c a IH]; intros prev; [reflexivity|].
  simpl. now rewrite IH.
Qed.

Lemma sub_go_hit alts prev m r :
  m <> [] ->
  match_at alts prev (m ++ r) = Some m ->
  sub_go alts prev 0 (m ++ r) = marker :: m ++ sub_go alts (prev_after m prev) 0 r.
Proof.
  intros Hm H. destruct m as [|c m]; [congruence|].
  change (sub_go alts prev 0 ((c :: m) ++ r))
    with (match match_at alts prev ((c :: m) ++ r) with
          | Some m0 => marker :: c :: sub_go alts (Some c) (pred (List.length m0)) (m ++ r)
          | None => c :: sub_go alts (Some c) 0 (m ++ r)
          end).
  rewrite H. simpl pred. now rewrite sub_go_skip.
Qed.

Lemma sub_go_copy alts prev c s :
  match_at alts prev (c :: s) = None ->
  sub_go alts prev 0 (c :: s) = c :: sub_go alts (Some c) 0 s.
Proof. intros H. simpl. now rewrite H. Qed.

Lemma sub_scan alts :
  nonempty_alts alts ->
  forall prev s, scan alts prev s (sub_go alts prev 0 s).
Proof.
  intros Hne prev s.
  remember (List.length s) as n eqn:Hn.
  revert prev s Hn.
  induction n as [n IH] using lt_wf_ind. intros prev s Hn.
  destruct s as [|c s]; [constructor|].
  destruct (match_at alts prev (c :: s)) as [m|] eqn:E.
  - pose proof (match_at_some _ _ _ _ E) as [Hin Hm].
    apply alt_matches_spec in Hm as [_ (r & Hs & _)].
    pose proof (Hne _ Hin) as Hm.
    rewrite Hs in E |- *. rewrite (sub_go_hit _ _ _ _ Hm E).
    apply scan_hit; auto.
    apply (IH (List.length r)); [|reflexivity].
    subst n. rewrite Hs, length_app. destruct m; [congruence|simpl; lia].
  - rewrite (sub_go_copy _ _ _ _ E). apply scan_copy; auto.
    apply (IH (List.length s)); [subst n; simpl; lia | reflexivity].
Qed.

(** *** Character classes *)

Ltac bool_arith H :=
  repeat first
    [ rewrite orb_true_iff in H | rewrite andb_true_iff in H
    | rewrite orb_false_iff in H | rewrite andb_false_iff in H
    | rewrite negb_true_iff in H
    | rewrite N.leb_le in H | rewrite N.eqb_eq in H | rewrite N.ltb_lt in H
    | rewrite N.leb_gt in H | rewrite N.eqb_neq in H | rewrite N.ltb_ge in H ].

Lemma ascii_word_lt c : ascii_word c = true -> c < 128.
Proof. unfold ascii_word. intros H. bool_arith H. lia. Qed.

Lemma ascii_word_is_word c : ascii_word c = true -> is_word c = true.
Proof.
  intros H. unfold Re.is_word.
  apply ascii_word_lt in H as Hlt. apply N.ltb_lt in Hlt. now rewrite Hlt.
Qed.

Lemma ascii_word_not_break c :
  ascii_word c = true -> Cli.is_linebreak c = false.
Proof.
  intros H. destruct (Cli.is_linebreak c) eqn:E; [exfalso|reflexivity].
  unfold ascii_word in H. unfold Cli.is_linebreak in E.
  bool_arith H. bool_arith E. lia.
Qed.

Lemma word_marker : is_word marker = true.
Proof. reflexivity. Qed.

Lemma word_dot : is_word dot = false.
Proof. reflexivity. Qed.

Lemma legacy_inv a :
  legacy a ->
  a <> [] /\ Forall (fun c => ascii_word c = true) a /\ ~ In marker a.
Proof.
  unfold legacy, legacyb. intros H. destruct a as [|x a]; [discriminate|].
  rewrite forallb_forall in H. repeat split.
  - discriminate.
  - apply Forall_forall. intros c Hc. apply H in Hc.
    now apply andb_true_iff in Hc as [Hc _].
  - intros Hc. apply H in Hc. apply andb_true_iff in Hc as [_ Hc].
    discriminate.
Qed.

Lemma legacy_words a : legacy a -> Forall (fun c => is_word c = true) a.
Proof.
  intros H. apply legacy_inv in H as (_ & H & _).
  eapply Forall_impl; [|exact H]. apply ascii_word_is_word.
Qed.

Lemma catalogue_legacy : Forall legacy to_be_replaced.
Proof.
  apply Forall_forall. intros a Ha.
  assert (H : forallb legacyb to_be_replaced = true) by reflexivity.
  rewrite forallb_forall in H. now apply H.
Qed.

Lemma headed_nonempty alts : headed alts -> nonempty_alts alts.
Proof. intros H a Ha. destruct (H a Ha) as (c & a' & -> & _). discriminate. Qed.

Lemma headed_pattern2 ns : Forall legacy ns -> headed (pattern2 ns).
Proof.
  intros H a Ha. rewrite Forall_forall in H. apply H in Ha.
  apply legacy_inv in Ha as (Hne & Hw & _).
  destruct a as [|c a']; [congruence|]. inv Hw. eauto.
Qed.

Lemma headed_pattern1 ns : headed (pattern1 ns).
Proof.
  intros a Ha. apply in_map_iff in Ha as (n & <- & _).
  exists marker, (dot :: n). split; reflexivity.
Qed.

#[local] Hint Resolve catalogue_legacy headed_pattern1 headed_pattern2
  headed_nonempty : re.

(** *** Insertions *)

Lemma ins_refl s : ins s s.
Proof. induction s; auto with re. Qed.

Lemma ins_app_keep m s o : ins s o -> ins (m ++ s) (m ++ o).
Proof. intros H. induction m; simpl; auto with re. Qed.

Lemma ins_app s1 o1 s2 o2 : ins s1 o1 -> ins s2 o2 -> ins (s1 ++ s2) (o1 ++ o2).
Proof. intros H1 H2. induction H1; simpl; auto with re. Qed.

Lemma ins_trans a b c : ins a b -> ins b c -> ins a c.
Proof.
  intros Hab Hbc. revert a Hab.
  induction Hbc as [|x b' c' Hbc IH|y b' c0 Hy Hbc IH]; intros a Hab.
  - exact Hab.
  - inv Hab.
    + constructor. now apply IH.
    + apply ins_mark; [assumption|]. now apply IH.
  - pose proof (IH _ Hab) as Hac. inv Hab.
    + now apply ins_mark.
    + now apply ins_mark.
Qed.

Lemma ins_length s o : ins s o -> (List.length s <= List.length o)%nat.
Proof. induction 1; simpl in *; lia. Qed.

Lemma ins_same_length s o :
  ins s o -> List.length s = List.length o -> s = o.
Proof.
  induction 1 as [|c s o H IH|c s o Hc H IH]; simpl; intros Hl.
  - reflexivity.
  - f_equal. apply IH. lia.
  - apply ins_length in H. simpl in H. lia.
Qed.

Lemma ins_count s o c :
  ins s o -> c <> marker ->
  count_occ N.eq_dec o c = count_occ N.eq_dec s c.
Proof.
  intros H Hc. induction H as [|x s o H IH|x s o Hx H IH].
  - reflexivity.
  - simpl. rewrite IH. reflexivity.
  - rewrite count_occ_cons_neq by congruence. exact IH.
Qed.

Lemma ins_hd s o :
  ins s o -> word_at (hd_error s) = false -> hd_error o = hd_error s.
Proof.
  induction 1 as [|c s o H IH|c s o Hc H IH]; simpl; intros Hw; auto.
  apply ascii_word_is_word in Hc. congruence.
Qed.

Lemma ins_prev_after s o p : ins s o -> prev_after o p = prev_after s p.
Proof.
  intros H. revert p. induction H as [|c s o H IH|c s o Hc H IH]; intros p.
  - reflexivity.
  - simpl. apply IH.
  - rewrite prev_after_cons, IH. reflexivity.
Qed.

Lemma scan_ins alts prev s o : headed alts -> scan alts prev s o -> ins s o.
Proof.
  intros Hh H. induction H as [prev|prev c s o Hm H IH|prev m r o Hne Hm H IH].
  - constructor.
  - now constructor.
  - apply match_at_some in Hm as [Hin _].
    destruct (Hh _ Hin) as (c & m' & -> & Hc).
    apply ins_mark; [exact Hc|]. now apply (ins_app_keep (c :: m')).
Qed.

Lemma re_sub_scan alts s :
  headed alts -> scan alts None s (re_sub alts s).
Proof. intros H. apply sub_scan. now apply headed_nonempty. Qed.

Lemma rewrite_with_ins ns t :
  Forall legacy ns ->
  ins t (re_sub (pattern1 ns) t) /\
  ins (re_sub (pattern1 ns) t) (rewrite_with ns t).
Proof.
  intros H. split.
  - eapply scan_ins; [|apply re_sub_scan]; auto with re.
  - eapply scan_ins; [|apply re_sub_scan]; auto with re.
Qed.

(** *** Lines *)

Lemma splitlines_go_lf s :
  List.length (Cli.splitlines_go [] (newline :: s))
  = S (List.length (Cli.splitlines_go [] s)).
Proof. destruct s; reflexivity. Qed.

Lemma splitlines_go_cons cur c s :
  Cli.splitlines_go cur (c :: s)
  = if Cli.is_linebreak c then
      rev cur ::
        match s with
        | c' :: s'' =>
            if (c =? 13) && (c' =? 10) then Cli.splitlines_go [] s''
            else Cli.splitlines_go [] s
        | [] => []
        end
    else Cli.splitlines_go (c :: cur) s.
Proof. reflexivity. Qed.

Lemma splitlines_go_break cur c s :
  Cli.is_linebreak c = true ->
  List.length (Cli.splitlines_go cur (c :: s))
  = ((if ((c =? 13)%N && starts_lf s)%bool then 0 else 1)
     + List.length (Cli.splitlines_go [] s))%nat.
Proof.
  intros Hc. rewrite splitlines_go_cons, Hc. unfold starts_lf, newline.
  destruct s as [|c' s].
  - rewrite andb_false_r. reflexivity.
  - destruct ((c =? 13) && (c' =? 10)) eqn:E; [|reflexivity].
    apply andb_true_iff in E as [_ E]. apply N.eqb_eq in E. subst c'.
    cbn [List.length Nat.add]. f_equal. symmetry. apply splitlines_go_lf.
Qed.

Lemma ins_starts_lf s o : ins s o -> starts_lf o = starts_lf s.
Proof.
  induction 1 as [|c s o H IH|c s o Hc H IH]; simpl; auto.
  destruct (N.eqb_spec c newline) as [->|]; [discriminate Hc|reflexivity].
Qed.

Lemma ins_splitlines s o :
  ins s o ->
  forall cur cur',
    (cur' = [] -> cur = []) ->
    (cur = [] ->
     cur' = [] \/ exists c s', s = c :: s' /\ Cli.is_linebreak c = false) ->
    List.length (Cli.splitlines_go cur s)
    = List.length (Cli.splitlines_go cur' o).
Proof.
  induction 1 as [|c s o H IH|c s o Hc H IH]; intros cur cur' H1 H2.
  - destruct cur as [|x cur].
    + destruct (H2 eq_refl) as [->|(c & s' & E & _)];
        [reflexivity | discriminate].
    + destruct cur' as [|y cur']; [specialize (H1 eq_refl); discriminate|].
      reflexivity.
  - destruct (Cli.is_linebreak c) eqn:Eb.
    + rewrite !splitlines_go_break by assumption.
      rewrite (ins_starts_lf _ _ H). f_equal. apply IH; auto.
    + rewrite !splitlines_go_cons, Eb. apply IH; [discriminate|discriminate].
  - change (Cli.splitlines_go cur' (marker :: o))
      with (Cli.splitlines_go (marker :: cur') o).
    apply IH; [discriminate|].
    intros _. right. exists c, s. split; [reflexivity|].
    now apply ascii_word_not_break.
Qed.

Lemma ins_lines s o :
  ins s o ->
  List.length (Cli.splitlines o) = List.length (Cli.splitlines s).
Proof.
  intros H. unfold Cli.splitlines. symmetry.
  apply (ins_splitlines _ _ H); auto.
Qed.

(** *** Boundaries of a match *)

Lemma word_after a p :
  Forall (fun c => is_word c = true) a ->
  a <> [] \/ word_at p = true ->
  word_at (prev_after a p) = true.
Proof.
  intros Ha. revert p. induction Ha as [|c a Hc Ha IH]; intros p Hp.
  - destruct Hp as [Hp|Hp]; [congruence | exact Hp].
  - rewrite prev_after_cons. apply IH. right. exact Hc.
Qed.

Lemma legacy_after a p : legacy a -> word_at (prev_after a p) = true.
Proof.
  intros H. apply word_after; [now apply legacy_words|].
  left. now apply legacy_inv in H.
Qed.

Lemma legacy_head a r : legacy a -> word_at (hd_error (a ++ r)) = true.
Proof.
  intros H. pose proof (legacy_words _ H) as Hw.
  apply legacy_inv in H as (Hne & _).
  destruct a as [|c a]; [congruence|]. now inv Hw.
Qed.

Lemma boundary_after_word p x :
  word_at p = true -> at_boundary p x = true -> word_at x = false.
Proof.
  unfold Re.at_boundary. intros -> H. now destruct (word_at x).
Qed.

Lemma boundary_before_word p x :
  word_at x = true -> at_boundary p x = true -> word_at p = false.
Proof.
  unfold Re.at_boundary. intros -> H. now destruct (word_at p).
Qed.

Lemma no_boundary_in_word p x :
  word_at p = true -> word_at x = true -> at_boundary p x = false.
Proof. unfold Re.at_boundary. now intros -> ->. Qed.

(** A legacy name matches exactly where it stands bounded. *)
Lemma name_matches_iff prev s n :
  legacy n ->
  alt_matches prev s n = true <-> exists r, s = n ++ r /\ bounded prev r.
Proof.
  intros Hn. rewrite alt_matches_spec. split.
  - intros (H1 & r & -> & H2). exists r. split; [reflexivity|]. split.
    + eapply boundary_before_word; [|exact H1]. now apply legacy_head.
    + eapply boundary_after_word; [|exact H2]. now apply legacy_after.
  - intros (r & -> & Hp & Hr). split.
    + unfold Re.at_boundary. now rewrite Hp, legacy_head.
    + exists r. split; [reflexivity|].
      unfold Re.at_boundary. now rewrite Hr, legacy_after.
Qed.

(** A qualified alternative matches where [d.] stands after a boundary and
    the name matches behind the dot. *)
Lemma qualified_matches_iff prev s n :
  legacy n ->
  alt_matches prev s (marker :: dot :: n) = true <->
  word_at prev = false /\
  exists s', s = marker :: dot :: s' /\ alt_matches (Some dot) s' n = true.
Proof.
  intros Hn. rewrite alt_matches_spec. split.
  - intros (H1 & r & -> & H2). split.
    + eapply boundary_before_word; [|exact H1]. reflexivity.
    + exists (n ++ r). split; [reflexivity|].
      apply name_matches_iff; [assumption|]. exists r.
      split; [reflexivity|]. split; [reflexivity|].
      eapply boundary_after_word; [|exact H2].
      apply (legacy_after n (Some dot) Hn).
  - intros (Hp & s' & -> & H).
    apply name_matches_iff in H as (r & -> & _ & Hr); [|assumption].
    split.
    + unfold Re.at_boundary. simpl hd_error. now rewrite Hp.
    + exists r. split; [reflexivity|].
      change (prev_after (marker :: dot :: n) prev)
        with (prev_after n (Some dot)).
      unfold Re.at_boundary. now rewrite Hr, legacy_after.
Qed.

(** *** At most one alternative matches at a position *)

Lemma name_match_unique prev s a b :
  legacy a -> legacy b ->
  alt_matches prev s a = true -> alt_matches prev s b = true -> a = b.
Proof.
  intros Ha Hb Hma Hmb.
  apply name_matches_iff in Hma as (ra & -> & _ & Hra); [|assumption].
  apply name_matches_iff in Hmb as (rb & E & _ & Hrb); [|assumption].
  apply app_eq_app in E as (k & [[-> ->]|[-> ->]]).
  - destruct k as [|c k]; [now rewrite app_nil_r|].
    pose proof (legacy_words _ Ha) as Hw. apply Forall_app in Hw as [_ Hw].
    inv Hw. simpl in Hrb. congruence.
  - destruct k as [|c k]; [now rewrite app_nil_r|].
    pose proof (legacy_words _ Hb) as Hw. apply Forall_app in Hw as [_ Hw].
    inv Hw. simpl in Hra. congruence.
Qed.

Lemma unique_pattern2 ns : Forall legacy ns -> unique_alts (pattern2 ns).
Proof.
  intros H prev s a b Ha Hb. rewrite Forall_forall in H.
  apply name_match_unique; auto.
Qed.

Lemma unique_pattern1 ns : Forall legacy ns -> unique_alts (pattern1 ns).
Proof.
  intros H prev s a b Ha Hb Hma Hmb. rewrite Forall_forall in H.
  apply in_map_iff in Ha as (na & <- & Hna).
  apply in_map_iff in Hb as (nb & <- & Hnb).
  apply qualified_matches_iff in Hma as (_ & sa & -> & Hma); [|auto].
  apply qualified_matches_iff in Hmb as (_ & sb & E & Hmb); [|auto].
  inv E. f_equal. f_equal. eapply name_match_unique; eauto.
Qed.

Lemma find_unique_perm {A} (f : A -> bool) (l l' : list A) :
  (forall a b, In a l -> In b l -> f a = true -> f b = true -> a = b) ->
  Permutation l l' ->
  find f l = find f l'.
Proof.
  intros Hu Hp.
  destruct (find f l) as [a|] eqn:E.
  - apply find_some in E as [Ha Hfa].
    destruct (find f l') as [b|] eqn:E'.
    + apply find_some in E' as [Hb Hfb].
      apply (Permutation_in _ (Permutation_sym Hp)) in Hb.
      f_equal. now apply Hu.
    + apply (Permutation_in _ Hp) in Ha.
      pose proof (find_none _ _ E' _ Ha). congruence.
  - destruct (find f l') as [b|] eqn:E'; [|reflexivity].
    apply find_some in E' as [Hb Hfb].
    apply (Permutation_in _ (Permutation_sym Hp)) in Hb.
    pose proof (find_none _ _ E _ Hb). congruence.
Qed.

Lemma match_at_perm l l' prev s :
  unique_alts l -> Permutation l l' ->
  match_at l prev s = match_at l' prev s.
Proof.
  intros Hu Hp. apply find_unique_perm; [|exact Hp].
  intros a b Ha Hb. now apply Hu.
Qed.

Lemma sub_go_ext l l' :
  (forall prev s, match_at l prev s = match_at l' prev s) ->
  forall s prev k, sub_go l prev k s = sub_go l' prev k s.
Proof.
  intros H s. induction s as [|c s IH]; intros prev k; [reflexivity|].
  simpl. destruct k as [|k].
  - rewrite H. destruct (match_at l' prev (c :: s)); now rewrite IH.
  - now rewrite IH.
Qed.

Lemma rewrite_with_perm ns ns' t :
  Forall legacy ns -> Permutation ns ns' ->
  rewrite_with ns t = rewrite_with ns' t.
Proof.
  intros Hl Hp. unfold Re.rewrite_with, Re.re_sub.
  rewrite (sub_go_ext (pattern1 ns) (pattern1 ns')).
  - apply sub_go_ext. intros prev s.
    apply match_at_perm; [now apply unique_pattern2 | exact Hp].
  - intros prev s. apply match_at_perm; [now apply unique_pattern1|].
    now apply Permutation_map.
Qed.

(** C9: whatever the order in which the set [to_be_replaced] hands its names
    to the two alternations, the rewrite is the same function, also when the
    two patterns get the names in different orders; the closing [\b] leaves
    at most one alternative that can match at a position, also among
    move/movex and x/xmax/xmin/xsize. *)
Theorem alternation_order_is_irrelevant (ns1 ns2 : list text) :
  Permutation to_be_replaced ns1 ->
  Permutation to_be_replaced ns2 ->
  forall t,
    rewrite_with ns1 t = rewrite_with ns2 t
    /\ re_sub (pattern2 ns2) (re_sub (pattern1 ns1) t) = rewrite t.
Proof.
  intros H1 H2 t. split.
  - transitivity (rewrite_with to_be_replaced t).
    + symmetry. apply rewrite_with_perm; [apply catalogue_legacy | exact H1].
    + apply rewrite_with_perm; [apply catalogue_legacy | exact H2].
  - unfold Re.rewrite, Re.rewrite_with, Re.re_sub.
    rewrite (sub_go_ext (pattern1 ns1) (pattern1 to_be_replaced)).
    + apply sub_go_ext. intros prev s. symmetry.
      apply match_at_perm; [apply unique_pattern2, catalogue_legacy | exact H2].
    + intros prev s. symmetry.
      apply match_at_perm; [apply unique_pattern1, catalogue_legacy|].
      now apply Permutation_map.
Qed.

(** *** Texts in which nothing matches *)

Lemma quiet_here alts prev s : quiet alts prev s -> match_at alts prev s = None.
Proof. destruct s; simpl; tauto. Qed.

Lemma quiet_app alts u prev s :
  quiet alts prev (u ++ s) -> quiet alts (prev_after u prev) s.
Proof.
  revert prev. induction u as [|c u IH]; intros prev H; [exact H|].
  rewrite prev_after_cons. apply IH. simpl in H. tauto.
Qed.

Lemma quiet_sub_id alts s prev : quiet alts prev s -> sub_go alts prev 0 s = s.
Proof.
  revert prev. induction s as [|c s IH]; intros prev H; [reflexivity|].
  destruct H as [H1 H2]. rewrite sub_go_copy by assumption.
  now rewrite IH.
Qed.

Lemma quiet_run alts m prev o :
  Forall (fun c => is_word c = true) m ->
  word_at prev = true ->
  quiet alts (prev_after m prev) o ->
  quiet alts prev (m ++ o).
Proof.
  intros Hm. revert prev. induction Hm as [|c m Hc Hm IH]; intros prev Hp H.
  - exact H.
  - split.
    + apply match_at_none_intro. intros a _. unfold Re.alt_matches.
      change (hd_error (c :: m ++ o)) with (Some c).
      now rewrite (no_boundary_in_word prev (Some c)).
    + apply IH; [exact Hc | exact H].
Qed.

(** What stands in front of a marker-free prefix of the output stood in
    front of the input too. *)
Lemma ins_strip s o :
  ins s o ->
  forall a r', ~ In marker a -> o = a ++ r' ->
  exists r, s = a ++ r /\
            (hd_error r' = hd_error r \/ hd_error r' = Some marker).
Proof.
  induction 1 as [|c s o H IH|c s o Hc H IH]; intros a r' Ha E.
  - symmetry in E. apply app_eq_nil in E as [-> ->]. exists []. auto.
  - destruct a as [|x a].
    + simpl in E. subst r'. exists (c :: s). auto.
    + inv E. destruct (IH a r') as (r & -> & Hr); auto.
      * intros Hin. apply Ha. now right.
      * exists r. auto.
  - destruct a as [|x a].
    + simpl in E. subst r'. exists (c :: s). auto.
    + inv E. exfalso. apply Ha. now left.
Qed.

Lemma alt_matches_ins prev s o a :
  legacy a -> ins s o ->
  alt_matches prev o a = true -> alt_matches prev s a = true.
Proof.
  intros Ha Hi Hm.
  apply name_matches_iff in Hm as (r' & -> & Hp & Hr'); [|assumption].
  pose proof (legacy_inv _ Ha) as (_ & _ & Hd).
  destruct (ins_strip _ _ Hi a r' Hd eq_refl) as (r & -> & [E|E]).
  - apply name_matches_iff; [assumption|]. exists r.
    split; [reflexivity|]. split; [exact Hp | now rewrite <- E].
  - rewrite E in Hr'. discriminate Hr'.
Qed.

(** The output of the bare pass holds no bounded legacy name. *)
Lemma scan_quiet ns prev s o :
  Forall legacy ns -> scan (pattern2 ns) prev s o -> quiet ns prev o.
Proof.
  intros Hl H. pose proof Hl as Hl'. rewrite Forall_forall in Hl'.
  induction H as [prev|prev c s o Hm H IH|prev m r o Hne Hm H IH].
  - split; [|exact I]. apply match_at_none_intro. intros a Ha.
    destruct (alt_matches prev [] a) eqn:E; [|reflexivity].
    apply name_matches_iff in E as (r & E & _); [|auto].
    symmetry in E. apply app_eq_nil in E as [-> _].
    apply Hl' in Ha. discriminate Ha.
  - split; [|exact IH]. apply match_at_none_intro. intros a Ha.
    destruct (alt_matches prev (c :: o) a) eqn:E; [|reflexivity].
    apply (alt_matches_ins prev (c :: s)) in E; auto.
    + rewrite (match_at_none _ _ _ Hm a Ha) in E. discriminate E.
    + constructor. eapply scan_ins; [|exact H]. now apply headed_pattern2.
  - apply match_at_some in Hm as [Hin _]. pose proof (Hl' _ Hin) as Hlm.
    split.
    + apply match_at_none_intro. intros a Ha.
      destruct (alt_matches prev (marker :: m ++ o) a) eqn:E; [|reflexivity].
      apply name_matches_iff in E as (r' & E & _); [|auto].
      apply Hl' in Ha. apply legacy_inv in Ha as (Hne' & _ & Hd).
      destruct a as [|x a]; [congruence|]. inv E. exfalso. apply Hd. now left.
    + apply quiet_run; [now apply legacy_words | reflexivity |].
      now rewrite (prev_after_nonempty m (Some marker) prev).
Qed.

Lemma quiet_qualified ns s prev :
  Forall legacy ns -> quiet ns prev s -> quiet (pattern1 ns) prev s.
Proof.
  intros Hl. rewrite Forall_forall in Hl.
  assert (Hhere : forall prev s,
             quiet ns prev s -> match_at (pattern1 ns) prev s = None).
  { clear prev s. intros prev s Hq. apply match_at_none_intro. intros a Ha.
    apply in_map_iff in Ha as (n & <- & Hn).
    destruct (alt_matches prev s (marker :: dot :: n)) eqn:E; [|reflexivity].
    apply qualified_matches_iff in E as (_ & s' & -> & E); [|auto].
    apply (quiet_app ns [marker; dot]) in Hq.
    change (prev_after [marker; dot] prev) with (Some dot) in Hq.
    apply quiet_here in Hq.
    rewrite (match_at_none _ _ _ Hq n Hn) in E. discriminate E. }
  revert prev. induction s as [|c s IH]; intros prev Hq.
  - split; [now apply Hhere | exact I].
  - split; [now apply Hhere|]. apply IH. simpl in Hq. tauto.
Qed.

Lemma rewrite_with_quiet ns t :
  Forall legacy ns -> quiet ns None (rewrite_with ns t).
Proof.
  intros Hl. eapply scan_quiet; [exact Hl|].
  apply re_sub_scan. now apply headed_pattern2.
Qed.

(** C2: rewriting a rewritten text changes nothing: after the bare pass no
    legacy name stands bounded any more, so neither pattern matches. *)
Theorem rewrite_idempotent (t : text) : rewrite (rewrite t) = rewrite t.
Proof.
  pose proof (rewrite_with_quiet to_be_replaced t catalogue_legacy) as Hq.
  fold (rewrite t) in Hq.
  unfold Re.rewrite at 1. unfold Re.rewrite_with, Re.re_sub.
  rewrite (quiet_sub_id (pattern1 to_be_replaced) (rewrite t) None).
  - now apply quiet_sub_id.
  - apply quiet_qualified; [apply catalogue_legacy | exact Hq].
Qed.

(** *** An identifier that is no legacy name stays as it is *)

Lemma shaped_pattern2 ns : shaped ns (pattern2 ns).
Proof. intros a Ha. exists a. auto. Qed.

Lemma shaped_pattern1 ns : shaped ns (pattern1 ns).
Proof. intros a Ha. apply in_map_iff in Ha as (n & <- & Hn). eauto. Qed.

Lemma mem_false a l : mem a l = false -> ~ In a l.
Proof.
  unfold mem. intros H Hin.
  assert (E : existsb (text_eqb a) l = true).
  { apply existsb_exists. exists a. split; [exact Hin|]. now apply text_eqb_eq. }
  congruence.
Qed.

Lemma sub_word_run alts m prev v :
  Forall (fun c => is_word c = true) m ->
  word_at prev = true ->
  sub_go alts prev 0 (m ++ v) = m ++ sub_go alts (prev_after m prev) 0 v.
Proof.
  intros Hm. revert prev. induction Hm as [|c m Hc Hm IH]; intros prev Hp.
  - reflexivity.
  - change ((c :: m) ++ v) with (c :: m ++ v). rewrite sub_go_copy.
    + rewrite IH by exact Hc. reflexivity.
    + apply match_at_none_intro. intros a _. unfold Re.alt_matches.
      change (hd_error (c :: m ++ v)) with (Some c).
      now rewrite (no_boundary_in_word prev (Some c)).
Qed.

Section Frame.

Variables ns alts : list text.
Variables w v : text.

Hypothesis legacy_ns : Forall legacy ns.
Hypothesis shaped_alts : shaped ns alts.
Hypothesis word_w : Forall (fun c => is_word c = true) w.
Hypothesis w_nonempty : w <> [].
Hypothesis w_fresh : ~ In w ns.
Hypothesis w_not_marker : w <> [marker].
Hypothesis v_closed : word_at (hd_error v) = false.

Lemma legacy_in n : In n ns -> legacy n.
Proof. intros H. rewrite Forall_forall in legacy_ns. now apply legacy_ns. Qed.

Lemma headed_shaped : headed alts.
Proof.
  intros a Ha. destruct (shaped_alts a Ha) as (n & Hn & [->| ->]).
  - apply (headed_pattern2 ns legacy_ns n Hn).
  - exists marker, (dot :: n). split; reflexivity.
Qed.

(** A name cannot end exactly where the identifier ends unless it is the
    identifier. *)
Lemma name_not_at_identifier prev n :
  In n ns -> alt_matches prev (w ++ v) n = false.
Proof.
  intros Hn. destruct (alt_matches prev (w ++ v) n) eqn:E; [|reflexivity].
  exfalso. pose proof (legacy_in n Hn) as Hl.
  apply name_matches_iff in E as (r & E & _ & Hr); [|assumption].
  apply app_eq_app in E as (k & [[-> ->]|[-> ->]]).
  - destruct k as [|c k]; [rewrite app_nil_r in w_fresh; tauto|].
    apply Forall_app in word_w as [_ Hk]. inv Hk. simpl in Hr. congruence.
  - destruct k as [|c k]; [rewrite app_nil_r in Hn; tauto|].
    pose proof (legacy_words _ Hl) as Hw.
    apply Forall_app in Hw as [_ Hk]. inv Hk. simpl in v_closed. congruence.
Qed.

Lemma no_match_at_identifier prev a :
  In a alts -> alt_matches prev (w ++ v) a = false.
Proof.
  intros Ha. destruct (shaped_alts a Ha) as (n & Hn & [->| ->]).
  - now apply name_not_at_identifier.
  - destruct (alt_matches prev (w ++ v) (marker :: dot :: n)) eqn:E;
      [|reflexivity].
    exfalso.
    apply qualified_matches_iff in E as (_ & s' & E & _);
      [|now apply legacy_in].
    destruct w as [|x [|y w']].
    + congruence.
    + inv E. congruence.
    + inv E. inv word_w. match goal with H : Forall _ (dot :: _) |- _ => inv H end.
      rewrite word_dot in *. discriminate.
Qed.

(** A match that starts in front of the identifier ends in front of it. *)
Lemma match_ends_before u prev m :
  u <> [] ->
  word_at (prev_after u prev) = false ->
  In m alts ->
  alt_matches prev (u ++ w ++ v) m = true ->
  exists u2, u = m ++ u2.
Proof.
  intros Hu Hclosed Hm Hmatch.
  pose proof Hmatch as Hspec.
  apply alt_matches_spec in Hspec as (_ & r & E & Hend).
  apply app_eq_app in E as (k & [[-> ->]|[-> E]]); [eauto|].
  destruct k as [|x k]; [exists []; now rewrite !app_nil_r|].
  exfalso. destruct (shaped_alts _ Hm) as (n & Hn & [En|En]).
  - pose proof (legacy_words _ (legacy_in n Hn)) as Hw.
    rewrite <- En in Hw. apply Forall_app in Hw as [Hw _].
    rewrite (word_after u prev Hw) in Hclosed; [discriminate | now left].
  - destruct u as [|u0 [|u1 [|u2 u']]].
    + congruence.
    + inv En. discriminate Hclosed.
    + inv En.
      assert (Hn' : alt_matches (Some dot) (w ++ v) (x :: k) = true).
      { apply name_matches_iff; [now apply legacy_in|].
        exists r. split; [exact E|]. split; [reflexivity|].
        eapply boundary_after_word; [|exact Hend].
        apply (legacy_after (x :: k) (Some dot)). now apply legacy_in. }
      rewrite name_not_at_identifier in Hn' by assumption. discriminate.
    + inv En. pose proof (legacy_words _ (legacy_in _ Hn)) as Hw.
      change (u2 :: u' ++ x :: k) with ((u2 :: u') ++ x :: k) in Hw.
      apply Forall_app in Hw as [Hw _].
      change (prev_after (marker :: dot :: u2 :: u') prev)
        with (prev_after (u2 :: u') (Some dot)) in Hclosed.
      rewrite (word_after (u2 :: u') (Some dot) Hw) in Hclosed;
        [discriminate | left; discriminate].
Qed.

Lemma frame_go n :
  forall u prev,
    (List.length u < n)%nat ->
    word_at (prev_after u prev) = false ->
    exists u' v',
      sub_go alts prev 0 (u ++ w ++ v) = u' ++ w ++ v' /\ ins u u' /\ ins v v'.
Proof.
  induction n as [|n IH]; intros u prev Hlen Hclosed; [lia|].
  destruct u as [|c u].
  - assert (Hnone : match_at alts prev (w ++ v) = None).
    { apply match_at_none_intro. intros a Ha.
      now apply no_match_at_identifier. }
    assert (Ew : exists x w', w = x :: w')
      by (destruct w; [congruence | eauto]).
    destruct Ew as (x & w' & Ew). pose proof word_w as Hw.
    rewrite Ew in Hnone, Hw |- *. inv Hw.
    exists [], (sub_go alts (prev_after (x :: w') prev) 0 v).
    split; [|split].
    + change ([] ++ (x :: w') ++ v) with (x :: w' ++ v).
      rewrite sub_go_copy by exact Hnone.
      rewrite sub_word_run by assumption. reflexivity.
    + constructor.
    + eapply scan_ins; [apply headed_shaped|].
      apply sub_scan, headed_nonempty, headed_shaped.
  - destruct (match_at alts prev ((c :: u) ++ w ++ v)) as [m|] eqn:E.
    + pose proof (match_at_some _ _ _ _ E) as [Hin Hm].
      destruct (match_ends_before (c :: u) prev m) as (u2 & Eu);
        [discriminate | assumption | assumption | assumption |].
      destruct (headed_shaped m Hin) as (m0 & m' & -> & Hm0).
      assert (Es0 : sub_go alts prev 0 ((c :: u) ++ w ++ v)
                    = marker :: (m0 :: m')
                      ++ sub_go alts (prev_after (m0 :: m') prev) 0
                           (u2 ++ w ++ v)).
      { rewrite Eu, <- app_assoc in E |- *.
        apply sub_go_hit; [discriminate | exact E]. }
      rewrite Eu, prev_after_app in Hclosed.
      destruct (IH u2 (prev_after (m0 :: m') prev)) as (u' & v' & Es & Hu & Hv).
      * apply (f_equal (@List.length N)) in Eu.
        rewrite length_app in Eu. simpl in Eu, Hlen. lia.
      * exact Hclosed.
      * exists (marker :: (m0 :: m') ++ u'), v'. split; [|split].
        -- rewrite Es0, Es. simpl. now rewrite <- app_assoc.
        -- rewrite Eu. apply ins_mark; [exact Hm0|].
           now apply (ins_app_keep (m0 :: m')).
        -- exact Hv.
    + change ((c :: u) ++ w ++ v) with (c :: u ++ w ++ v).
      rewrite sub_go_copy by exact E.
      destruct (IH u (Some c)) as (u' & v' & Es & Hu & Hv).
      * simpl in Hlen. lia.
      * exact Hclosed.
      * exists (c :: u'), v'. split; [|split].
        -- now rewrite Es.
        -- now constructor.
        -- exact Hv.
Qed.

Lemma frame u prev :
  word_at (prev_after u prev) = false ->
  exists u' v',
    sub_go alts prev 0 (u ++ w ++ v) = u' ++ w ++ v' /\ ins u u' /\ ins v v'.
Proof. apply (frame_go (S (List.length u))). lia. Qed.

End Frame.

(** An identifier that is neither a legacy name nor the marker alone comes
    out of each pass as it went in, with the same neighbours. *)
Lemma identifier_kept ns u w v :
  Forall legacy ns ->
  Forall (fun c => is_word c = true) w ->
  w <> [] -> ~ In w ns -> w <> [marker] ->
  word_at (prev_after u None) = false ->
  word_at (hd_error v) = false ->
  exists u1 v1 u2 v2,
    re_sub (pattern1 ns) (u ++ w ++ v) = u1 ++ w ++ v1
    /\ re_sub (pattern2 ns) (u1 ++ w ++ v1) = u2 ++ w ++ v2
    /\ ins u u1 /\ ins u1 u2 /\ ins v v1 /\ ins v1 v2
    /\ prev_after u2 None = prev_after u None
    /\ hd_error v2 = hd_error v.
Proof.
  intros Hl Hw Hne Hfresh Hm Hu Hv. unfold Re.re_sub.
  destruct (frame ns (pattern1 ns) w v Hl (shaped_pattern1 ns) Hw Hne Hfresh
              Hm Hv u None Hu) as (u1 & v1 & E1 & Hu1 & Hv1).
  destruct (frame ns (pattern2 ns) w v1 Hl (shaped_pattern2 ns) Hw Hne Hfresh
              Hm) with (u := u1) (prev := @None N)
    as (u2 & v2 & E2 & Hu2 & Hv2).
  - now rewrite (ins_hd _ _ Hv1 Hv).
  - now rewrite (ins_prev_after _ _ None Hu1).
  - exists u1, v1, u2, v2. repeat split; auto.
    + now rewrite (ins_prev_after _ _ None Hu2), (ins_prev_after _ _ None Hu1).
    + rewrite (ins_hd _ _ Hv2), (ins_hd _ _ Hv1); auto.
      now rewrite (ins_hd _ _ Hv1 Hv).
Qed.

(** *** What a match is *)

Lemma match_bounded_bare ns prev s m :
  Forall legacy ns ->
  match_at (pattern2 ns) prev s = Some m ->
  In m ns /\ exists r, s = m ++ r /\ bounded prev r.
Proof.
  intros Hl H. apply match_at_some in H as [Hin H]. split; [exact Hin|].
  rewrite Forall_forall in Hl. now apply name_matches_iff in H; auto.
Qed.

Lemma match_bounded_qualified ns prev s m :
  Forall legacy ns ->
  match_at (pattern1 ns) prev s = Some m ->
  exists n r, In n ns /\ m = marker :: dot :: n /\ s = m ++ r
              /\ bounded prev r /\ bounded (Some dot) r.
Proof.
  intros Hl H. apply match_at_some in H as [Hin H].
  rewrite Forall_forall in Hl.
  apply in_map_iff in Hin as (n & <- & Hn).
  apply qualified_matches_iff in H as (Hp & s' & -> & H); [|auto].
  apply name_matches_iff in H as (r & -> & Hd & Hr); [|auto].
  exists n, r. repeat split; auto.
Qed.

(** C8: what either pass replaces is an occurrence bounded on both sides (a
    name for the bare pass; [d.] and a name for the qualified pass, the name
    standing between the dot and a boundary); and an identifier that holds a
    legacy name with more identifier characters around it, and is no legacy
    name itself, comes out of the qualified pass and then of the bare pass
    as it went in, between the same neighbours. *)
Theorem boundary_respect :
  (forall prev s m,
      match_at (pattern2 to_be_replaced) prev s = Some m ->
      In m to_be_replaced /\ exists r, s = m ++ r /\ bounded prev r)
  /\ (forall prev s m,
      match_at (pattern1 to_be_replaced) prev s = Some m ->
      exists n r, In n to_be_replaced /\ m = marker :: dot :: n
                  /\ s = m ++ r /\ bounded prev r /\ bounded (Some dot) r)
  /\ (forall a n b u v,
      In n to_be_replaced ->
      a ++ b <> [] ->
      forallb is_word (a ++ n ++ b) = true ->
      mem (a ++ n ++ b) to_be_replaced = false ->
      word_at (prev_after u None) = false ->
      word_at (hd_error v) = false ->
      exists u1 v1 u2 v2,
        re_sub (pattern1 to_be_replaced) (u ++ (a ++ n ++ b) ++ v)
        = u1 ++ (a ++ n ++ b) ++ v1
        /\ rewrite (u ++ (a ++ n ++ b) ++ v) = u2 ++ (a ++ n ++ b) ++ v2
        /\ ins u u1 /\ ins u1 u2 /\ ins v v1 /\ ins v1 v2
        /\ prev_after u2 None = prev_after u None
        /\ hd_error v2 = hd_error v).
Proof.
  split; [|split].
  - intros prev s m. apply match_bounded_bare, catalogue_legacy.
  - intros prev s m. apply match_bounded_qualified, catalogue_legacy.
  - intros a n b u v Hn Hab Hw Hfresh Hu Hv.
    pose proof catalogue_legacy as Hl. rewrite Forall_forall in Hl.
    apply Hl, legacy_inv in Hn as (Hn & _).
    assert (Hlen : (2 <= List.length (a ++ n ++ b))%nat).
    { rewrite !length_app. destruct n; [congruence|].
      destruct a; [destruct b; [simpl in Hab; congruence|]|]; simpl; lia. }
    destruct (identifier_kept to_be_replaced u (a ++ n ++ b) v)
      as (u1 & v1 & u2 & v2 & E1 & E2 & H); auto with re.
    + apply Forall_forall. intros c Hc.
      rewrite forallb_forall in Hw. now apply Hw.
    + intros E. rewrite E in Hlen. simpl in Hlen. lia.
    + now apply mem_false.
    + intros E. rewrite E in Hlen. simpl in Hlen. lia.
    + exists u1, v1, u2, v2. split; [exact E1|]. split; [|exact H].
      unfold Re.rewrite, Re.rewrite_with. now rewrite E1.
Qed.

(** C1: on [p.center = (0, 0)] and, on the next line, [d.center], the
    qualified pass turns [d.center] into [dd.center], and the bare pass then
    marks both [center]s, the one of [p.center] and the one inside the
    replacement of the first pass; the same with the one-rule catalogue. *)
Theorem concrete_scenario :
  re_sub (pattern1 to_be_replaced)
    (lit ("p.center = (0, 0)" ++ nl ++ "d.center")%string)
  = lit ("p.center = (0, 0)" ++ nl ++ "dd.center")%string
  /\ re_sub (pattern2 to_be_replaced)
       (lit ("p.center = (0, 0)" ++ nl ++ "dd.center")%string)
     = lit ("p.dcenter = (0, 0)" ++ nl ++ "dd.dcenter")%string
  /\ rewrite (lit ("p.center = (0, 0)" ++ nl ++ "d.center")%string)
     = lit ("p.dcenter = (0, 0)" ++ nl ++ "dd.dcenter")%string
  /\ rewrite_with [lit "center"]
       (lit ("p.center = (0, 0)" ++ nl ++ "d.center")%string)
     = lit ("p.dcenter = (0, 0)" ++ nl ++ "dd.dcenter")%string.
Proof. repeat split; vm_compute; reflexivity. Qed.

(** C10: the rewrite only puts markers in, one in front of each match of
    each pass (the two runs are scans); the text does not get shorter, it
    keeps its number of newline characters and its number of lines as
    [splitlines] counts them, and a rewritten text that differs from the
    original is strictly longer. *)
Theorem rewrite_only_inserts_markers (t : text) :
  (exists t1, scan (pattern1 to_be_replaced) None t t1
              /\ scan (pattern2 to_be_replaced) None t1 (rewrite t))
  /\ ins t (rewrite t)
  /\ (List.length t <= List.length (rewrite t))%nat
  /\ count_occ N.eq_dec (rewrite t) newline = count_occ N.eq_dec t newline
  /\ List.length (Cli.splitlines (rewrite t)) = List.length (Cli.splitlines t)
  /\ (rewrite t = t \/ (List.length t < List.length (rewrite t))%nat).
Proof.
  pose proof (rewrite_with_ins to_be_replaced t catalogue_legacy) as [H1 H2].
  assert (H : ins t (rewrite t)) by (eapply ins_trans; eassumption).
  split; [|split; [exact H|split; [|split; [|split]]]].
  - exists (re_sub (pattern1 to_be_replaced) t).
    split; apply re_sub_scan; auto with re.
  - now apply ins_length.
  - apply ins_count; [exact H | discriminate].
  - now apply ins_lines.
  - pose proof (ins_length _ _ H) as Hl.
    destruct (Nat.eq_dec (List.length t) (List.length (rewrite t))) as [E|E].
    + left. symmetry. now apply ins_same_length.
    + right. lia.
Qed.

(** *** Texts without catalogue names *)

Lemma text_eqb_refl t : text_eqb t t = true.
Proof. now apply text_eqb_eq. Qed.

Lemma occursb_false n t :
  occursb n t = false ->
  strip_prefix n t = None
  /\ match t with
     | [] => True
     | _ :: t' => occursb n t' = false
     end.
Proof.
  destruct t as [|c t]; simpl; destruct (strip_prefix n _);
    try discriminate; auto.
Qed.

Lemma absent_quiet ns t :
  (forall n, In n ns -> occursb n t = false) ->
  forall prev, quiet ns prev t.
Proof.
  induction t as [|c t IH]; intros Habs prev.
  - split; [|exact I]. apply match_at_none_intro. intros a Ha.
    apply Habs, occursb_false in Ha as [Ha _].
    unfold Re.alt_matches. rewrite Ha. apply andb_false_r.
  - split.
    + apply match_at_none_intro. intros a Ha.
      apply Habs, occursb_false in Ha as [Ha _].
      unfold Re.alt_matches. rewrite Ha. apply andb_false_r.
    + apply IH. intros n Hn. now apply Habs, occursb_false in Hn as [_ Hn].
Qed.

(** No-op detection: a text in which no catalogue name occurs at all comes
    back as it is, and counts as unchanged. *)
Theorem no_op_detection (t : text) :
  existsb (fun n => occursb n t) to_be_replaced = false ->
  rewrite t = t /\ DriverSpec.changed ua t = false.
Proof.
  intros H.
  assert (Habs : forall n, In n to_be_replaced -> occursb n t = false).
  { intros n Hn. destruct (occursb n t) eqn:E; [|reflexivity].
    assert (existsb (fun n => occursb n t) to_be_replaced = true)
      by (apply existsb_exists; eauto).
    congruence. }
  assert (E : rewrite t = t).
  { unfold Re.rewrite, Re.rewrite_with, Re.re_sub.
    rewrite (quiet_sub_id (pattern1 to_be_replaced) t None).
    - apply quiet_sub_id. now apply absent_quiet.
    - apply quiet_qualified; [auto with re | now apply absent_quiet]. }
  split; [exact E|].
  unfold DriverSpec.changed. now rewrite E, text_eqb_refl.
Qed.

(** *** Cutting a text in two *)

Lemma match_at_ext alts prev s prev' s' :
  (forall a, In a alts -> alt_matches prev s a = alt_matches prev' s' a) ->
  match_at alts prev s = match_at alts prev' s'.
Proof.
  unfold Re.match_at. induction alts as [|a alts IH]; intros H; [reflexivity|].
  simpl. rewrite (H a) by now left.
  destruct (alt_matches prev' s' a); [reflexivity|].
  apply IH. intros x Hx. apply H. now right.
Qed.

Lemma alt_matches_prev p q s a :
  word_at p = word_at q -> alt_matches p s a = alt_matches q s a.
Proof.
  intros H. unfold Re.alt_matches, Re.at_boundary. rewrite H.
  destruct (strip_prefix a s); [|reflexivity].
  destruct a as [|x a]; [simpl; now rewrite H | reflexivity].
Qed.

(** Only whether the character before is a word character matters. *)
Lemma sub_go_prev alts p q k s :
  word_at p = word_at q -> sub_go alts p k s = sub_go alts q k s.
Proof.
  intros H. destruct s as [|c s]; [reflexivity|]. simpl.
  destruct k; [|reflexivity].
  rewrite (match_at_ext alts p (c :: s) q (c :: s)); [reflexivity|].
  intros a _. now apply alt_matches_prev.
Qed.

Lemma match_at_hit alts prev s m :
  unique_alts alts -> In m alts -> alt_matches prev s m = true ->
  match_at alts prev s = Some m.
Proof.
  intros Hu Hin Hm. destruct (match_at alts prev s) as [m'|] eqn:E.
  - apply match_at_some in E as [Hin' Hm']. f_equal. eapply Hu; eauto.
  - rewrite (match_at_none _ _ _ E m Hin) in Hm. discriminate.
Qed.

(** An alternative matches in [b ++ rest] as it does in [b], unless it
    runs over the end of [b] from a position where [\b] holds, and provided
    that, where it is [b] itself, no word character follows. *)
Lemma alt_matches_app p b rest a :
  b <> [] ->
  (forall k x, k <> [] -> a = b ++ k -> rest = k ++ x ->
               at_boundary p (hd_error b) = false) ->
  (a = b -> word_at (hd_error rest) = false) ->
  alt_matches p (b ++ rest) a = alt_matches p b a.
Proof.
  intros Hb Hcross Hend. unfold Re.alt_matches.
  replace (hd_error (b ++ rest)) with (hd_error b)
    by (destruct b; [congruence | reflexivity]).
  destruct (at_boundary p (hd_error b)) eqn:Eb; [|reflexivity].
  cbn [andb]. destruct (strip_prefix a b) as [r|] eqn:E1.
  - apply strip_prefix_spec in E1. subst b.
    rewrite <- app_assoc, strip_prefix_app.
    destruct r as [|y r]; [|reflexivity].
    rewrite app_nil_r in Hend. cbn [app]. unfold Re.at_boundary.
    now rewrite (Hend eq_refl).
  - destruct (strip_prefix a (b ++ rest)) as [x|] eqn:E2; [exfalso|reflexivity].
    apply strip_prefix_spec in E2.
    apply app_eq_app in E2 as (l & [[E3 E4]|[E3 E4]]).
    + subst b. rewrite strip_prefix_app in E1. discriminate.
    + destruct l as [|y l].
      * rewrite app_nil_r in E3. subst a.
        rewrite <- (app_nil_r b) in E1 at 2.
        rewrite strip_prefix_app in E1. discriminate.
      * assert (Hf := Hcross (y :: l) x ltac:(discriminate) E3 E4).
        congruence.
Qed.

Lemma stable_tail alts prev m r rest :
  stable alts prev (m ++ r) rest -> stable alts (prev_after m prev) r rest.
Proof.
  intros H a b Hr Hb. rewrite <- prev_after_app. apply H; [|exact Hb].
  now rewrite Hr, app_assoc.
Qed.

(** Where the cut is stable the substitution of the whole is the
    substitution of the parts. *)
Lemma sub_go_split alts u rest prev :
  nonempty_alts alts ->
  stable alts prev u rest ->
  sub_go alts prev 0 (u ++ rest)
  = sub_go alts prev 0 u ++ sub_go alts (prev_after u prev) 0 rest.
Proof.
  intros Hne. remember (List.length u) as k eqn:Hk. revert u prev Hk.
  induction k as [k IH] using lt_wf_ind. intros u prev Hk Hst.
  destruct u as [|c u]; [reflexivity|].
  pose proof (Hst [] (c :: u) eq_refl) as H0.
  cbn [prev_after fold_left] in H0. specialize (H0 ltac:(discriminate)).
  destruct (match_at alts prev (c :: u)) as [m|] eqn:E.
  - pose proof (match_at_some _ _ _ _ E) as [Hin Hm].
    apply alt_matches_spec in Hm as (_ & r & Er & _).
    pose proof (Hne _ Hin) as Hm. rewrite Er in *.
    rewrite <- app_assoc in H0 |- *.
    rewrite (sub_go_hit alts prev m (r ++ rest) Hm H0).
    rewrite (sub_go_hit alts prev m r Hm E).
    rewrite (IH (List.length r)) with (u := r); try reflexivity.
    + rewrite prev_after_app. cbn [app]. now rewrite <- app_assoc.
    + subst k. rewrite length_app. destruct m; [congruence | simpl; lia].
    + now apply stable_tail.
  - change ((c :: u) ++ rest) with (c :: u ++ rest) in *.
    rewrite (sub_go_copy alts prev c (u ++ rest) H0).
    rewrite (sub_go_copy alts prev c u E).
    rewrite (IH (List.length u)) with (u := u); try reflexivity.
    + subst k. simpl. lia.
    + apply (stable_tail alts prev [c] u rest). exact Hst.
Qed.

Lemma closed_suffix a b prev :
  b <> [] ->
  word_at (prev_after (a ++ b) prev) = false ->
  ~ Forall (fun c => is_word c = true) b.
Proof.
  intros Hb Hc Hw. rewrite prev_after_app in Hc.
  rewrite (word_after b _ Hw) in Hc; [discriminate | now left].
Qed.

(** Names do not run over a character that is no word character. *)
Lemma stable_names ns prev u rest :
  Forall legacy ns ->
  word_at (prev_after u prev) = false ->
  stable ns prev u rest.
Proof.
  intros Hl Hc a b Hu Hb. rewrite Forall_forall in Hl. subst u.
  apply match_at_ext. intros n Hn.
  pose proof (legacy_words _ (Hl _ Hn)) as Hw.
  apply alt_matches_app; [exact Hb | |].
  - intros k x _ E _. exfalso. subst n. apply Forall_app in Hw as [Hw _].
    exact (closed_suffix a b prev Hb Hc Hw).
  - intros E. exfalso. subst n. exact (closed_suffix a b prev Hb Hc Hw).
Qed.

Lemma shaped_chars ns alts a x :
  Forall legacy ns -> shaped ns alts -> In a alts -> In x a ->
  is_word x = true \/ x = dot.
Proof.
  intros Hl Hs Ha Hx. rewrite Forall_forall in Hl.
  destruct (Hs a Ha) as (n & Hn & [->| ->]).
  - left. pose proof (legacy_words _ (Hl _ Hn)) as Hw.
    rewrite Forall_forall in Hw. now apply Hw.
  - destruct Hx as [<-|[<-|Hx]]; [left; reflexivity | now right |].
    left. pose proof (legacy_words _ (Hl _ Hn)) as Hw.
    rewrite Forall_forall in Hw. now apply Hw.
Qed.

(** No alternative runs over a character that is neither a word character
    nor the dot. *)
Lemma stable_sep ns alts prev u c v :
  Forall legacy ns -> shaped ns alts ->
  is_word c = false -> c <> dot ->
  stable alts prev u (c :: v).
Proof.
  intros Hl Hs Hc Hd a b Hu Hb. apply match_at_ext. intros alt Halt.
  apply alt_matches_app; [exact Hb | | intros _; exact Hc].
  intros k x Hk E Ev. exfalso. destruct k as [|y k]; [congruence|].
  simpl in Ev. injection Ev as Ey Ev. subst y alt.
  destruct (shaped_chars ns alts (b ++ c :: k) c Hl Hs Halt) as [H|H].
  - apply in_or_app. right. now left.
  - congruence.
  - congruence.
Qed.

(** A qualified alternative runs over the end of [u] only from a [d.] that
    stands there after a boundary, into a name. *)
Lemma stable_qualified ns prev u rest :
  Forall legacy ns ->
  word_at (prev_after u prev) = false ->
  (forall a0 n x, u = a0 ++ [marker; dot] ->
                  word_at (prev_after a0 prev) = false ->
                  In n ns -> rest <> n ++ x) ->
  stable (pattern1 ns) prev u rest.
Proof.
  intros Hl Hc Hguard a b Hu Hb. rewrite Forall_forall in Hl. subst u.
  apply match_at_ext. intros alt Halt.
  apply in_map_iff in Halt as (n & <- & Hn).
  pose proof (legacy_words _ (Hl _ Hn)) as Hw.
  pose proof (legacy_inv _ (Hl _ Hn)) as (Hne & _).
  apply alt_matches_app; [exact Hb | |].
  - intros k x Hk E Er.
    destruct b as [|b0 [|b1 [|b2 b']]].
    + congruence.
    + inv E. rewrite prev_after_app in Hc. discriminate Hc.
    + inv E. unfold Re.at_boundary. cbn [hd_error Re.word_at].
      destruct (word_at (prev_after a prev)) eqn:Ep; [reflexivity|].
      exfalso. exact (Hguard a k x eq_refl Ep Hn eq_refl).
    + exfalso. inv E.
      match goal with H : Forall _ (_ :: _ ++ _) |- _ =>
        change (b2 :: b' ++ k) with ((b2 :: b') ++ k) in H;
        apply Forall_app in H as [H _];
        apply (closed_suffix (a ++ [marker; dot]) (b2 :: b') prev);
          [discriminate | | exact H]
      end.
      now rewrite <- app_assoc.
  - intros E. exfalso. subst b.
    assert (Hw' : word_at (prev_after (a ++ marker :: dot :: n) prev) = true).
    { rewrite prev_after_app. apply (legacy_after n (Some dot)). now apply Hl. }
    congruence.
Qed.

Lemma names_no_match_at ns prev c s :
  Forall legacy ns ->
  is_word c = false \/ c = marker ->
  match_at ns prev (c :: s) = None.
Proof.
  intros Hl Hc. rewrite Forall_forall in Hl.
  apply match_at_none_intro. intros n Hn.
  destruct (alt_matches prev (c :: s) n) eqn:E; [exfalso|reflexivity].
  apply name_matches_iff in E as (r & E & _); [|auto].
  pose proof (legacy_words _ (Hl _ Hn)) as Hw.
  pose proof (legacy_inv _ (Hl _ Hn)) as (Hne & _ & Hd).
  destruct n as [|x n]; [congruence|]. inv E. inv Hw.
  destruct Hc as [Hc|Hc]; [congruence | subst; apply Hd; now left].
Qed.

Lemma qualified_no_match_at ns prev c s :
  c <> marker -> match_at (pattern1 ns) prev (c :: s) = None.
Proof.
  intros Hc. apply match_at_none_intro. intros a Ha.
  apply in_map_iff in Ha as (n & <- & _).
  unfold Re.alt_matches. cbn [strip_prefix].
  destruct (N.eqb_spec marker c) as [E|_]; [congruence|].
  apply andb_false_r.
Qed.

(** In front of a character that is no word character the scan starts the
    same whatever came before. *)
Lemma sub_go_closed_start alts p q v :
  headed alts ->
  word_at (hd_error v) = false ->
  sub_go alts p 0 v = sub_go alts q 0 v.
Proof.
  intros Hh Hv. destruct v as [|c v]; [reflexivity|].
  assert (Hnone : forall p, match_at alts p (c :: v) = None).
  { intros p'. apply match_at_none_intro. intros a Ha.
    destruct (Hh a Ha) as (x & a' & -> & Hx).
    unfold Re.alt_matches. cbn [strip_prefix].
    destruct (N.eqb_spec x c) as [E|_]; [|apply andb_false_r].
    subst x. apply ascii_word_is_word in Hx. cbn in Hv. congruence. }
  now rewrite !sub_go_copy by apply Hnone.
Qed.

Lemma headed_no_match alts p c s :
  headed alts -> is_word c = false -> match_at alts p (c :: s) = None.
Proof.
  intros Hh Hc. apply match_at_none_intro. intros a Ha.
  destruct (Hh a Ha) as (x & a' & -> & Hx).
  unfold Re.alt_matches. cbn [strip_prefix].
  destruct (N.eqb_spec x c) as [E|_]; [|apply andb_false_r].
  subst x. apply ascii_word_is_word in Hx. congruence.
Qed.

Lemma prev_after_rev a : prev_after a None = hd_error (rev a).
Proof.
  induction a as [|x a IH] using rev_ind; [reflexivity|].
  now rewrite prev_after_app, rev_app_distr.
Qed.

Lemma closed_end_inv u : closed_end u = true -> word_at (prev_after u None) = false.
Proof. unfold Re.closed_end. now destruct (word_at (prev_after u None)). Qed.

Lemma closed_start_inv v : closed_start v = true -> word_at (hd_error v) = false.
Proof. unfold Re.closed_start. now destruct (word_at (hd_error v)). Qed.

Lemma qualified_end_false a0 :
  qualified_end (a0 ++ [marker; dot]) = false ->
  word_at (prev_after a0 None) = true.
Proof.
  unfold Re.qualified_end. rewrite rev_app_distr. cbn [rev app].
  rewrite prev_after_rev. cbn.
  now destruct (word_at (hd_error (rev a0))).
Qed.

(** *** One pass over a text cut at a separator or at a name *)

Lemma pass_local ns alts u c v :
  Forall legacy ns -> shaped ns alts ->
  is_word c = false -> c <> dot ->
  re_sub alts (u ++ c :: v) = re_sub alts u ++ c :: re_sub alts v.
Proof.
  intros Hl Hs Hc Hd. unfold Re.re_sub.
  pose proof (headed_shaped ns alts Hl Hs) as Hh.
  rewrite sub_go_split;
    [|now apply headed_nonempty | now apply (stable_sep ns)].
  rewrite sub_go_copy by now apply headed_no_match.
  now rewrite (sub_go_prev alts (Some c) None).
Qed.

Lemma qualified_pass_name ns u n v :
  Forall legacy ns -> legacy n ->
  closed_end u = true -> qualified_end u = false -> closed_start v = true ->
  re_sub (pattern1 ns) (u ++ n ++ v)
  = re_sub (pattern1 ns) u ++ n ++ re_sub (pattern1 ns) v.
Proof.
  intros Hl Hn Hu Hq Hv. unfold Re.re_sub.
  apply closed_end_inv in Hu. apply closed_start_inv in Hv.
  rewrite sub_go_split.
  - f_equal. pose proof (legacy_words _ Hn) as Hw.
    pose proof (legacy_inv _ Hn) as (Hne & _ & Hd).
    destruct n as [|x n]; [congruence|]. inv Hw.
    change ((x :: n) ++ v) with (x :: n ++ v).
    rewrite sub_go_copy.
    + rewrite sub_word_run by assumption. cbn [app]. do 2 f_equal.
      apply sub_go_closed_start; [apply headed_pattern1 | exact Hv].
    + apply qualified_no_match_at. intros E. apply Hd. now left.
  - apply headed_nonempty, headed_pattern1.
  - apply stable_qualified; [exact Hl | exact Hu |].
    intros a0 n' x E Ha0 _ _. subst u.
    rewrite (qualified_end_false _ Hq) in Ha0. discriminate.
Qed.

Lemma bare_pass_name ns u n v :
  Forall legacy ns -> In n ns ->
  closed_end u = true -> closed_start v = true ->
  re_sub (pattern2 ns) (u ++ n ++ v)
  = re_sub (pattern2 ns) u ++ marker :: n ++ re_sub (pattern2 ns) v.
Proof.
  intros Hl Hn Hu Hv. unfold Re.re_sub.
  apply closed_end_inv in Hu. apply closed_start_inv in Hv.
  pose proof Hl as Hl'. rewrite Forall_forall in Hl'.
  rewrite sub_go_split.
  - f_equal. rewrite sub_go_hit.
    + do 2 f_equal.
      apply sub_go_closed_start; [now apply headed_pattern2 | exact Hv].
    + pose proof (legacy_inv _ (Hl' _ Hn)) as (Hne & _). exact Hne.
    + apply match_at_hit; [now apply unique_pattern2 | exact Hn |].
      apply name_matches_iff; [now apply Hl'|].
      exists v. split; [reflexivity|]. now split.
  - now apply headed_nonempty, headed_pattern2.
  - now apply stable_names.
Qed.

Lemma qualified_pass_hit ns u n v :
  Forall legacy ns -> In n ns ->
  closed_end u = true -> closed_start v = true ->
  re_sub (pattern1 ns) (u ++ marker :: dot :: n ++ v)
  = re_sub (pattern1 ns) u ++ marker :: marker :: dot :: n
    ++ re_sub (pattern1 ns) v.
Proof.
  intros Hl Hn Hu Hv. unfold Re.re_sub.
  apply closed_end_inv in Hu. apply closed_start_inv in Hv.
  pose proof Hl as Hl'. rewrite Forall_forall in Hl'.
  rewrite sub_go_split.
  - f_equal.
    change (marker :: dot :: n ++ v) with ((marker :: dot :: n) ++ v).
    rewrite sub_go_hit.
    + cbn [app]. do 4 f_equal.
      apply sub_go_closed_start; [apply headed_pattern1 | exact Hv].
    + discriminate.
    + apply match_at_hit; [now apply unique_pattern1 | |].
      * apply in_map_iff. eauto.
      * apply qualified_matches_iff; [now apply Hl'|].
        split; [exact Hu|]. exists (n ++ v). split; [reflexivity|].
        apply name_matches_iff; [now apply Hl'|].
        exists v. split; [reflexivity|]. split; [reflexivity | exact Hv].
  - apply headed_nonempty, headed_pattern1.
  - apply stable_qualified; [exact Hl | exact Hu |].
    intros a0 n' x _ _ Hn' E. apply Hl', legacy_inv in Hn' as (Hne & _ & Hd).
    destruct n' as [|y n']; [congruence|]. inv E. apply Hd. now left.
Qed.

(** The bare pass leaves [dd.] alone. *)
Lemma bare_pass_qualifier ns u :
  Forall legacy ns -> closed_end u = true ->
  re_sub (pattern2 ns) (u ++ [marker; marker; dot])
  = re_sub (pattern2 ns) u ++ [marker; marker; dot].
Proof.
  intros Hl Hu. unfold Re.re_sub. apply closed_end_inv in Hu.
  rewrite sub_go_split;
    [|now apply headed_nonempty, headed_pattern2 | now apply stable_names].
  f_equal. unfold pattern2.
  rewrite sub_go_copy by (apply names_no_match_at; auto).
  rewrite sub_go_copy by (apply names_no_match_at; auto).
  rewrite sub_go_copy by (apply names_no_match_at; auto).
  reflexivity.
Qed.

Lemma pass_closed_end alts u :
  headed alts -> closed_end (re_sub alts u) = closed_end u.
Proof.
  intros Hh. unfold Re.closed_end. f_equal. f_equal.
  apply ins_prev_after. eapply scan_ins; [exact Hh | now apply re_sub_scan].
Qed.

Lemma pass_closed_start alts v :
  headed alts -> closed_start v = true ->
  closed_start (re_sub alts v) = true.
Proof.
  intros Hh Hv. unfold Re.closed_start.
  rewrite (ins_hd v (re_sub alts v)).
  - exact Hv.
  - eapply scan_ins; [exact Hh | now apply re_sub_scan].
  - now apply closed_start_inv.
Qed.

(** *** The rewrite, piece by piece *)

(** The rewrite works on each side of a separator by itself: a character
    that is neither a word character nor the dot cuts the text into two
    texts that are rewritten apart; so the rewrite of lines joined by such a
    character is the rewritten lines joined. *)
Theorem rewrite_is_local (c : N) :
  is_word c = false ->
  (c =? dot) = false ->
  (forall u v, rewrite (u ++ c :: v) = rewrite u ++ c :: rewrite v)
  /\ (forall ls, rewrite (join_with c ls) = join_with c (map rewrite ls)).
Proof.
  intros Hc Hd. apply N.eqb_neq in Hd.
  assert (Hcut : forall u v, rewrite (u ++ c :: v) = rewrite u ++ c :: rewrite v).
  { intros u v. unfold Re.rewrite, Re.rewrite_with.
    rewrite (pass_local to_be_replaced (pattern1 to_be_replaced));
      auto using shaped_pattern1 with re.
    rewrite (pass_local to_be_replaced (pattern2 to_be_replaced));
      auto using shaped_pattern2 with re. }
  split; [exact Hcut|].
  induction ls as [|l ls IH]; [reflexivity|].
  destruct ls as [|l' ls]; [reflexivity|].
  change (join_with c (l :: l' :: ls)) with (l ++ c :: join_with c (l' :: ls)).
  rewrite Hcut, IH. reflexivity.
Qed.

(** Completeness: a catalogue name that stands bounded on both sides, and
    not behind a qualifier [d.], gets the marker, and the texts on its two
    sides are rewritten as they would be alone. *)
Theorem bounded_name_is_marked (n u v : text) :
  In n to_be_replaced ->
  closed_end u = true ->
  qualified_end u = false ->
  closed_start v = true ->
  rewrite (u ++ n ++ v) = rewrite u ++ marker :: n ++ rewrite v.
Proof.
  intros Hn Hu Hq Hv. pose proof catalogue_legacy as Hl.
  pose proof Hl as Hl'. rewrite Forall_forall in Hl'.
  unfold Re.rewrite, Re.rewrite_with.
  rewrite qualified_pass_name; auto.
  apply bare_pass_name; auto.
  - now rewrite pass_closed_end by apply headed_pattern1.
  - apply pass_closed_start; [apply headed_pattern1 | exact Hv].
Qed.

(** The double marker: a qualified occurrence [d.name] that stands bounded
    comes out as [dd.dname]: the qualified pass puts a marker in front of
    the [d], the bare pass another in front of the name. *)
Theorem qualified_name_gets_two_markers (n u v : text) :
  In n to_be_replaced ->
  closed_end u = true ->
  closed_start v = true ->
  rewrite (u ++ marker :: dot :: n ++ v)
  = rewrite u ++ marker :: marker :: dot :: marker :: n ++ rewrite v.
Proof.
  intros Hn Hu Hv. pose proof catalogue_legacy as Hl.
  unfold Re.rewrite, Re.rewrite_with.
  rewrite qualified_pass_hit by assumption.
  set (U := re_sub (pattern1 to_be_replaced) u).
  set (V := re_sub (pattern1 to_be_replaced) v).
  change (U ++ marker :: marker :: dot :: n ++ V)
    with (U ++ [marker; marker; dot] ++ n ++ V).
  rewrite app_assoc.
  rewrite bare_pass_name.
  - rewrite bare_pass_qualifier.
    + now rewrite <- app_assoc.
    + exact Hl.
    + unfold U. now rewrite pass_closed_end by apply headed_pattern1.
  - exact Hl.
  - exact Hn.
  - unfold Re.closed_end. rewrite prev_after_app. reflexivity.
  - apply pass_closed_start; [apply headed_pattern1 | exact Hv].
Qed.

(** After the rewrite no catalogue name stands alone: wherever one occurs
    in the rewritten text, a word character stands right before it or right
    behind it. *)
Theorem no_name_left_standing (t u n v : text) :
  In n to_be_replaced ->
  rewrite t = u ++ n ++ v ->
  word_at (prev_after u None) || word_at (hd_error v) = true.
Proof.
  intros Hn E.
  pose proof (rewrite_with_quiet to_be_replaced t catalogue_legacy) as Hq.
  fold (rewrite t) in Hq. rewrite E in Hq.
  apply quiet_app, quiet_here in Hq.
  pose proof (match_at_none _ _ _ Hq n Hn) as Hm.
  destruct (word_at (prev_after u None)) eqn:E1; [reflexivity|].
  destruct (word_at (hd_error v)) eqn:E2; [reflexivity|].
  exfalso. pose proof catalogue_legacy as Hl. rewrite Forall_forall in Hl.
  assert (alt_matches (prev_after u None) (n ++ v) n = true).
  { apply name_matches_iff; [now apply Hl|]. exists v. now repeat split. }
  congruence.
Qed.

End ReTheory.

(** The witness of C9: the catalogue reversed against the catalogue as
    written, on a text with prefix-related names. *)
Lemma alternation_order_witness :
  Re.rewrite_with ascii_only (rev to_be_replaced)
    (lit "movex(xmax) + move.x - xsize_y")
  = Re.rewrite_with ascii_only to_be_replaced
      (lit "movex(xmax) + move.x - xsize_y")
  /\ Re.re_sub ascii_only (Re.pattern2 to_be_replaced)
       (Re.re_sub ascii_only (Re.pattern1 (rev to_be_replaced))
          (lit "movex(xmax) + move.x - xsize_y"))
     = Re.rewrite ascii_only (lit "movex(xmax) + move.x - xsize_y").
Proof.
  apply (alternation_order_is_irrelevant ascii_only).
  - apply Permutation_rev.
  - apply Permutation_refl.
Defined.

(** The witness of C8: [recentered] in [a = recentered + 1]. *)
Lemma boundary_respect_witness :
  exists u1 v1 u2 v2,
    Re.re_sub ascii_only (Re.pattern1 to_be_replaced)
      (lit "a = " ++ (lit "re" ++ lit "center" ++ lit "ed") ++ lit " + 1")
    = u1 ++ (lit "re" ++ lit "center" ++ lit "ed") ++ v1
    /\ Re.rewrite ascii_only
         (lit "a = " ++ (lit "re" ++ lit "center" ++ lit "ed") ++ lit " + 1")
       = u2 ++ (lit "re" ++ lit "center" ++ lit "ed") ++ v2
    /\ Re.ins (lit "a = ") u1 /\ Re.ins u1 u2
    /\ Re.ins (lit " + 1") v1 /\ Re.ins v1 v2
    /\ Re.prev_after u2 None = Re.prev_after (lit "a = ") None
    /\ hd_error v2 = hd_error (lit " + 1").
Proof.
  apply (proj2 (proj2 (boundary_respect ascii_only))).
  - simpl. tauto.
  - discriminate.
  - reflexivity.
  - reflexivity.
  - reflexivity.
  - reflexivity.
Defined.

(** ** The driver *)

Section DriverTheory.

Variable ua : N -> bool.

Import Cli DriverSpec.

Local Abbreviation migrate := (Cli.migrate ua).
Local Abbreviation migrate_from := (Cli.migrate_from ua).
Local Abbreviation mirror_file := (Cli.mirror_file ua).
Local Abbreviation inplace_file := (Cli.inplace_file ua).
Local Abbreviation driver_rule := (DriverSpec.driver_rule ua).
Local Abbreviation changed := (DriverSpec.changed ua).
Local Abbreviation changes := (DriverSpec.changes ua).
Local Abbreviation tree_diff := (DriverSpec.tree_diff ua).
Local Abbreviation notices := (DriverSpec.notices ua).
Local Abbreviation file_run := (DriverSpec.file_run ua).
Local Abbreviation loop_body := (DriverSpec.loop_body ua).
Local Abbreviation settled := (DriverSpec.settled ua).

(** *** Paths *)

Lemma parts_eqb_eq a b : parts_eqb a b = true <-> a = b.
Proof.
  revert b; induction a as [|x a IH]; intros [|y b]; simpl; split;
    try congruence; try reflexivity.
  - intros H. apply andb_true_iff in H as [H1 H2].
    apply String.eqb_eq in H1. apply IH in H2. congruence.
  - intros H. inv H. rewrite String.eqb_refl. simpl. now apply IH.
Qed.

Lemma path_eqb_eq p q : path_eqb p q = true <-> p = q.
Proof.
  destruct p as [ap pp], q as [aq pq]. unfold path_eqb. simpl.
  rewrite andb_true_iff, parts_eqb_eq, Bool.eqb_true_iff.
  split; [intros [-> ->]; reflexivity | intros H; inv H; auto].
Qed.

Lemma path_eqb_refl p : path_eqb p p = true.
Proof. now apply path_eqb_eq. Qed.

Lemma path_eqb_neq p q : p <> q -> path_eqb p q = false.
Proof.
  intros H. destruct (path_eqb p q) eqn:E; [|reflexivity].
  now apply path_eqb_eq in E.
Qed.

Lemma path_eqb_sym p q : path_eqb p q = path_eqb q p.
Proof.
  destruct (path_eqb q p) eqn:E.
  - apply path_eqb_eq in E. subst. apply path_eqb_refl.
  - apply path_eqb_neq. intros ->. now rewrite path_eqb_refl in E.
Qed.

Lemma strip_parts_app b r : strip_parts b (b ++ r) = Some r.
Proof.
  induction b as [|x b IH]; simpl; [reflexivity|].
  now rewrite String.eqb_refl.
Qed.

Lemma strip_parts_some b l r : strip_parts b l = Some r -> l = b ++ r.
Proof.
  revert l. induction b as [|x b IH]; intros l; simpl.
  - intros H. now inv H.
  - destruct l as [|y l]; [discriminate|].
    destruct (String.eqb x y) eqn:E; [|discriminate].
    apply String.eqb_eq in E. subst y. intros H. now rewrite (IH _ H).
Qed.

Lemma relative_to_join input r :
  relative_to (joinpath input (rel r)) input = Some (rel r).
Proof.
  unfold relative_to, joinpath. simpl.
  now rewrite Bool.eqb_reflx, strip_parts_app.
Qed.

Lemma joinpath_rel_inj o i r :
  joinpath o (rel r) = joinpath i (rel r) -> o = i.
Proof.
  destruct o as [ao po], i as [ai pi]. unfold joinpath. simpl.
  intros H. inv H. f_equal. eapply app_inv_tail. eassumption.
Qed.

(** The destination of a file of the tree is its source exactly when the
    output tree is the input tree. *)
Lemma path_eqb_join o i r :
  path_eqb (joinpath o (rel r)) (joinpath i (rel r)) = path_eqb o i.
Proof.
  destruct (path_eqb o i) eqn:E.
  - apply path_eqb_eq in E. subst. apply path_eqb_refl.
  - destruct (path_eqb (joinpath o (rel r)) (joinpath i (rel r))) eqn:E';
      [|reflexivity].
    apply path_eqb_eq, joinpath_rel_inj in E'. subst.
    now rewrite path_eqb_refl in E.
Qed.

Lemma path_prefixb_spec q p :
  path_prefixb q p = true
  <-> anchored q = anchored p /\ exists r, parts p = parts q ++ r.
Proof.
  unfold path_prefixb. rewrite andb_true_iff, Bool.eqb_true_iff. split.
  - intros [Ha Hs]. split; [exact Ha|].
    destruct (strip_parts (parts q) (parts p)) as [r|] eqn:E; [|discriminate].
    exists r. now apply strip_parts_some.
  - intros [Ha (r & Hr)]. split; [exact Ha|].
    now rewrite Hr, strip_parts_app.
Qed.

Lemma path_prefixb_refl p : path_prefixb p p = true.
Proof.
  apply path_prefixb_spec. split; [reflexivity|]. exists [].
  now rewrite app_nil_r.
Qed.

Lemma path_prefixb_trans a b c :
  path_prefixb a b = true -> path_prefixb b c = true ->
  path_prefixb a c = true.
Proof.
  rewrite !path_prefixb_spec. intros [H1 (r1 & E1)] [H2 (r2 & E2)].
  split; [congruence|]. exists (r1 ++ r2). now rewrite E2, E1, app_assoc.
Qed.

Lemma inits_prefix {A} (l x : list A) :
  In l (inits x) -> exists r, x = l ++ r.
Proof.
  revert l. induction x as [|a x IH]; intros l; simpl.
  - intros [<-|[]]. now exists [].
  - intros [<-|H]; [now exists (a :: x)|].
    apply in_map_iff in H as (l' & <- & H').
    destruct (IH _ H') as (r & ->). now exists r.
Qed.

Lemma ancestors_above c d : In d (ancestors c) -> path_prefixb d c = true.
Proof.
  unfold ancestors. intros H. apply in_map_iff in H as (l & <- & Hl).
  apply path_prefixb_spec. cbn. split; [reflexivity|].
  now apply inits_prefix.
Qed.

(** Nothing at or below [root] lies above a place that is not. *)
Lemma ancestors_outside root c d :
  path_prefixb root c = false -> In d (ancestors c) ->
  path_prefixb root d = false.
Proof.
  intros Hc Hd. destruct (path_prefixb root d) eqn:E; [|reflexivity].
  rewrite (path_prefixb_trans _ _ _ E (ancestors_above _ _ Hd)) in Hc.
  discriminate.
Qed.

(** *** The file system *)

Lemma lookup_update fs c n c' :
  lookup (update fs c n) c'
  = if path_eqb c c' then Some n else lookup fs c'.
Proof.
  induction fs as [|[q m] fs IH]; cbn [update lookup].
  - reflexivity.
  - destruct (path_eqb q c) eqn:E; cbn [lookup].
    + apply path_eqb_eq in E. subst q.
      now destruct (path_eqb c c').
    + rewrite IH. destruct (path_eqb c c') eqn:E'; [|reflexivity].
      apply path_eqb_eq in E'. subst c'. now rewrite E.
Qed.

Lemma lookup_update_same fs c n : lookup (update fs c n) c = Some n.
Proof. now rewrite lookup_update, path_eqb_refl. Qed.

Lemma lookup_update_other fs c n c' :
  path_eqb c c' = false -> lookup (update fs c n) c' = lookup fs c'.
Proof. intros H. now rewrite lookup_update, H. Qed.

Lemma below_update_outside root fs c n :
  path_prefixb root c = false -> below root (update fs c n) = below root fs.
Proof.
  intros H. unfold below.
  induction fs as [|[q m] fs IH]; cbn [update filter fst].
  - now rewrite H.
  - destruct (path_eqb q c) eqn:E; cbn [filter fst].
    + apply path_eqb_eq in E. subst q. now rewrite H.
    + now rewrite IH.
Qed.

Lemma shape_update_kind root fs c m n :
  lookup fs c = Some m -> is_dir_node m = is_dir_node n ->
  shape root (update fs c n) = shape root fs.
Proof.
  intros Hl Hk. unfold shape, below.
  induction fs as [|[q m0] fs IH]; cbn [lookup update] in *; [discriminate|].
  destruct (path_eqb q c) eqn:E.
  - inv Hl. cbn [filter fst].
    destruct (path_prefixb root q); [|reflexivity].
    cbn [map fst snd]. now rewrite Hk.
  - cbn [filter fst]. destruct (path_prefixb root q); cbn [map];
      now rewrite (IH Hl).
Qed.

Lemma lookup_below root fs c :
  path_prefixb root c = true -> lookup (below root fs) c = lookup fs c.
Proof.
  intros H. unfold below.
  induction fs as [|[q m] fs IH]; cbn [filter lookup fst]; [reflexivity|].
  destruct (path_prefixb root q) eqn:E; cbn [lookup].
  - now rewrite IH.
  - rewrite IH. destruct (path_eqb q c) eqn:E'; [|reflexivity].
    apply path_eqb_eq in E'. subst q. congruence.
Qed.

Lemma lookup_below_some root fs c n :
  lookup (below root fs) c = Some n ->
  path_prefixb root c = true /\ lookup fs c = Some n.
Proof.
  intros H. destruct (path_prefixb root c) eqn:E.
  - split; [reflexivity|]. now rewrite <- (lookup_below root fs c E).
  - exfalso. revert H. unfold below.
    induction fs as [|[q m] fs IH]; cbn [filter lookup fst]; [discriminate|].
    destruct (path_prefixb root q) eqn:E'; cbn [lookup]; [|exact IH].
    destruct (path_eqb q c) eqn:E''; [|exact IH].
    apply path_eqb_eq in E''. subst q. congruence.
Qed.

Lemma dir_at_update fs c t d :
  dir_at fs d = true -> dir_at fs c = false ->
  dir_at (update fs c (File t)) d = true.
Proof.
  unfold dir_at. intros Hd Hc. rewrite lookup_update.
  destruct (path_eqb c d) eqn:E; [|exact Hd].
  apply path_eqb_eq in E. subst d. rewrite Hd in Hc. discriminate.
Qed.

(** Creating directories leaves what is there as it is. *)
Lemma mkdirs_keeps ds : forall fs fs' c n,
  mkdirs fs ds = inr fs' -> lookup fs c = Some n -> lookup fs' c = Some n.
Proof.
  induction ds as [|d ds IH]; intros fs fs' c n; cbn [mkdirs].
  - intros H. now inv H.
  - destruct (lookup fs d) as [[|t]|] eqn:E; [apply IH|discriminate|].
    intros H Hc. apply (IH _ _ _ _ H).
    rewrite lookup_update_other; [exact Hc|].
    apply path_eqb_neq. intros ->. congruence.
Qed.

(** Directories that exist need no creating. *)
Lemma mkdirs_exist ds : forall fs,
  forallb (dir_at fs) ds = true -> mkdirs fs ds = inr fs.
Proof.
  induction ds as [|d ds IH]; intros fs; cbn [mkdirs forallb];
    [reflexivity|].
  intros H. apply andb_true_iff in H as [H1 H2]. unfold dir_at in H1.
  destruct (lookup fs d) as [[|t]|]; try discriminate. now apply IH.
Qed.

Lemma mkdirs_below root ds : forall fs fs',
  (forall d, In d ds -> path_prefixb root d = false) ->
  mkdirs fs ds = inr fs' -> below root fs' = below root fs.
Proof.
  induction ds as [|d ds IH]; intros fs fs' Hout; cbn [mkdirs].
  - intros H. now inv H.
  - destruct (lookup fs d) as [[|t]|] eqn:E; [|discriminate|].
    + apply IH. intros d' Hd'. apply Hout. now right.
    + intros H. rewrite (IH _ _ (fun d' Hd' => Hout d' (or_intror Hd')) H).
      apply below_update_outside. apply Hout. now left.
Qed.

Lemma mkdirs_dir_at ds fs fs' d :
  mkdirs fs ds = inr fs' -> dir_at fs d = true -> dir_at fs' d = true.
Proof.
  unfold dir_at. intros H Hd.
  destruct (lookup fs d) as [[|t]|] eqn:E; try discriminate.
  now rewrite (mkdirs_keeps _ _ _ _ _ H E).
Qed.

(** *** Runs *)

Lemma bind_returned {A B} (m : M A) (k : A -> M B) fs evs a fs' :
  m fs = (evs, Returned a, fs') ->
  bind m k fs
  = (evs ++ events (k a fs'), outcome (k a fs'), final (k a fs')).
Proof.
  intros H. unfold bind, events, outcome, final. rewrite H.
  now destruct (k a fs') as [[e r] f].
Qed.

Lemma bind_raised {A B} (m : M A) (k : A -> M B) fs evs e fs' :
  m fs = (evs, Raised e, fs') -> bind m k fs = (evs, Raised e, fs').
Proof. intros H. unfold bind. now rewrite H. Qed.

Lemma bind_unfinished {A B} (m : M A) (k : A -> M B) fs evs fs' :
  m fs = (evs, Unfinished, fs') -> bind m k fs = (evs, Unfinished, fs').
Proof. intros H. unfold bind. now rewrite H. Qed.

Lemma run_eta {A} (r : list event * result A * FS) :
  r = (events r, outcome r, final r).
Proof. now destruct r as [[e o] f]. Qed.

Lemma run_is {A} (r : list event * result A * FS) evs o :
  events r = evs -> outcome r = o -> r = (evs, o, final r).
Proof. intros <- <-. apply run_eta. Qed.

Lemma for_each_app {A} (a b : list A) body fs :
  for_each (a ++ b) body fs
  = bind (for_each a body) (fun _ => for_each b body) fs.
Proof.
  revert fs. induction a as [|x a IH]; intros fs; cbn [app for_each].
  - unfold bind, ret. now destruct (for_each b body fs) as [[e r] f].
  - unfold bind.
    destruct (body x fs) as [[e [[]|e0|]] f]; try reflexivity.
    rewrite IH. unfold bind.
    destruct (for_each a body f) as [[e1 [[]|e1'|]] f1]; try reflexivity.
    destruct (for_each b body f1) as [[e2 r2] f2].
    now rewrite app_assoc.
Qed.

(** What every round of a loop keeps, the loop keeps. *)
Lemma for_each_keeps {A} (I : FS -> Prop) (l : list A) body :
  (forall x, In x l -> forall fs, I fs -> I (final (body x fs))) ->
  forall fs, I fs -> I (final (for_each l body fs)).
Proof.
  induction l as [|x l IH]; intros Hb fs Hfs; cbn [for_each].
  - exact Hfs.
  - pose proof (Hb x (or_introl eq_refl) fs Hfs) as H1.
    unfold bind. destruct (body x fs) as [[e [[]|e0|]] f]; cbn in *; auto.
    specialize (IH (fun y Hy => Hb y (or_intror Hy)) f H1).
    now destruct (for_each l body f) as [[e1 r1] f1].
Qed.

(** The walk taken at once takes fewer rounds than it was given. *)
Lemma listing_fuel next fuel : forall seen l,
  listing next fuel seen = Some l -> (List.length l < fuel)%nat.
Proof.
  induction fuel as [|fuel IH]; intros seen l; cbn [listing]; [discriminate|].
  destruct (next seen) as [r|]; [|intros H; inv H; cbn; lia].
  destruct (listing next fuel (seen ++ [r])) as [l'|] eqn:E; [|discriminate].
  intros H. inv H. cbn. apply IH in E. lia.
Qed.

(** As long as the names of the tree stay as they are, the loop over the
    generator is the loop over the walk taken at once. *)
Lemma static_walk (I : FS -> Prop) w input body sh0 :
  (forall fs, I fs -> shape (resolve w input) fs = sh0) ->
  forall fuel l seen fs,
    (forall r, In r l -> forall fs, I fs ->
               I (final (body (joinpath input (rel r)) fs))) ->
    listing (rglob_py w input sh0) fuel seen = Some l ->
    I fs ->
    for_rglob fuel w input seen body fs
    = for_each (map (fun r => joinpath input (rel r)) l) body fs.
Proof.
  intros Hsh. induction fuel as [|fuel IH]; intros l seen fs Hb Hl Hfs;
    cbn [listing for_rglob] in *; [discriminate|].
  rewrite (Hsh _ Hfs).
  destruct (rglob_py w input sh0 seen) as [r|].
  - destruct (listing _ fuel (seen ++ [r])) as [l'|] eqn:E; [|discriminate].
    inv Hl. cbn [map for_each].
    pose proof (Hb r (or_introl eq_refl) fs Hfs) as H1.
    unfold bind.
    destruct (body (joinpath input (rel r)) fs) as [[e [[]|e0|]] f];
      try reflexivity.
    cbn in H1.
    now rewrite (IH l' (seen ++ [r]) f (fun y Hy => Hb y (or_intror Hy)) E H1).
  - now inv Hl.
Qed.

(** In the world where the generator yields a fixed list, the loop is the
    loop over that list. *)
Lemma found_walk w input body fuel : forall l seen fs,
  (List.length l < fuel)%nat ->
  for_rglob fuel (with_found w (seen ++ l)) input seen body fs
  = for_each (map (fun r => joinpath input (rel r)) l) body fs.
Proof.
  induction fuel as [|fuel IH]; intros l seen fs Hf; [lia|].
  cbn [for_rglob with_found rglob_py resolve].
  destruct l as [|r l].
  - rewrite app_nil_r.
    now rewrite (proj2 (nth_error_None seen (List.length seen)) (le_n _)).
  - rewrite nth_error_app2, Nat.sub_diag by lia. cbn [nth_error map for_each].
    unfold bind.
    destruct (body (joinpath input (rel r)) fs) as [[e [[]|e0|]] f];
      try reflexivity.
    pose proof (IH l (seen ++ [r]) f) as H.
    rewrite <- app_assoc in H. cbn [app] in H.
    rewrite H by (cbn in Hf; lia). reflexivity.
Qed.

(** *** One file of a tree *)

Lemma printed_two w e1 e2 fs :
  exists es r,
    (pprint w e1 ;; pprint w e2) fs = (es, r, fs)
    /\ printed w [e1; e2] es r.
Proof.
  unfold bind, pprint.
  destruct (rich_accepts w e1) eqn:E1; [destruct (rich_accepts w e2) eqn:E2|].
  - exists [e1; e2], (Returned tt). split; [reflexivity|].
    repeat constructor; assumption.
  - exists [e1], (Raised MarkupError). split; [reflexivity|].
    constructor; [assumption|]. now constructor.
  - exists [], (Raised MarkupError). split; [reflexivity|]. now constructor.
Qed.

Lemma printed_prefix w full es r :
  printed w full es r -> exists rest, full = es ++ rest.
Proof.
  induction 1 as [|e full es r He _ (rest & ->)|e full He].
  - now exists [].
  - now exists rest.
  - now exists (e :: full).
Qed.

Lemma printed_ends w full es r :
  printed w full es r ->
  (r = Returned tt /\ es = full) \/ r = Raised MarkupError.
Proof.
  induction 1 as [|e full es r He _ [[-> ->]| ->]|e full He]; auto.
Qed.

Lemma mkdirs_error ds : forall fs e,
  mkdirs fs ds = inl e -> e = FileExistsError \/ e = NotADirectoryError.
Proof.
  induction ds as [|d ds IH]; intros fs e; cbn [mkdirs]; [discriminate|].
  destruct (lookup fs d) as [[|c]|]; [apply IH| |apply IH].
  intros H. inv H. destruct ds; auto.
Qed.

Lemma bind_ret {A B} (a : A) (k : A -> M B) fs : bind (ret a) k fs = k a fs.
Proof. unfold bind, ret. now destruct (k a fs) as [[e r] f]. Qed.

Lemma mkdir_cases w p fs :
  (exists fs1, mkdirs fs (ancestors (resolve w p)) = inr fs1
               /\ mkdir w p fs = ([Mkdir p], Returned tt, fs1))
  \/ (exists e, mkdirs fs (ancestors (resolve w p)) = inl e
                /\ e <> UnicodeDecodeError
                /\ mkdir w p fs = ([], Raised e, fs)).
Proof.
  unfold mkdir.
  destruct (mkdirs fs (ancestors (resolve w p))) as [e|fs1] eqn:Em.
  - right. exists e. repeat split.
    destruct (mkdirs_error _ _ _ Em) as [-> | ->]; discriminate.
  - left. eauto.
Qed.

Lemma write_cases w p t fs :
  (dir_at fs (resolve w p) = false
   /\ write_text w p t fs
      = ([WriteText p t], Returned tt, update fs (resolve w p) (File (Some t))))
  \/ (exists e, e <> UnicodeDecodeError
                /\ write_text w p t fs = ([], Raised e, fs)).
Proof.
  unfold write_text, dir_at.
  destruct (lookup fs (parent (resolve w p))) as [[|c]|].
  - destruct (lookup fs (resolve w p)) as [[|c]|]; [right|left|left]; auto.
    exists IsADirectoryError. split; [discriminate | reflexivity].
  - right. exists NotADirectoryError. split; [discriminate | reflexivity].
  - right. exists FileNotFoundError. split; [discriminate | reflexivity].
Qed.

(** The tail of either body: create the directory, write, print. *)
Lemma write_and_report w always inp d t fs :
  lookup fs (resolve w inp) = Some (File (Some t)) ->
  always || changed t = true ->
  let r0 :=
    (mkdir w (parent d) ;;
     write_text w d (Re.rewrite ua t) ;;
     if negb (text_eqb t (Re.rewrite ua t)) then
       pprint w (PrintUpdated d) ;;
       pprint w (PrintDiff (splitlines t) (splitlines (Re.rewrite ua t))
                   (path_str (resolve w inp)) (path_str (resolve w d)))
     else ret tt) fs in
  file_run w always inp d fs
    (ReadText inp t :: events r0, outcome r0, final r0).
Proof.
  intros Hl Hc. cbv zeta.
  destruct (mkdir_cases w (parent d) fs)
    as [(fs1 & Em & Hm)|(e & Em & He & Hm)].
  - rewrite (bind_returned _ _ _ _ _ _ Hm).
    destruct (write_cases w d (Re.rewrite ua t) fs1)
      as [(Hd & Hw)|(e & He & Hw)].
    + rewrite (bind_returned _ _ _ _ _ _ Hw).
      fold (changed t). destruct (changed t) eqn:Ech.
      * destruct (printed_two w (PrintUpdated d)
                    (PrintDiff (splitlines t)
                       (splitlines (Re.rewrite ua t))
                       (path_str (resolve w inp))
                       (path_str (resolve w d)))
                    (update fs1 (resolve w d)
                       (File (Some (Re.rewrite ua t)))))
          as (es & r & -> & Hp).
        cbn. apply run_written; auto; [now rewrite Ech|].
        unfold notices. now rewrite Ech.
      * cbn. apply (run_written _ _ _ _ _ _ t fs1 [] (Returned tt)); auto;
          [now rewrite Ech|].
        unfold notices. rewrite Ech. constructor.
    + rewrite (bind_raised _ _ _ _ _ _ Hw). cbn.
      now apply (run_no_write _ _ _ _ _ _ t fs1).
  - rewrite (bind_raised _ _ _ _ _ _ Hm). cbn.
    now apply (run_no_directory _ _ _ _ _ _ t e).
Qed.

Lemma read_cases w inp fs :
  (exists t, lookup fs (resolve w inp) = Some (File (Some t))
             /\ read w inp fs = ([ReadText inp t], Returned t, fs))
  \/ (exists e, read w inp fs = ([], Raised e, fs)
                /\ (forall t, lookup fs (resolve w inp) <> Some (File (Some t)))
                /\ (lookup fs (resolve w inp) = Some (File None)
                    <-> e = UnicodeDecodeError)).
Proof.
  unfold read. destruct (lookup fs (resolve w inp)) as [[|[t|]]|].
  - right. exists IsADirectoryError. repeat split; congruence.
  - left. eauto.
  - right. exists UnicodeDecodeError. repeat split; congruence.
  - right. exists FileNotFoundError. repeat split; congruence.
Qed.

(** The body of the loop into another tree. *)
Lemma mirror_file_run w input out r fs :
  file_run w true (joinpath input (rel r)) (joinpath out (rel r)) fs
    (mirror_file w input out (joinpath input (rel r)) fs).
Proof.
  unfold Cli.mirror_file. rewrite relative_to_join.
  destruct (read_cases w (joinpath input (rel r)) fs)
    as [(t & Hl & Hr)|(e & Hr & Hn & Hu)].
  - rewrite (bind_returned _ _ _ _ _ _ Hr). cbv beta zeta. cbn [app].
    rewrite bind_ret.
    now apply (write_and_report w true _ _ t fs Hl).
  - rewrite (bind_raised _ _ _ _ _ _ Hr). now constructor.
Qed.

(** The body of the loop in place. *)
Lemma inplace_file_run w input r fs :
  file_run w false (joinpath input (rel r)) (joinpath input (rel r)) fs
    (inplace_file w input input (joinpath input (rel r)) fs).
Proof.
  unfold Cli.inplace_file. rewrite relative_to_join.
  destruct (read_cases w (joinpath input (rel r)) fs)
    as [(t & Hl & Hr)|(e & Hr & Hn & Hu)].
  - rewrite (bind_returned _ _ _ _ _ _ Hr). cbv beta zeta. cbn [app].
    destruct (negb (text_eqb t (Re.rewrite ua t))) eqn:Ech.
    + rewrite bind_ret.
      pose proof (write_and_report w false _ (joinpath input (rel r)) t fs Hl)
        as H.
      unfold DriverSpec.changed in H. rewrite Ech in H. now apply H.
    + cbn. apply run_same; auto.
  - rewrite (bind_raised _ _ _ _ _ _ Hr). now constructor.
Qed.

(** *** What a run shows of its file tasks *)

Lemma observations_app a b :
  observations (a ++ b) = observations a ++ observations b.
Proof. apply flat_map_app. Qed.

Lemma reads_app a b : reads (a ++ b) = reads a ++ reads b.
Proof. apply flat_map_app. Qed.

Lemma written_app a b : written (a ++ b) = written a ++ written b.
Proof. apply flat_map_app. Qed.

Lemma noticed_app a b : noticed (a ++ b) = noticed a ++ noticed b.
Proof. apply flat_map_app. Qed.

Lemma diffs_app a b : diffs (a ++ b) = diffs a ++ diffs b.
Proof. apply filter_app. Qed.

Lemma reads_notices w inp d t : reads (notices w inp d t) = [].
Proof. unfold DriverSpec.notices. now destruct (changed t). Qed.

Lemma printed_reads w full es r :
  printed w full es r -> reads full = [] -> reads es = [].
Proof.
  intros H Hf. destruct (printed_prefix _ _ _ _ H) as (rest & ->).
  rewrite reads_app in Hf. now apply app_eq_nil in Hf.
Qed.

(** The rule for a task that is written: the text, then the notices. *)
Lemma driver_rule_written always inp d t :
  path_eqb d inp = negb always -> always || changed t = true ->
  forall w,
    driver_rule (inp, d, t)
    = Wrote d (Re.rewrite ua t) :: observations (notices w inp d t).
Proof.
  intros Hp Hc w. unfold DriverSpec.driver_rule, DriverSpec.notices.
  fold (changed t). rewrite Hp.
  destruct always; cbn [negb orb] in *.
  - now destruct (changed t).
  - now rewrite Hc.
Qed.

Lemma file_run_shown w always inp d fs R :
  file_run w always inp d fs R -> path_eqb d inp = negb always ->
  file_shown observe (fun s => driver_rule (fst s, d, snd s)) inp R.
Proof.
  intros H Hp. unfold file_shown. cbn [fst snd flat_map observe app].
  change (flat_map observe) with observations.
  destruct H as [e Hn Hu|t Hl Ha Hc|t e Hl Hc Hm He|t fs1 e Hl Hc Hm He
                 |t fs1 es r Hl Hc Hm Hd Hpr].
  - left. cbn. eauto.
  - right. exists t, []. subst always. cbn [negb] in Hp.
    assert (E : driver_rule (inp, d, t) = []).
    { unfold DriverSpec.driver_rule. fold (changed t). now rewrite Hp, Hc. }
    rewrite E. cbn. repeat split; eauto.
  - right. exists t, []. cbn. repeat split; eauto.
  - right. exists t, [Mkdir (parent d)]. cbn. repeat split; eauto.
  - right. exists t, (Mkdir (parent d) :: WriteText d (Re.rewrite ua t) :: es).
    rewrite (driver_rule_written always inp d t Hp Hc w).
    destruct (printed_prefix _ _ _ _ Hpr) as (rest & Hrest).
    cbn [events outcome fst snd]. split; [reflexivity|]. split.
    { cbn. apply (printed_reads _ _ _ _ Hpr). apply reads_notices. }
    split.
    { exists (observations rest). rewrite Hrest, observations_app.
      reflexivity. }
    destruct (printed_ends _ _ _ _ Hpr) as [[-> ->]| ->]; [left|right; eauto].
    split; reflexivity.
Qed.

(** One task shown, in full if the run returned. *)
Lemma shown_one {X} (see : event -> list X) rule p t es (r : result unit) :
  reads es = [] ->
  (exists rest, rule (p, t) = flat_map see (ReadText p t :: es) ++ rest) ->
  (r = Returned tt -> flat_map see (ReadText p t :: es) = rule (p, t)) ->
  exists c, shown see rule (ReadText p t :: es) c
            /\ (r = Returned tt -> c = true).
Proof.
  intros Hr Hpre Hfull. destruct r as [[]|e|].
  - exists true. split; [|reflexivity].
    rewrite <- (app_nil_r es). apply shown_task; auto. constructor.
  - exists false. split; [now apply shown_cut | discriminate].
  - exists false. split; [now apply shown_cut | discriminate].
Qed.

(** The loop over the tree shows one task per file read. *)
Lemma loop_shown {X} (see : event -> list X) rule w input body :
  (forall r fs,
      file_shown see rule (joinpath input (rel r))
        (body (joinpath input (rel r)) fs)) ->
  forall fuel seen fs,
    exists c,
      shown see rule (events (for_rglob fuel w input seen body fs)) c
      /\ (outcome (for_rglob fuel w input seen body fs) = Returned tt
          -> c = true).
Proof.
  intros Hbody. induction fuel as [|fuel IH]; intros seen fs.
  - exists true. split; [constructor | reflexivity].
  - cbn [for_rglob].
    destruct (rglob_py w input (shape (resolve w input) fs) seen) as [r|].
    + destruct (Hbody r fs)
        as [[He (e & Ho)]|(t & es & He & Hr & Hpre & Hend)].
      * rewrite (bind_raised _ _ _ _ _ _ (run_is _ _ _ He Ho)).
        exists true. split; [constructor | discriminate].
      * destruct Hend as [[Ho Hfull]|(e & Ho)].
        -- rewrite (bind_returned _ _ _ _ _ _ (run_is _ _ _ He Ho)).
           destruct (IH (seen ++ [r]) (final (body (joinpath input (rel r)) fs)))
             as (c & Hs & Hc).
           exists c. cbn [events outcome fst snd app]. split; [|exact Hc].
           now apply shown_task.
        -- rewrite (bind_raised _ _ _ _ _ _ (run_is _ _ _ He Ho)).
           exists false. cbn [events outcome fst snd].
           split; [|discriminate].
           now apply shown_cut.
    + exists true. split; [constructor | reflexivity].
Qed.

(** What [shown] says of what is seen. *)
Lemma shown_spec {X} (see : event -> list X) rule evs c :
  shown see rule evs c ->
  (exists rest, flat_map rule (reads evs) = flat_map see evs ++ rest)
  /\ (exists p, flat_map see evs
                = flat_map rule (removelast (reads evs)) ++ p)
  /\ (c = true -> flat_map see evs = flat_map rule (reads evs)).
Proof.
  induction 1 as [|e evs c Ho Hr _ (IH1 & IH2 & IH3)
                  |p t es evs c Hr Ho _ (IH1 & IH2 & IH3)
                  |p t es Hr (rest & Hrest)].
  - repeat split; [now exists [] | now exists [] ].
  - assert (E1 : reads (e :: evs) = reads evs).
    { change (e :: evs) with ([e] ++ evs). now rewrite reads_app, Hr. }
    assert (E2 : flat_map see (e :: evs) = flat_map see evs).
    { cbn [flat_map]. now rewrite Ho. }
    rewrite E1, E2. auto.
  - assert (E1 : reads (ReadText p t :: es ++ evs) = (p, t) :: reads evs).
    { change (ReadText p t :: es ++ evs) with ([ReadText p t] ++ es ++ evs).
      now rewrite !reads_app, Hr. }
    assert (E2 : flat_map see (ReadText p t :: es ++ evs)
                 = rule (p, t) ++ flat_map see evs).
    { change (ReadText p t :: es ++ evs) with ((ReadText p t :: es) ++ evs).
      now rewrite flat_map_app, Ho. }
    rewrite E1, E2. cbn [flat_map]. split; [|split].
    + destruct IH1 as (rest & ->). exists rest. now rewrite app_assoc.
    + destruct (reads evs) as [|s l] eqn:El.
      * cbn. eauto.
      * change (removelast ((p, t) :: s :: l))
          with ((p, t) :: removelast (s :: l)).
        cbn [flat_map]. destruct IH2 as (q & ->). exists q.
        now rewrite app_assoc.
    + intros Hc. now rewrite (IH3 Hc).
  - assert (E1 : reads (ReadText p t :: es) = [(p, t)]).
    { change (ReadText p t :: es) with ([ReadText p t] ++ es).
      now rewrite reads_app, Hr. }
    rewrite E1. cbn [flat_map removelast app] in *. rewrite app_nil_r.
    split; [eauto|]. split; [eauto | discriminate].
Qed.

(** The single file *)

Lemma bind_is_dir {B} w p (k : bool -> M B) fs :
  bind (is_dir w p) k fs = k (dir_at fs (resolve w p)) fs.
Proof.
  unfold bind, is_dir. now destruct (k _ fs) as [[e r] f].
Qed.

(** Where the single file goes (lines 188-194): the destination, with the
    directory created for it, or the exception of [mkdir]. *)
Lemma single_dest_run w input out fs :
  let dest :=
    if dir_at fs (resolve w out) then join_name out (name input)
    else if String.eqb (suffix out) ".py" then out
    else join_name out (name input) in
  let m :=
    (output_is_dir <- is_dir w out ;;
     if output_is_dir then ret (join_name out (name input))
     else if String.eqb (suffix out) ".py" then
       mkdir w (parent out) ;; ret out
     else
       let output := join_name out (name input) in
       mkdir w (parent output) ;; ret output) in
  (exists mk fs1,
      m fs = (mk, Returned dest, fs1)
      /\ (mk = [] /\ fs1 = fs /\ dir_at fs (resolve w out) = true
          \/ mk = [Mkdir (parent dest)]
             /\ dir_at fs (resolve w out) = false
             /\ mkdirs fs (ancestors (resolve w (parent dest))) = inr fs1))
  \/ (exists e,
         m fs = ([], Raised e, fs)
         /\ dir_at fs (resolve w out) = false
         /\ mkdirs fs (ancestors (resolve w (parent dest))) = inl e).
Proof.
  cbv zeta. rewrite bind_is_dir.
  destruct (dir_at fs (resolve w out)) eqn:Ed.
  - left. exists [], fs. split; [reflexivity|]. left. auto.
  - destruct (String.eqb (suffix out) ".py").
    + destruct (mkdir_cases w (parent out) fs)
        as [(fs1 & Em & Hm)|(e & Em & He & Hm)].
      * left. exists [Mkdir (parent out)], fs1.
        rewrite (bind_returned _ _ _ _ _ _ Hm). split; [reflexivity|].
        right. auto.
      * right. exists e. rewrite (bind_raised _ _ _ _ _ _ Hm). auto.
    + destruct (mkdir_cases w (parent (join_name out (name input))) fs)
        as [(fs1 & Em & Hm)|(e & Em & He & Hm)].
      * left. exists [Mkdir (parent (join_name out (name input)))], fs1.
        rewrite (bind_returned _ _ _ _ _ _ Hm). split; [reflexivity|].
        right. auto.
      * right. exists e. rewrite (bind_raised _ _ _ _ _ _ Hm). auto.
Qed.

(** The single file, once its destination is known (lines 196-228). *)
Lemma single_file_shown w input dest fs :
  let R :=
    (content <- read w input ;;
     let new_content := Re.rewrite ua content in
     if path_eqb dest input then
       if negb (text_eqb content new_content) then
         write_text w dest new_content ;;
         pprint w (PrintUpdated dest) ;;
         pprint w (PrintDiff (splitlines content) (splitlines new_content)
                     (path_str (resolve w input))
                     (path_str (resolve w dest)))
       else ret tt
     else
       write_text w dest new_content ;;
       if negb (text_eqb content new_content) then
         pprint w (PrintUpdated dest) ;;
         pprint w (PrintDiff (chars content) (chars new_content)
                     (path_str input) (path_str dest))
       else ret tt) fs in
  exists c,
    shown observe (fun s => driver_rule (fst s, dest, snd s)) (events R) c
    /\ (outcome R = Returned tt -> c = true).
Proof.
  cbv zeta.
  destruct (read_cases w input fs) as [(t & Hl & Hr)|(e & Hr & Hn & Hu)].
  2:{ rewrite (bind_raised _ _ _ _ _ _ Hr). exists true.
      split; [constructor | discriminate]. }
  rewrite (bind_returned _ _ _ _ _ _ Hr). cbv beta.
  cbn [events outcome fst snd app].
  apply shown_one; cbn [fst snd flat_map observe app];
    change (flat_map observe) with observations;
    unfold DriverSpec.driver_rule.
  - (* no further read *)
    destruct (path_eqb dest input);
      destruct (negb (text_eqb t (Re.rewrite ua t))); try reflexivity;
      destruct (write_cases w dest (Re.rewrite ua t) fs)
        as [(Hd & Hw)|(e & He & Hw)];
      rewrite ?(bind_returned _ _ _ _ _ _ Hw), ?(bind_raised _ _ _ _ _ _ Hw);
      try reflexivity;
      match goal with
      | |- context [(pprint w ?e1 ;; pprint w ?e2) ?f] =>
          destruct (printed_two w e1 e2 f) as (es & r & -> & Hp);
          cbn; apply (printed_reads _ _ _ _ Hp); reflexivity
      end.
  - destruct (path_eqb dest input);
      destruct (negb (text_eqb t (Re.rewrite ua t)));
      try (now exists []);
      destruct (write_cases w dest (Re.rewrite ua t) fs)
        as [(Hd & Hw)|(e & He & Hw)];
      rewrite ?(bind_returned _ _ _ _ _ _ Hw), ?(bind_raised _ _ _ _ _ _ Hw);
      try (cbn; now eauto);
      match goal with
      | |- context [(pprint w ?e1 ;; pprint w ?e2) ?f] =>
          destruct (printed_two w e1 e2 f) as (es & r & -> & Hp);
          destruct (printed_prefix _ _ _ _ Hp) as (rest & Hrest);
          exists (observations rest); cbn [events fst app];
          change (observations (WriteText dest (Re.rewrite ua t) :: es))
            with (Wrote dest (Re.rewrite ua t) :: observations es);
          cbn [app]; f_equal;
          change [Noticed dest; Diffed] with (observations [e1; e2]);
          now rewrite Hrest, observations_app
      end.
  - destruct (path_eqb dest input);
      destruct (negb (text_eqb t (Re.rewrite ua t)));
      try reflexivity;
      destruct (write_cases w dest (Re.rewrite ua t) fs)
        as [(Hd & Hw)|(e & He & Hw)];
      rewrite ?(bind_returned _ _ _ _ _ _ Hw), ?(bind_raised _ _ _ _ _ _ Hw);
      try (cbn; discriminate); try reflexivity;
      match goal with
      | |- context [(pprint w ?e1 ;; pprint w ?e2) ?f] =>
          destruct (printed_two w e1 e2 f) as (es & r & -> & Hp);
          cbn [events outcome fst snd app];
          destruct (printed_ends _ _ _ _ Hp) as [[-> ->]| ->];
          [reflexivity | discriminate]
      end.
Qed.

Lemma flat_map_map {A B C} (f : A -> B) (g : B -> list C) l :
  flat_map g (map f l) = flat_map (fun x => g (f x)) l.
Proof. induction l as [|x l IH]; cbn; [reflexivity | now rewrite IH]. Qed.

Lemma removelast_map {A B} (f : A -> B) l :
  removelast (map f l) = map f (removelast l).
Proof.
  induction l as [|x l IH]; [reflexivity|].
  destruct l as [|y l]; [reflexivity|].
  change (map f (x :: y :: l)) with (f x :: map f (y :: l)).
  change (removelast (x :: y :: l)) with (x :: removelast (y :: l)).
  cbn [map]. rewrite <- IH. reflexivity.
Qed.

(** What [shown] says of the tasks of the files read. *)
Lemma shown_tasks (f : Path * text -> Path * Path * text) evs
    (o : result unit) :
  (exists c, shown observe (fun s => driver_rule (f s)) evs c
             /\ (o = Returned tt -> c = true)) ->
  let tasks := map f (reads evs) in
  (exists rest, flat_map driver_rule tasks = observations evs ++ rest)
  /\ (exists cut, observations evs
                  = flat_map driver_rule (removelast tasks) ++ cut)
  /\ (o = Returned tt -> observations evs = flat_map driver_rule tasks).
Proof.
  intros (c & Hs & Hc). cbv zeta. rewrite removelast_map, !flat_map_map.
  destruct (shown_spec _ _ _ _ Hs) as (H1 & H2 & H3). auto.
Qed.

Lemma shown_ext {X} (see : event -> list X) rule rule' evs c :
  (forall s, rule s = rule' s) ->
  shown see rule evs c -> shown see rule' evs c.
Proof.
  intros He. induction 1 as [|e evs c Ho Hr _ IH|p t es evs c Hr Ho _ IH
                             |p t es Hr Hrest].
  - constructor.
  - now apply shown_skip.
  - apply shown_task; auto. now rewrite <- He.
  - apply shown_cut; auto. now rewrite <- He.
Qed.

Lemma file_shown_ext {X} (see : event -> list X) rule rule' inp R :
  (forall t, rule (inp, t) = rule' (inp, t)) ->
  file_shown see rule inp R -> file_shown see rule' inp R.
Proof.
  intros He [H|(t & es & H1 & H2 & H3 & H4)]; [now left|right].
  exists t, es. rewrite <- He. auto.
Qed.


(** *** A run that leaves the names of its tree alone *)

Lemma migrate_dir fuel w mig input output inplace out :
  effective_output (resolve w input) output inplace = Some out ->
  dir_at (files w) (resolve w (resolve w input)) = true ->
  migrate fuel w mig input output inplace
  = for_rglob fuel w (resolve w input) []
      (loop_body w (resolve w input) out) (files w).
Proof.
  intros Ho Hd. unfold Cli.migrate, Cli.migrate_from, DriverSpec.loop_body.
  unfold effective_output in Ho.
  destruct output as [o|]; [|destruct inplace; [|discriminate]];
    inv Ho; cbn [negb]; rewrite bind_ret, bind_is_dir, Hd; cbn [negb];
    now destruct (path_eqb _ _).
Qed.

Lemma loop_body_run w input out r fs :
  file_run w (negb (path_eqb out input))
    (joinpath input (rel r)) (joinpath out (rel r)) fs
    (loop_body w input out (joinpath input (rel r)) fs).
Proof.
  unfold DriverSpec.loop_body. destruct (path_eqb out input) eqn:E; cbn [negb].
  - apply path_eqb_eq in E. subst out. apply inplace_file_run.
  - apply mirror_file_run.
Qed.

Lemma same_tree_refl root fs : same_tree root fs fs.
Proof. split; auto. Qed.

Lemma shape_below root fs fs' :
  below root fs' = below root fs -> shape root fs' = shape root fs.
Proof. unfold shape. now intros ->. Qed.

Lemma dirs_exist_mono fs0 fs c :
  (forall d, dir_at fs0 d = true -> dir_at fs d = true) ->
  dirs_exist fs0 c = true -> dirs_exist fs c = true.
Proof.
  unfold dirs_exist. intros Hm H. rewrite forallb_forall in *.
  intros d Hd. apply Hm. now apply H.
Qed.

Lemma file_run_same_tree w always inp d fs0 fs R root :
  file_run w always inp d fs R ->
  (always = true ->
   path_prefixb root (resolve w d) = false
   /\ path_prefixb root (resolve w (parent d)) = false) ->
  (always = false ->
   d = inp /\ dirs_exist fs0 (resolve w (parent inp)) = true) ->
  same_tree root fs0 fs -> same_tree root fs0 (final R).
Proof.
  intros H Hout Hin [Hs Hd].
  assert (Hmk : forall fs1,
    mkdirs fs (ancestors (resolve w (parent d))) = inr fs1 ->
    same_tree root fs0 fs1
    /\ (always = false -> fs1 = fs)).
  { intros fs1 Hm. destruct always.
    - destruct (Hout eq_refl) as [_ Hp]. split; [|discriminate]. split.
      + rewrite <- Hs. apply shape_below.
        apply (mkdirs_below _ _ _ _
                 (fun a Ha => ancestors_outside _ _ _ Hp Ha) Hm).
      + intros a Ha. apply (mkdirs_dir_at _ _ _ _ Hm). now apply Hd.
    - destruct (Hin eq_refl) as [-> He].
      rewrite (mkdirs_exist _ _ (dirs_exist_mono _ _ _ Hd He)) in Hm.
      inv Hm. split; [split|]; auto. }
  destruct H as [e Hn Hu|t Hl Ha Hc|t e Hl Hc Hm He|t fs1 e Hl Hc Hm He
                 |t fs1 es r Hl Hc Hm Hdd Hpr]; cbn [final snd];
    try (split; assumption).
  - now apply Hmk.
  - destruct (Hmk _ Hm) as [[Hs1 Hd1] Hfs1]. split.
    + rewrite <- Hs1. destruct always.
      * apply shape_below, below_update_outside. now apply Hout.
      * destruct (Hin eq_refl) as [-> _]. rewrite (Hfs1 eq_refl) in *.
        now apply (shape_update_kind _ _ _ (File (Some t))).
    + intros a Ha. apply dir_at_update; auto.
Qed.

(** A run over files whose destinations [keeps_tree] allows keeps the
    names of its tree. *)
Lemma loop_body_same_tree w input out rs r fs :
  keeps_tree w input out rs = true -> In r rs ->
  same_tree (resolve w input) (files w) fs ->
  same_tree (resolve w input) (files w)
    (final (loop_body w input out (joinpath input (rel r)) fs)).
Proof.
  intros Hk Hr Hs. unfold keeps_tree in Hk.
  pose proof (loop_body_run w input out r fs) as Hrun.
  destruct (path_eqb out input) eqn:E; cbn [negb] in Hrun;
    rewrite forallb_forall in Hk; specialize (Hk r Hr).
  - apply path_eqb_eq in E. subst out.
    apply (file_run_same_tree _ _ _ _ _ _ _ _ Hrun); auto; discriminate.
  - unfold outside in Hk. apply andb_true_iff in Hk as [H1 H2].
    apply negb_true_iff in H1, H2.
    apply (file_run_same_tree _ _ _ _ _ _ _ _ Hrun); auto; discriminate.
Qed.

(** Such a run is the run over the walk taken at once. *)
Lemma dir_run_static fuel w mig input output inplace out rs :
  effective_output (resolve w input) output inplace = Some out ->
  dir_at (files w) (resolve w (resolve w input)) = true ->
  rglob fuel w (resolve w input) = Some rs ->
  keeps_tree w (resolve w input) out rs = true ->
  migrate fuel w mig input output inplace
  = for_each (map (fun r => joinpath (resolve w input) (rel r)) rs)
      (loop_body w (resolve w input) out) (files w).
Proof.
  intros Ho Hd Hl Hk. rewrite (migrate_dir _ _ _ _ _ _ _ Ho Hd).
  apply (static_walk (same_tree (resolve w (resolve w input)) (files w))
           _ _ _ (shape (resolve w (resolve w input)) (files w))).
  - now intros fs [Hs _].
  - intros r Hr fs Hfs. now apply (loop_body_same_tree _ _ _ rs).
  - exact Hl.
  - apply same_tree_refl.
Qed.

(** The run in the world where only [rs] is found. *)
Lemma found_run fuel w mig input output inplace out rs :
  effective_output (resolve w input) output inplace = Some out ->
  dir_at (files w) (resolve w (resolve w input)) = true ->
  (List.length rs < fuel)%nat ->
  migrate fuel (with_found w rs) mig input output inplace
  = for_each (map (fun r => joinpath (resolve w input) (rel r)) rs)
      (loop_body w (resolve w input) out) (files w).
Proof.
  intros Ho Hd Hf.
  rewrite (migrate_dir _ (with_found w rs) _ _ _ _ out); [|exact Ho|exact Hd].
  cbn [with_found resolve files].
  exact (found_walk w (resolve w input)
           (loop_body w (resolve w input) out) fuel rs [] (files w) Hf).
Qed.

(** A file that does not decode stays as it is. *)
Lemma file_run_undecoded w always inp d fs R c :
  file_run w always inp d fs R ->
  (always = true -> path_eqb (resolve w d) c = false) ->
  (always = false -> d = inp) ->
  lookup fs c = Some (File None) -> lookup (final R) c = Some (File None).
Proof.
  intros H Ha Hi Hc.
  destruct H as [e Hn Hu|t Hl Haa Hch|t e Hl Hch Hm He|t fs1 e Hl Hch Hm He
                 |t fs1 es r Hl Hch Hm Hdd Hpr]; cbn [final snd]; auto.
  - apply (mkdirs_keeps _ _ _ _ _ Hm Hc).
  - rewrite lookup_update_other; [apply (mkdirs_keeps _ _ _ _ _ Hm Hc)|].
    destruct always; [now apply Ha|].
    rewrite (Hi eq_refl). apply path_eqb_neq. intros <-. congruence.
Qed.

Lemma outside_not_below w input d c :
  outside w input d = true -> path_prefixb (resolve w input) c = true ->
  path_eqb (resolve w d) c = false.
Proof.
  unfold outside. intros H Hc. apply andb_true_iff in H as [H _].
  apply negb_true_iff in H. apply path_eqb_neq. intros E. congruence.
Qed.

(** *** The first file that cannot be read *)

(** C4, as the code has it: in a directory run that leaves the names of its
    tree alone, the first file that does not decode ends the run with
    [UnicodeDecodeError]; the run is the run over the files found before it,
    which returned: that file and the files after it are not taken up, and
    nothing is collected or reported at the end. *)
Theorem first_unreadable_file_aborts
    fuel w mig input output inplace out pre bad post :
  effective_output (resolve w input) output inplace = Some out ->
  dir_at (files w) (resolve w (resolve w input)) = true ->
  rglob fuel w (resolve w input) = Some (pre ++ bad :: post) ->
  keeps_tree w (resolve w input) out (pre ++ bad :: post) = true ->
  lookup (below (resolve w (resolve w input)) (files w))
    (resolve w (joinpath (resolve w input) (rel bad)))
  = Some (File None) ->
  outcome (migrate fuel (with_found w pre) mig input output inplace)
  = Returned tt ->
  migrate fuel w mig input output inplace
  = (events (migrate fuel (with_found w pre) mig input output inplace),
     Raised UnicodeDecodeError,
     final (migrate fuel (with_found w pre) mig input output inplace)).
Proof.
  intros Ho Hd Hl Hk Hbad Hpre.
  apply lookup_below_some in Hbad as [Hbelow Hbad].
  assert (Hfuel : (List.length pre < fuel)%nat).
  { pose proof (listing_fuel _ _ _ _ Hl) as H.
    rewrite length_app in H. lia. }
  rewrite (found_run _ _ _ _ _ _ _ _ Ho Hd Hfuel) in Hpre |- *.
  rewrite (dir_run_static _ _ _ _ _ _ _ _ Ho Hd Hl Hk).
  set (input' := resolve w input) in *.
  rewrite map_app, for_each_app. cbn [map].
  set (body := loop_body w input' out) in *.
  set (sources := map (fun r => joinpath input' (rel r)) pre) in *.
  rewrite (bind_returned _ _ _ _ _ _ (run_is _ _ _ eq_refl Hpre)).
  assert (Hk' : forall r, In r pre -> forall fs,
             lookup fs (resolve w (joinpath input' (rel bad)))
             = Some (File None) ->
             lookup (final (body (joinpath input' (rel r)) fs))
               (resolve w (joinpath input' (rel bad)))
             = Some (File None)).
  { intros r Hr fs Hfs.
    apply (file_run_undecoded _ _ _ _ _ _ _
             (loop_body_run w input' out r fs)); auto.
    - intros Ha. apply negb_true_iff in Ha.
      unfold keeps_tree in Hk. rewrite Ha in Hk.
      rewrite forallb_forall in Hk.
      apply (outside_not_below w input'); auto.
      apply Hk. apply in_or_app. now left.
    - intros Ha. apply negb_false_iff, path_eqb_eq in Ha. now subst out. }
  assert (Hstill : lookup (final (for_each sources body (files w)))
                     (resolve w (joinpath input' (rel bad)))
                   = Some (File None)).
  { apply (for_each_keeps
             (fun fs => lookup fs (resolve w (joinpath input' (rel bad)))
                        = Some (File None))); [|exact Hbad].
    intros x Hx fs Hfs. unfold sources in Hx.
    apply in_map_iff in Hx as (r & <- & Hr). now apply Hk'. }
  cbn [for_each].
  pose proof (loop_body_run w input' out bad
                (final (for_each sources body (files w)))) as Hrun.
  fold body in Hrun.
  remember (body (joinpath input' (rel bad))
              (final (for_each sources body (files w)))) as R eqn:ER.
  destruct Hrun as [e Hn Hu|t Hlk|t e Hlk|t fs1 e Hlk|t fs1 es r Hlk];
    try congruence.
  apply Hu in Hstill. subst e.
  rewrite (bind_raised _ _ _ _ _ _ (eq_sym ER)).
  cbn [events outcome final fst snd]. now rewrite app_nil_r.
Qed.

(** *** The diffs of a directory run *)

Lemma diffs_see evs : diffs evs = flat_map see_diff evs.
Proof.
  induction evs as [|e evs IH]; [reflexivity|].
  cbn [diffs filter flat_map]. fold (diffs evs). rewrite IH.
  now destruct e.
Qed.

Lemma file_run_diffs w always inp d fs R :
  file_run w always inp d fs R ->
  file_shown see_diff
    (fun s => flat_map see_diff (notices w (fst s) d (snd s))) inp R.
Proof.
  intros H. unfold file_shown. cbn [fst snd flat_map see_diff app].
  destruct H as [e Hn Hu|t Hl Ha Hc|t e Hl Hc Hm He|t fs1 e Hl Hc Hm He
                 |t fs1 es r Hl Hc Hm Hd Hpr].
  - left. cbn. eauto.
  - right. exists t, []. unfold DriverSpec.notices. rewrite Hc. cbn.
    repeat split; eauto.
  - right. exists t, []. cbn. repeat split; eauto.
  - right. exists t, [Mkdir (parent d)]. cbn. repeat split; eauto.
  - right. exists t, (Mkdir (parent d) :: WriteText d (Re.rewrite ua t) :: es).
    destruct (printed_prefix _ _ _ _ Hpr) as (rest & Hrest).
    cbn [events outcome fst snd flat_map see_diff app].
    split; [reflexivity|]. split.
    { cbn. apply (printed_reads _ _ _ _ Hpr). apply reads_notices. }
    split.
    { exists (flat_map see_diff rest). now rewrite Hrest, flat_map_app. }
    destruct (printed_ends _ _ _ _ Hpr) as [[-> ->]| ->]; [left|right; eauto].
    split; reflexivity.
Qed.

(** In a directory run every diff printed is the line-by-line diff of a
    file read, labelled with the resolved paths of the file and of its
    destination, in the order the files are read: one for each changed file
    but, where an exception ended the run, the last; a run that returned has
    printed one for each changed file it read. *)
Theorem tree_diffs_are_by_line_and_resolved fuel w mig input out inplace :
  dir_at (files w) (resolve w (resolve w input)) = true ->
  (exists rest,
      flat_map (tree_diff w (resolve w input) out)
        (reads (events (migrate fuel w mig input (Some out) inplace)))
      = diffs (events (migrate fuel w mig input (Some out) inplace)) ++ rest)
  /\ (exists cut,
         diffs (events (migrate fuel w mig input (Some out) inplace))
         = flat_map (tree_diff w (resolve w input) out)
             (removelast
                (reads (events (migrate fuel w mig input (Some out) inplace))))
           ++ cut)
  /\ (outcome (migrate fuel w mig input (Some out) inplace) = Returned tt ->
      diffs (events (migrate fuel w mig input (Some out) inplace))
      = flat_map (tree_diff w (resolve w input) out)
          (reads (events (migrate fuel w mig input (Some out) inplace)))).
Proof.
  intros Hd. rewrite (migrate_dir _ _ _ _ (Some out) _ out eq_refl Hd).
  rewrite !diffs_see.
  destruct (loop_shown see_diff (tree_diff w (resolve w input) out) w
              (resolve w input) (loop_body w (resolve w input) out))
    with (fuel := fuel) (seen := @nil (list string)) (fs := files w)
    as (c & Hs & Hc).
  { intros r fs.
    pose proof (file_run_diffs _ _ _ _ _ _ (loop_body_run w (resolve w input) out r fs))
      as H.
    revert H. apply file_shown_ext. intros t.
    unfold DriverSpec.tree_diff, DriverSpec.notices, dest_of.
    cbn [fst snd]. rewrite Hd, relative_to_join.
    now destruct (changed t). }
  destruct (shown_spec _ _ _ _ Hs) as (H1 & H2 & H3). auto.
Qed.

(** *** Where a run into another tree writes *)

Lemma joinpath_rel_inj_r o r1 r2 :
  joinpath o (rel r1) = joinpath o (rel r2) -> r1 = r2.
Proof.
  unfold joinpath. cbn. intros H. inv H. eapply app_inv_head; eassumption.
Qed.

Lemma NoDup_joinpath o rs :
  NoDup rs -> NoDup (map (fun r => joinpath o (rel r)) rs).
Proof.
  intros Hnd. induction Hnd as [|r rs Hin Hnd IH]; [constructor|].
  cbn [map]. constructor; [|exact IH].
  intros H. apply in_map_iff in H as (r' & E & Hr').
  apply joinpath_rel_inj_r in E. congruence.
Qed.

Lemma NoDup_firstn {A} k (l : list A) : NoDup l -> NoDup (firstn k l).
Proof.
  intros H. rewrite <- (firstn_skipn k l) in H.
  now apply NoDup_app_remove_r in H.
Qed.

(** Where neither tree lies in the other, nothing below the output lies
    in the input tree. *)
Lemma trees_apart o i r :
  path_prefixb o i = false -> path_prefixb i o = false ->
  path_prefixb i (joinpath o (rel r)) = false.
Proof.
  intros H1 H2.
  destruct (path_prefixb i (joinpath o (rel r))) eqn:E; [exfalso|reflexivity].
  apply path_prefixb_spec in E as [Ha (x & Hx)].
  unfold joinpath in *. cbn in *.
  apply app_eq_app in Hx as (l & [[Hl _]|[Hl _]]).
  - assert (path_prefixb i o = true); [|congruence].
    apply path_prefixb_spec. split; [congruence | eauto].
  - assert (path_prefixb o i = true); [|congruence].
    apply path_prefixb_spec. split; [congruence | eauto].
Qed.

(** The files read and the files written by the loop into another tree:
    the locations taken up, and the places that mirror them. *)
Lemma mirror_loop_paths w input out fuel : forall seen fs,
  exists rs k,
    map fst (reads (events (for_rglob fuel w input seen
                              (mirror_file w input out) fs)))
    = map (fun r => joinpath input (rel r)) rs
    /\ written (events (for_rglob fuel w input seen
                          (mirror_file w input out) fs))
       = map (fun r => joinpath out (rel r)) (firstn k rs).
Proof.
  induction fuel as [|fuel IH]; intros seen fs.
  - exists [], 0%nat. split; reflexivity.
  - cbn [for_rglob].
    destruct (rglob_py w input (shape (resolve w input) fs) seen) as [r|].
    2:{ exists [], 0%nat. split; reflexivity. }
    pose proof (mirror_file_run w input out r fs) as Hrun.
    remember (mirror_file w input out (joinpath input (rel r)) fs) as R eqn:ER.
    destruct (IH (seen ++ [r]) (final R)) as (rs & k & IH1 & IH2).
    destruct Hrun as [e Hn Hu|t Hl Ha Hc|t e Hl Hc Hm He|t fs1 e Hl Hc Hm He
                      |t fs1 es o Hl Hc Hm Hd Hpr]; try discriminate.
    + rewrite (bind_raised _ _ _ _ _ _ (eq_sym ER)).
      exists [], 0%nat. split; reflexivity.
    + rewrite (bind_raised _ _ _ _ _ _ (eq_sym ER)).
      exists [r], 0%nat. split; reflexivity.
    + rewrite (bind_raised _ _ _ _ _ _ (eq_sym ER)).
      exists [r], 0%nat. split; reflexivity.
    + assert (Hes : reads es = [] /\ written es = []).
      { destruct (printed_prefix _ _ _ _ Hpr) as (rest & Hrest).
        unfold DriverSpec.notices in Hrest.
        destruct (changed t); destruct es as [|e1 [|e2 es]];
          inv Hrest; auto.
        destruct es; [auto | discriminate]. }
      destruct Hes as [Hes1 Hes2].
      destruct (printed_ends _ _ _ _ Hpr) as [[-> ->]| ->].
      * rewrite (bind_returned _ _ _ _ _ _ (eq_sym ER)).
        cbn [final snd] in IH1, IH2.
        exists (r :: rs), (S k). cbn [events fst].
        change (ReadText (joinpath input (rel r)) t
                  :: Mkdir (parent (joinpath out (rel r)))
                  :: WriteText (joinpath out (rel r)) (Re.rewrite ua t)
                  :: notices w (joinpath input (rel r))
                       (joinpath out (rel r)) t)
          with ([ReadText (joinpath input (rel r)) t;
                 Mkdir (parent (joinpath out (rel r)));
                 WriteText (joinpath out (rel r)) (Re.rewrite ua t)]
                  ++ notices w (joinpath input (rel r))
                       (joinpath out (rel r)) t).
        rewrite !reads_app, !written_app, Hes1, Hes2, !map_app, IH1, IH2.
        split; reflexivity.
      * rewrite (bind_raised _ _ _ _ _ _ (eq_sym ER)).
        exists [r], 1%nat. cbn [events fst].
        change (ReadText (joinpath input (rel r)) t
                  :: Mkdir (parent (joinpath out (rel r)))
                  :: WriteText (joinpath out (rel r)) (Re.rewrite ua t) :: es)
          with ([ReadText (joinpath input (rel r)) t;
                 Mkdir (parent (joinpath out (rel r)));
                 WriteText (joinpath out (rel r)) (Re.rewrite ua t)] ++ es).
        rewrite reads_app, written_app, Hes1, Hes2. split; reflexivity.
Qed.


(** *** Which files a directory run writes *)

Lemma for_each_cons_returned {A} (x : A) l body fs :
  outcome (for_each (x :: l) body fs) = Returned tt ->
  outcome (body x fs) = Returned tt
  /\ outcome (for_each l body (final (body x fs))) = Returned tt
  /\ events (for_each (x :: l) body fs)
     = events (body x fs) ++ events (for_each l body (final (body x fs)))
  /\ final (for_each (x :: l) body fs)
     = final (for_each l body (final (body x fs))).
Proof.
  cbn [for_each]. unfold bind.
  destruct (body x fs) as [[e [[]|e0|]] f]; cbn; try discriminate.
  destruct (for_each l body f) as [[e1 r1] f1]. cbn. auto.
Qed.

(** A body that returned has read the file and, unless the text is
    unchanged and the loop is the one in place, created the directory,
    written the text and printed the notices. *)
Lemma file_run_returned w always inp d fs R :
  file_run w always inp d fs R -> outcome R = Returned tt ->
  exists t,
    lookup fs (resolve w inp) = Some (File (Some t))
    /\ ((always = false /\ changed t = false
         /\ events R = [ReadText inp t] /\ final R = fs)
        \/ (always || changed t = true
            /\ exists fs1,
                mkdirs fs (ancestors (resolve w (parent d))) = inr fs1
                /\ dir_at fs1 (resolve w d) = false
                /\ events R
                   = ReadText inp t :: Mkdir (parent d)
                       :: WriteText d (Re.rewrite ua t)
                       :: notices w inp d t
                /\ final R
                   = update fs1 (resolve w d)
                       (File (Some (Re.rewrite ua t))))).
Proof.
  intros H Ho.
  destruct H as [e Hn Hu|t Hl Ha Hc|t e Hl Hc Hm He|t fs1 e Hl Hc Hm He
                 |t fs1 es r Hl Hc Hm Hd Hpr]; try discriminate.
  - exists t. split; [exact Hl|]. left. auto.
  - exists t. split; [exact Hl|]. right. split; [exact Hc|].
    exists fs1. cbn in Ho. subst r.
    destruct (printed_ends _ _ _ _ Hpr) as [[_ ->]|]; [|discriminate].
    auto.
Qed.

Lemma written_notices w inp d t : written (notices w inp d t) = [].
Proof. unfold DriverSpec.notices. now destruct (changed t). Qed.

Lemma noticed_notices w inp d t :
  noticed (notices w inp d t) = if changed t then [d] else [].
Proof. unfold DriverSpec.notices. now destruct (changed t). Qed.

(** The effects of a task carried out, seen three ways. *)
Lemma task_paths w inp d t :
  let evs := ReadText inp t :: Mkdir (parent d)
               :: WriteText d (Re.rewrite ua t) :: notices w inp d t in
  written evs = [d]
  /\ noticed evs = (if changed t then [d] else [])
  /\ map fst (reads evs) = [inp].
Proof.
  cbv zeta.
  change (ReadText inp t :: Mkdir (parent d)
            :: WriteText d (Re.rewrite ua t) :: notices w inp d t)
    with ([ReadText inp t; Mkdir (parent d); WriteText d (Re.rewrite ua t)]
            ++ notices w inp d t).
  rewrite written_app, noticed_app, reads_app, written_notices,
    noticed_notices, reads_notices.
  repeat split.
Qed.

Lemma mirror_static w input out : forall rs fs,
  below (resolve w input) fs = below (resolve w input) (files w) ->
  (forall r, In r rs ->
     outside w input (joinpath out (rel r)) = true
     /\ path_prefixb (resolve w input)
          (resolve w (joinpath input (rel r))) = true) ->
  outcome (for_each (map (fun r => joinpath input (rel r)) rs)
             (mirror_file w input out) fs) = Returned tt ->
  written (events (for_each (map (fun r => joinpath input (rel r)) rs)
                     (mirror_file w input out) fs))
  = map (fun r => joinpath out (rel r)) rs
  /\ noticed (events (for_each (map (fun r => joinpath input (rel r)) rs)
                        (mirror_file w input out) fs))
     = map (fun r => joinpath out (rel r))
         (filter (fun r => changes w (files w) (joinpath input (rel r))) rs)
  /\ map fst (reads (events (for_each (map (fun r => joinpath input (rel r)) rs)
                               (mirror_file w input out) fs)))
     = map (fun r => joinpath input (rel r)) rs.
Proof.
  induction rs as [|r rs IH]; intros fs Hb Hrs Ho; [repeat split|].
  cbn [map] in *.
  apply for_each_cons_returned in Ho as (Ho1 & Ho2 & -> & _).
  destruct (Hrs r (or_introl eq_refl)) as [Hout Hin].
  destruct (file_run_returned _ _ _ _ _ _ (mirror_file_run w input out r fs) Ho1)
    as (t & Hl & [(Ha & _)|(_ & fs1 & Hm & Hd & He & Hf)]); [discriminate|].
  unfold outside in Hout. apply andb_true_iff in Hout as [Hout1 Hout2].
  apply negb_true_iff in Hout1, Hout2.
  assert (Hb' : below (resolve w input)
                  (final (mirror_file w input out (joinpath input (rel r)) fs))
                = below (resolve w input) (files w)).
  { rewrite Hf, below_update_outside by exact Hout1.
    rewrite <- Hb.
    apply (mkdirs_below _ _ _ _
             (fun a Ha => ancestors_outside _ _ _ Hout2 Ha) Hm). }
  destruct (IH _ Hb' (fun r' Hr' => Hrs r' (or_intror Hr')) Ho2)
    as (IH1 & IH2 & IH3).
  rewrite written_app, noticed_app, reads_app, map_app, IH1, IH2, IH3, He.
  destruct (task_paths w (joinpath input (rel r)) (joinpath out (rel r)) t)
    as (-> & -> & ->).
  assert (Hch : changes w (files w) (joinpath input (rel r)) = changed t).
  { unfold DriverSpec.changes.
    rewrite <- (lookup_below _ _ _ Hin), <- Hb, (lookup_below _ _ _ Hin).
    now rewrite Hl. }
  cbn [filter]. rewrite Hch. repeat split.
  now destruct (changed t).
Qed.

(** Output-mirror completeness: a directory run into another tree that
    lies outside the tree it walks, and that returned, has read each file
    found once and written one file for each, at the place that mirrors it,
    and has given a notice for exactly those the rewrite changes. *)
Theorem mirror_is_complete fuel w mig input out inplace rs :
  dir_at (files w) (resolve w (resolve w input)) = true ->
  path_eqb out (resolve w input) = false ->
  rglob fuel w (resolve w input) = Some rs ->
  keeps_tree w (resolve w input) out rs = true ->
  forallb (fun r => path_prefixb (resolve w (resolve w input))
                      (resolve w (joinpath (resolve w input) (rel r)))) rs
  = true ->
  outcome (migrate fuel w mig input (Some out) inplace) = Returned tt ->
  written (events (migrate fuel w mig input (Some out) inplace))
  = map (fun r => joinpath out (rel r)) rs
  /\ noticed (events (migrate fuel w mig input (Some out) inplace))
     = map (fun r => joinpath out (rel r))
         (filter (fun r => changes w (files w)
                             (joinpath (resolve w input) (rel r))) rs)
  /\ map fst (reads (events (migrate fuel w mig input (Some out) inplace)))
     = map (fun r => joinpath (resolve w input) (rel r)) rs.
Proof.
  intros Hd Hne Hl Hk Hin.
  rewrite (dir_run_static _ _ _ _ (Some out) _ out rs eq_refl Hd Hl Hk).
  unfold DriverSpec.loop_body. rewrite Hne. cbn [negb]. intros Ho.
  apply mirror_static; auto.
  intros r Hr. unfold keeps_tree in Hk. rewrite Hne in Hk.
  rewrite forallb_forall in Hk, Hin. auto.
Qed.

Lemma changes_update w fs c n p :
  path_eqb c (resolve w p) = false ->
  changes w (update fs c n) p = changes w fs p.
Proof.
  intros H. unfold DriverSpec.changes. now rewrite lookup_update_other.
Qed.

Lemma inplace_static w input : forall rs fs,
  (forall d, dir_at (files w) d = true -> dir_at fs d = true) ->
  (forall r, In r rs ->
     dirs_exist (files w) (resolve w (parent (joinpath input (rel r))))
     = true) ->
  NoDup (map (fun r => resolve w (joinpath input (rel r))) rs) ->
  outcome (for_each (map (fun r => joinpath input (rel r)) rs)
             (inplace_file w input input) fs) = Returned tt ->
  written (events (for_each (map (fun r => joinpath input (rel r)) rs)
                     (inplace_file w input input) fs))
  = map (fun r => joinpath input (rel r))
      (filter (fun r => changes w fs (joinpath input (rel r))) rs)
  /\ noticed (events (for_each (map (fun r => joinpath input (rel r)) rs)
                        (inplace_file w input input) fs))
     = written (events (for_each (map (fun r => joinpath input (rel r)) rs)
                          (inplace_file w input input) fs))
  /\ (forall c,
        existsb (path_eqb c)
          (map (resolve w)
             (written (events (for_each
                                 (map (fun r => joinpath input (rel r)) rs)
                                 (inplace_file w input input) fs))))
        = false ->
        lookup (final (for_each (map (fun r => joinpath input (rel r)) rs)
                         (inplace_file w input input) fs)) c
        = lookup fs c).
Proof.
  induction rs as [|r rs IH]; intros fs Hmono Hdirs Hnd Ho;
    [repeat split|].
  cbn [map] in *. inversion Hnd as [|x l Hnotin Hnd']. subst x l.
  apply for_each_cons_returned in Ho as (Ho1 & Ho2 & -> & ->).
  destruct (file_run_returned _ _ _ _ _ _ (inplace_file_run w input r fs) Ho1)
    as (t & Hl & [(_ & Hc & He & Hf)|(Hc & fs1 & Hm & Hd & He & Hf)]).
  - (* unchanged *)
    rewrite Hf in *. rewrite He.
    destruct (IH fs Hmono (fun r' Hr' => Hdirs r' (or_intror Hr')) Hnd' Ho2)
      as (IH1 & IH2 & IH3).
    assert (Hch : changes w fs (joinpath input (rel r)) = false).
    { unfold DriverSpec.changes. now rewrite Hl. }
    cbn [filter]. rewrite Hch.
    rewrite written_app, noticed_app. cbn [written noticed flat_map app].
    repeat split; assumption.
  - (* changed *)
    cbn [orb] in Hc.
    rewrite (mkdirs_exist _ _
               (dirs_exist_mono _ _ _ Hmono (Hdirs r (or_introl eq_refl))))
      in Hm.
    inv Hm. rewrite Hf in *.
    set (fs' := update fs1 (resolve w (joinpath input (rel r)))
                  (File (Some (Re.rewrite ua t)))) in *.
    assert (Hmono' : forall d, dir_at (files w) d = true -> dir_at fs' d = true).
    { intros d Hdd. apply dir_at_update; auto. }
    destruct (IH fs' Hmono' (fun r' Hr' => Hdirs r' (or_intror Hr')) Hnd' Ho2)
      as (IH1 & IH2 & IH3).
    assert (Hfilter :
      filter (fun r' => changes w fs' (joinpath input (rel r'))) rs
      = filter (fun r' => changes w fs1 (joinpath input (rel r'))) rs).
    { apply filter_ext_in. intros r' Hr'. apply changes_update.
      apply path_eqb_neq. intros E. apply Hnotin.
      rewrite E. now apply (in_map (fun r0 => resolve w (joinpath input (rel r0)))). }
    rewrite written_app, noticed_app, IH2, IH1, Hfilter, He.
    destruct (task_paths w (joinpath input (rel r)) (joinpath input (rel r)) t)
      as (-> & -> & _).
    assert (Hch : changes w fs1 (joinpath input (rel r)) = true).
    { unfold DriverSpec.changes. now rewrite Hl. }
    cbn [filter]. rewrite Hch, Hc.
    cbn [app map]. split; [reflexivity|]. split; [reflexivity|].
    intros c Hcc. cbn [existsb] in Hcc.
    apply orb_false_iff in Hcc as [Hc1 Hc2].
    rewrite <- Hfilter, <- IH1 in Hc2.
    rewrite (IH3 c Hc2). unfold fs'.
    rewrite lookup_update_other; [reflexivity|].
    now rewrite path_eqb_sym.
Qed.

(** In-place write suppression: a directory run in place over files that
    are all different, and that returned, has written exactly the files the
    rewrite changes, each back to where it is, with a notice for each; every
    other place of the file system holds what it held. *)
Theorem inplace_writes_only_changed_files fuel w mig input rs :
  dir_at (files w) (resolve w (resolve w input)) = true ->
  rglob fuel w (resolve w input) = Some rs ->
  keeps_tree w (resolve w input) (resolve w input) rs = true ->
  NoDup (map (fun r => resolve w (joinpath (resolve w input) (rel r))) rs) ->
  outcome (migrate fuel w mig input None true) = Returned tt ->
  written (events (migrate fuel w mig input None true))
  = map (fun r => joinpath (resolve w input) (rel r))
      (filter (fun r => changes w (files w)
                          (joinpath (resolve w input) (rel r))) rs)
  /\ noticed (events (migrate fuel w mig input None true))
     = written (events (migrate fuel w mig input None true))
  /\ (forall c,
        existsb (path_eqb c)
          (map (resolve w) (written (events (migrate fuel w mig input None true))))
        = false ->
        lookup (final (migrate fuel w mig input None true)) c
        = lookup (files w) c).
Proof.
  intros Hd Hl Hk Hnd.
  rewrite (dir_run_static _ _ _ _ None true _ rs eq_refl Hd Hl Hk).
  unfold DriverSpec.loop_body. rewrite path_eqb_refl. cbn [negb]. intros Ho.
  apply inplace_static; auto.
  intros r Hr. unfold keeps_tree in Hk. rewrite path_eqb_refl in Hk.
  rewrite forallb_forall in Hk. auto.
Qed.

(** *** A second run in place *)

Lemma changed_rewrite t : changed (Re.rewrite ua t) = false.
Proof.
  pose proof (rewrite_with_quiet ua to_be_replaced t (catalogue_legacy))
    as Hq.
  fold (Re.rewrite ua t) in Hq.
  assert (E : Re.rewrite ua (Re.rewrite ua t) = Re.rewrite ua t).
  { unfold Re.rewrite at 1. unfold Re.rewrite_with, Re.re_sub.
    rewrite (quiet_sub_id ua (Re.pattern1 to_be_replaced) (Re.rewrite ua t) None).
    - now apply quiet_sub_id.
    - apply quiet_qualified; [apply catalogue_legacy | exact Hq]. }
  unfold DriverSpec.changed. rewrite E. now rewrite text_eqb_refl.
Qed.

(** A settled file stays settled. *)
Lemma file_run_settled w always inp d fs R c :
  file_run w always inp d fs R -> settled fs c -> settled (final R) c.
Proof.
  intros H (u & Hu & Hc).
  destruct H as [e Hn He|t Hl Ha Hch|t e Hl Hch Hm He|t fs1 e Hl Hch Hm He
                 |t fs1 es r Hl Hch Hm Hdd Hpr]; cbn [final snd];
    try (now exists u).
  - exists u. split; [apply (mkdirs_keeps _ _ _ _ _ Hm Hu) | exact Hc].
  - unfold DriverSpec.settled. rewrite lookup_update.
    destruct (path_eqb (resolve w d) c).
    + exists (Re.rewrite ua t). split; [reflexivity | apply changed_rewrite].
    + exists u. split; [apply (mkdirs_keeps _ _ _ _ _ Hm Hu) | exact Hc].
Qed.

(** A file the loop in place got through is settled. *)
Lemma file_run_settles w inp fs R :
  file_run w false inp inp fs R -> outcome R = Returned tt ->
  settled (final R) (resolve w inp).
Proof.
  intros H Ho.
  destruct (file_run_returned _ _ _ _ _ _ H Ho)
    as (t & Hl & [(_ & Hc & _ & ->)|(_ & fs1 & _ & _ & _ & ->)]).
  - now exists t.
  - exists (Re.rewrite ua t). rewrite lookup_update_same.
    split; [reflexivity | apply changed_rewrite].
Qed.

(** On a settled file the loop in place only reads. *)
Lemma settled_run w inp fs R :
  file_run w false inp inp fs R -> settled fs (resolve w inp) ->
  exists u, R = ([ReadText inp u], Returned tt, fs).
Proof.
  intros H (u & Hu & Hc).
  destruct H as [e Hn He|t Hl Ha Hch|t e Hl Hch Hm He|t fs1 e Hl Hch Hm He
                 |t fs1 es r Hl Hch Hm Hdd Hpr];
    try (rewrite Hl in Hu; inv Hu; cbn [orb] in Hch; congruence).
  - now destruct (Hn u).
  - rewrite Hl in Hu. inv Hu. eauto.
Qed.

Lemma for_each_settled w input rs fs c :
  settled fs c ->
  settled (final (for_each (map (fun r => joinpath input (rel r)) rs)
                    (inplace_file w input input) fs)) c.
Proof.
  apply (for_each_keeps (fun fs => settled fs c)).
  intros x Hx fs' Hs. apply in_map_iff in Hx as (r & <- & _).
  apply (file_run_settled _ _ _ _ _ _ _ (inplace_file_run w input r fs') Hs).
Qed.

(** The loop in place, run again on what it left, only reads. *)
Lemma second_pass w input : forall rs fs,
  outcome (for_each (map (fun r => joinpath input (rel r)) rs)
             (inplace_file w input input) fs) = Returned tt
  \/ outcome (for_each (map (fun r => joinpath input (rel r)) rs)
                (inplace_file w input input) fs)
     = Raised UnicodeDecodeError ->
  exists evs,
    for_each (map (fun r => joinpath input (rel r)) rs)
      (inplace_file w input input)
      (final (for_each (map (fun r => joinpath input (rel r)) rs)
                (inplace_file w input input) fs))
    = (evs,
       outcome (for_each (map (fun r => joinpath input (rel r)) rs)
                  (inplace_file w input input) fs),
       final (for_each (map (fun r => joinpath input (rel r)) rs)
                (inplace_file w input input) fs))
    /\ only_reads evs = true.
Proof.
  induction rs as [|r rs IH]; intros fs Ho.
  - exists []. split; reflexivity.
  - cbn [map for_each] in *.
    pose proof (inplace_file_run w input r fs) as Hrun.
    destruct (inplace_file w input input (joinpath input (rel r)) fs)
      as [[e1 [[]|e0|]] f1] eqn:EB.
    + (* the body returned *)
      pose proof (file_run_settles _ _ _ _ Hrun eq_refl) as Hs.
      cbn [final snd] in Hs.
      rewrite (bind_returned _ _ _ _ _ _ EB) in *.
      cbn [events outcome final fst snd] in *.
      destruct (IH f1 Ho) as (evs & E2 & Hr).
      pose proof (for_each_settled w input rs f1 _ Hs) as Hs'.
      destruct (settled_run _ _ _ _ (inplace_file_run w input r _) Hs')
        as (u & Eu).
      rewrite (bind_returned _ _ _ _ _ _ Eu), E2.
      cbn [events outcome final fst snd app].
      exists (ReadText (joinpath input (rel r)) u :: evs).
      split; [reflexivity | exact Hr].
    + (* the body raised *)
      rewrite (bind_raised _ _ _ _ _ _ EB) in *.
      cbn [events outcome final fst snd] in *.
      destruct Ho as [Ho|Ho]; [discriminate|]. inv Ho.
      inversion Hrun as [e Hn He|t Hl Ha Hch|t e Hl Hch Hm He|t fs1 e Hl Hch Hm He
                         |t fs1 es r0 Hl Hch Hm Hdd Hpr]; subst;
        try congruence.
      * rewrite (bind_raised _ _ _ _ _ _ EB). exists []. split; reflexivity.
      * destruct (printed_ends _ _ _ _ Hpr) as [[? _]|?]; discriminate.
    + (* no body is left unfinished *)
      inversion Hrun as [e Hn He|t Hl Ha Hch|t e Hl Hch Hm He|t fs1 e Hl Hch Hm He
                         |t fs1 es r0 Hl Hch Hm Hdd Hpr]; subst.
      destruct (printed_ends _ _ _ _ Hpr) as [[? _]|?]; discriminate.
Qed.

(** Running the migration in place over a tree a second time changes
    nothing: after a first run that returned, or that stopped at a file that
    does not decode, the second run only reads; it leaves the file system as
    the first run left it and ends as the first run ended. *)
Theorem second_inplace_run_is_silent fuel w mig input rs :
  dir_at (files w) (resolve w (resolve w input)) = true ->
  rglob fuel w (resolve w input) = Some rs ->
  keeps_tree w (resolve w input) (resolve w input) rs = true ->
  outcome (migrate fuel w mig input None true) = Returned tt
  \/ outcome (migrate fuel w mig input None true)
     = Raised UnicodeDecodeError ->
  only_reads
    (events (migrate fuel
               (with_files w (final (migrate fuel w mig input None true)))
               mig input None true)) = true
  /\ final (migrate fuel
              (with_files w (final (migrate fuel w mig input None true)))
              mig input None true)
     = final (migrate fuel w mig input None true)
  /\ outcome (migrate fuel
                (with_files w (final (migrate fuel w mig input None true)))
                mig input None true)
     = outcome (migrate fuel w mig input None true).
Proof.
  intros Hd Hl Hk.
  assert (Hsame : same_tree (resolve w (resolve w input)) (files w)
                    (final (migrate fuel w mig input None true))).
  { rewrite (dir_run_static _ _ _ _ None true _ rs eq_refl Hd Hl Hk).
    apply (for_each_keeps
             (same_tree (resolve w (resolve w input)) (files w)));
      [|apply same_tree_refl].
    intros x Hx fs Hfs. apply in_map_iff in Hx as (r & <- & Hr).
    now apply (loop_body_same_tree _ _ _ rs). }
  destruct Hsame as [Hshape Hdirs].
  set (fs1 := final (migrate fuel w mig input None true)) in *.
  assert (E2 : migrate fuel (with_files w fs1) mig input None true
               = for_each (map (fun r => joinpath (resolve w input) (rel r)) rs)
                   (inplace_file w (resolve w input) (resolve w input)) fs1).
  { rewrite (dir_run_static fuel (with_files w fs1) mig input None true
               (resolve w input) rs eq_refl).
    - cbn [with_files resolve files]. unfold DriverSpec.loop_body.
      now rewrite path_eqb_refl.
    - cbn [with_files resolve files]. now apply Hdirs.
    - unfold rglob. cbn [with_files resolve files rglob_py].
      rewrite Hshape. exact Hl.
    - unfold keeps_tree in *. cbn [with_files resolve files].
      rewrite path_eqb_refl in *. rewrite forallb_forall in *.
      intros r Hr. apply (dirs_exist_mono _ _ _ Hdirs). now apply Hk. }
  rewrite E2. unfold fs1.
  rewrite (dir_run_static _ _ _ _ None true _ rs eq_refl Hd Hl Hk).
  unfold DriverSpec.loop_body. rewrite path_eqb_refl. cbn [negb].
  intros Ho. destruct (second_pass w (resolve w input) rs (files w) Ho)
    as (evs & -> & Hr).
  auto.
Qed.

(** *** A single file in place *)

Lemma parent_join_name p n :
  String.eqb n "" = false -> parent (join_name p n) = p.
Proof.
  intros Hn. destruct n as [|a n]; [discriminate|].
  destruct p as [ap pp]. unfold join_name, joinpath, parent. cbn.
  now rewrite removelast_last.
Qed.

Lemma join_name_differs p n :
  String.eqb n "" = false -> path_eqb p (join_name p n) = false.
Proof.
  intros Hn. destruct (path_eqb p (join_name p n)) eqn:E; [exfalso|reflexivity].
  apply path_eqb_eq in E. destruct n as [|a n]; [discriminate|].
  destruct p as [ap pp]. unfold join_name, joinpath in E. cbn in E.
  inv E. apply (f_equal (@List.length string)) in H0.
  rewrite length_app in H0. simpl in H0. lia.
Qed.

Lemma inits_self {A} (l : list A) : In l (inits l).
Proof.
  induction l as [|x l IH]; cbn; [now left|].
  right. now apply in_map.
Qed.

Lemma ancestors_self c : In c (ancestors c).
Proof.
  unfold ancestors. destruct c as [a l]. cbn.
  apply (in_map (mkPath a)), inits_self.
Qed.

(** A file in the way stops the creation of directories. *)
Lemma mkdirs_blocked ds : forall fs c t,
  In c ds -> lookup fs c = Some (File t) -> exists e, mkdirs fs ds = inl e.
Proof.
  induction ds as [|d ds IH]; intros fs c t Hin Hc; [destruct Hin|].
  cbn [mkdirs]. destruct (lookup fs d) as [[|t']|] eqn:Ed.
  - destruct Hin as [->|Hin]; [congruence|]. now apply (IH fs c t).
  - eauto.
  - destruct Hin as [->|Hin]; [congruence|].
    apply (IH _ c t Hin). rewrite lookup_update_other; [exact Hc|].
    apply path_eqb_neq. intros ->. congruence.
Qed.

(** An in-place run on a single file whose name does not end in [.py]
    does not work on the file itself: the first thing it does, if anything,
    is to create a directory at the path of the input file, and the input
    file is never written; where the input is a file that exists, that
    fails, and the run ends with the exception of [mkdir] before it has
    read or written anything. *)
Theorem inplace_on_other_suffix_spares_the_file fuel w mig input :
  dir_at (files w) (resolve w (resolve w input)) = false ->
  String.eqb (suffix (resolve w input)) ".py" = false ->
  String.eqb (name (resolve w input)) "" = false ->
  existsb (path_eqb (resolve w input))
    (written (events (migrate fuel w mig input None true))) = false
  /\ (events (migrate fuel w mig input None true) = []
      \/ hd_error (events (migrate fuel w mig input None true))
         = Some (Mkdir (resolve w input)))
  /\ (forall t,
        lookup (files w) (resolve w (resolve w input)) = Some (File t) ->
        migrate fuel w mig input None true
        = ([], Raised FileExistsError, files w)
        \/ migrate fuel w mig input None true
           = ([], Raised NotADirectoryError, files w)).
Proof.
  intros Hdir Hsuf Hname.
  set (input' := resolve w input) in *.
  set (dest := join_name input' (name input')).
  assert (Hne' : path_eqb input' dest = false)
    by now apply join_name_differs.
  assert (Hne : path_eqb dest input' = false)
    by now rewrite path_eqb_sym.
  assert (Hgo : migrate fuel w mig input None true
    = (output <- (mkdir w (parent dest) ;; ret dest) ;;
       content <- read w input' ;;
       let new_content := Re.rewrite ua content in
       if path_eqb output input' then
         if negb (text_eqb content new_content) then
           write_text w output new_content ;;
           pprint w (PrintUpdated output) ;;
           pprint w (PrintDiff (splitlines content) (splitlines new_content)
                       (path_str (resolve w input'))
                       (path_str (resolve w output)))
         else ret tt
       else
         write_text w output new_content ;;
         if negb (text_eqb content new_content) then
           pprint w (PrintUpdated output) ;;
           pprint w (PrintDiff (chars content) (chars new_content)
                       (path_str input') (path_str output))
         else ret tt) (files w)).
  { unfold Cli.migrate, Cli.migrate_from. fold input'. cbn [negb].
    rewrite bind_ret, bind_is_dir, Hdir. cbn [negb].
    unfold bind at 1 3. rewrite bind_is_dir, Hdir, Hsuf. reflexivity. }
  assert (Hparent : parent dest = input')
    by apply (parent_join_name _ _ Hname).
  rewrite Hgo, Hparent. clear Hgo.
  destruct (mkdir_cases w input' (files w))
    as [(fs1 & Em & Hm)|(e & Em & He & Hm)].
  - (* the directory is created: the input was not there *)
    assert (Hm' : (mkdir w input' ;; ret dest) (files w)
                  = ([Mkdir input'], Returned dest, fs1)).
    { unfold bind. now rewrite Hm. }
    rewrite (bind_returned _ _ _ _ _ _ Hm').
    cbn [ret events outcome final fst snd app].
    split; [|split].
    + destruct (read_cases w input' fs1) as [(t & Hl & Hr)|(e & Hr & _)].
      * rewrite (bind_returned _ _ _ _ _ _ Hr). rewrite Hne.
        cbn [events fst app].
        destruct (write_cases w dest (Re.rewrite ua t) fs1)
          as [(Hd & Hw)|(e & He & Hw)].
        -- rewrite (bind_returned _ _ _ _ _ _ Hw).
           destruct (negb (text_eqb t (Re.rewrite ua t))).
           ++ match goal with
              | |- context [(pprint w ?e1 ;; pprint w ?e2) ?f] =>
                  destruct (printed_two w e1 e2 f) as (es & r & -> & Hp)
              end.
              destruct (printed_prefix _ _ _ _ Hp) as (rest & Hrest).
              cbn [events fst app written flat_map existsb].
              rewrite Hne'. cbn [orb].
              destruct es as [|e1 [|e2 es]]; inv Hrest; try reflexivity.
              destruct es; [reflexivity | discriminate].
           ++ cbn. now rewrite Hne'.
        -- rewrite (bind_raised _ _ _ _ _ _ Hw). reflexivity.
      * rewrite (bind_raised _ _ _ _ _ _ Hr). reflexivity.
    + right. reflexivity.
    + intros t Ht.
      destruct (mkdirs_blocked _ _ _ _ (ancestors_self _) Ht) as (e & He).
      congruence.
  - (* a file is in the way *)
    rewrite (bind_raised _ _ _ _ _ _ (bind_raised _ (fun _ => ret dest) _ _ _ _ Hm)).
    cbn [events fst]. split; [reflexivity|]. split; [now left|].
    intros t _. destruct (mkdirs_error _ _ _ Em) as [-> | ->]; auto.
Qed.

(** A run without an output path and without [--inplace] raises
    [ValueError] before it touches a file. *)
Theorem missing_output_is_rejected fuel w mig input :
  migrate fuel w mig input None false = ([], Raised ValueError, files w).
Proof. reflexivity. Qed.

(** *** Runs come to an end *)

Lemma listing_more next fuel : forall seen l,
  listing next fuel seen = Some l ->
  forall k, listing next (fuel + k) seen = Some l.
Proof.
  induction fuel as [|fuel IH]; intros seen l; cbn [listing Nat.add];
    [discriminate|].
  destruct (next seen) as [r|]; [|auto].
  destruct (listing next fuel (seen ++ [r])) as [l'|] eqn:E; [|discriminate].
  intros H k. inv H. now rewrite (IH _ _ E k).
Qed.

Lemma file_run_ends w always inp d fs R :
  file_run w always inp d fs R ->
  outcome R = Returned tt \/ exists e, outcome R = Raised e.
Proof.
  intros H.
  destruct H as [e Hn Hu|t Hl Ha Hc|t e Hl Hc Hm He|t fs1 e Hl Hc Hm He
                 |t fs1 es r Hl Hc Hm Hd Hpr]; cbn [outcome fst snd].
  - right. now exists e.
  - now left.
  - right. now exists e.
  - right. now exists e.
  - destruct (printed_ends _ _ _ _ Hpr) as [[-> _]| ->];
      [now left | right; now exists MarkupError].
Qed.

Lemma for_each_ends {A} (l : list A) body :
  (forall x, In x l ->
     forall fs, outcome (body x fs) = Returned tt
                \/ exists e, outcome (body x fs) = Raised e) ->
  forall fs, outcome (for_each l body fs) = Returned tt
             \/ exists e, outcome (for_each l body fs) = Raised e.
Proof.
  induction l as [|x l IH]; intros Hb fs; cbn [for_each].
  - now left.
  - destruct (Hb x (or_introl eq_refl) fs) as [H|(e & H)].
    + rewrite (bind_returned _ _ _ _ _ _ (run_is _ _ _ eq_refl H)).
      change (outcome (for_each l body (final (body x fs))) = Returned tt
              \/ exists e,
                   outcome (for_each l body (final (body x fs))) = Raised e).
      apply IH. intros y Hy. apply Hb. now right.
    + rewrite (bind_raised _ _ _ _ _ _ (run_is _ _ _ eq_refl H)).
      right. now exists e.
Qed.


(** A run on a single file takes no round of the loop. *)
Lemma single_file_run_needs_no_fuel fuel fuel' w mig input output inplace :
  dir_at (files w) (resolve w (resolve w input)) = false ->
  migrate fuel w mig input output inplace
  = migrate fuel' w mig input output inplace.
Proof.
  intros Hd. unfold Cli.migrate, Cli.migrate_from.
  destruct output as [o|]; [|destruct inplace; [|reflexivity]];
    cbn [negb]; rewrite !bind_ret, !bind_is_dir, Hd; reflexivity.
Qed.

End DriverTheory.



(** The witness of C4: [good.py] is found first, [bad.py] second. *)
Lemma first_unreadable_file_witness :
  Cli.migrate ascii_only 5 Examples.tree_with_bad_file_last Cli.upgrade7to8
    (Cli.abs ["src"%string]) (Some (Cli.abs ["out"%string])) false
  = (Cli.events
       (Cli.migrate ascii_only 5
          (DriverSpec.with_found Examples.tree_with_bad_file_last
             [["good.py"%string]])
          Cli.upgrade7to8
          (Cli.abs ["src"%string]) (Some (Cli.abs ["out"%string])) false),
     Cli.Raised Cli.UnicodeDecodeError,
     Cli.final
       (Cli.migrate ascii_only 5
          (DriverSpec.with_found Examples.tree_with_bad_file_last
             [["good.py"%string]])
          Cli.upgrade7to8
          (Cli.abs ["src"%string]) (Some (Cli.abs ["out"%string])) false)).
Proof.
  apply (first_unreadable_file_aborts ascii_only 5
           Examples.tree_with_bad_file_last Cli.upgrade7to8
           (Cli.abs ["src"%string]) (Some (Cli.abs ["out"%string])) false
           (Cli.abs ["out"%string]) [["good.py"%string]] ["bad.py"%string] []).
  - reflexivity.
  - reflexivity.
  - vm_compute. reflexivity.
  - vm_compute. reflexivity.
  - vm_compute. reflexivity.
  - vm_compute. reflexivity.
Defined.

(** C4 as stated fails: [bad.py] is found first and ends the run with the
    decoding error; [good.py], which is found after it and can be read, is
    never taken up: nothing is read, written or reported, and no failure is
    collected. *)
Lemma bad_file_stops_the_run :
  DriverSpec.rglob 3 Examples.tree_with_bad_file (Cli.abs ["src"%string])
  = Some [["bad.py"%string]; ["good.py"%string]]
  /\ Cli.lookup (Cli.files Examples.tree_with_bad_file)
       (Cli.abs ["src"; "good.py"]%string)
     = Some (Cli.File (Some (lit "x = 1")))
  /\ (forall fuel,
        Cli.migrate ascii_only (S fuel) Examples.tree_with_bad_file
          Cli.upgrade7to8
          (Cli.abs ["src"%string]) (Some (Cli.abs ["out"%string])) false
        = ([], Cli.Raised Cli.UnicodeDecodeError,
           Cli.files Examples.tree_with_bad_file)).
Proof.
  split; [vm_compute; reflexivity|]. split; [vm_compute; reflexivity|].
  intros fuel. vm_compute. reflexivity.
Qed.

(** C5 fails on the code: an output path given together with [--inplace] is
    used as it is (the flag is read only when no output is given); on
    [/a/f.py] with output [/b/g.py] the file written is [/b/g.py], while
    without an output argument it is [/a/f.py]. *)
Theorem inplace_does_not_override_output :
  (forall ua fuel w mig input o,
      Cli.migrate ua fuel w mig input (Some o) true
      = Cli.migrate ua fuel w mig input (Some o) false)
  /\ (forall fuel,
        Cli.migrate ascii_only fuel Examples.one_file Cli.upgrade7to8
          (Cli.abs ["a"; "f.py"]%string)
          (Some (Cli.abs ["b"; "g.py"]%string)) true
        = ([Cli.Mkdir (Cli.abs ["b"%string]);
            Cli.ReadText (Cli.abs ["a"; "f.py"]%string) (lit "x = 1");
            Cli.WriteText (Cli.abs ["b"; "g.py"]%string) (lit "dx = 1");
            Cli.PrintUpdated (Cli.abs ["b"; "g.py"]%string);
            Cli.PrintDiff (Cli.chars (lit "x = 1"))
              (Cli.chars (lit "dx = 1")) "/a/f.py" "/b/g.py"],
           Cli.Returned tt,
           [(Cli.abs [], Cli.Dir);
            (Cli.abs ["a"%string], Cli.Dir);
            (Cli.abs ["a"; "f.py"]%string, Cli.File (Some (lit "x = 1")));
            (Cli.abs ["b"%string], Cli.Dir);
            (Cli.abs ["b"; "g.py"]%string,
             Cli.File (Some (lit "dx = 1")))]))
  /\ (forall fuel,
        Cli.migrate ascii_only fuel Examples.one_file Cli.upgrade7to8
          (Cli.abs ["a"; "f.py"]%string) None true
        = ([Cli.Mkdir (Cli.abs ["a"%string]);
            Cli.ReadText (Cli.abs ["a"; "f.py"]%string) (lit "x = 1");
            Cli.WriteText (Cli.abs ["a"; "f.py"]%string) (lit "dx = 1");
            Cli.PrintUpdated (Cli.abs ["a"; "f.py"]%string);
            Cli.PrintDiff [lit "x = 1"] [lit "dx = 1"] "/a/f.py" "/a/f.py"],
           Cli.Returned tt,
           [(Cli.abs [], Cli.Dir);
            (Cli.abs ["a"%string], Cli.Dir);
            (Cli.abs ["a"; "f.py"]%string,
             Cli.File (Some (lit "dx = 1")))])).
Proof.
  split; [reflexivity|]. split; intros fuel; vm_compute; reflexivity.
Qed.

(** C6 fails on the code: the value of [output.resolve()] is dropped, so a
    relative output stays relative: run in [/w] on [a.py] with output
    [out.py], the command opens the file by the relative path and labels the
    diff [out.py], where the resolved path is [/w/out.py]. *)
Theorem output_path_is_not_resolved :
  (forall fuel,
      Cli.migrate ascii_only fuel Examples.in_cwd Cli.upgrade7to8
        (Cli.rel ["a.py"%string]) (Some (Cli.rel ["out.py"%string])) false
      = ([Cli.Mkdir (Cli.rel []);
          Cli.ReadText (Cli.abs ["w"; "a.py"]%string) (lit "x");
          Cli.WriteText (Cli.rel ["out.py"%string]) (lit "dx");
          Cli.PrintUpdated (Cli.rel ["out.py"%string]);
          Cli.PrintDiff [lit "x"] [lit "d"; lit "x"] "/w/a.py" "out.py"],
         Cli.Returned tt,
         [(Cli.abs [], Cli.Dir);
          (Cli.abs ["w"%string], Cli.Dir);
          (Cli.abs ["w"; "a.py"]%string, Cli.File (Some (lit "x")));
          (Cli.abs ["w"; "out.py"]%string, Cli.File (Some (lit "dx")))]))
  /\ Cli.path_str (Cli.resolve Examples.in_cwd (Cli.rel ["out.py"%string]))
     = "/w/out.py"%string.
Proof. split; [intros fuel|]; vm_compute; reflexivity. Qed.

(** C7 fails on the code: for a single file written to another path the two
    texts go to [unified_diff] as they are, so the diff runs over their
    characters (the newline among them), not over their lines. *)
Theorem single_file_diff_is_by_character :
  (forall fuel,
      Cli.migrate ascii_only fuel Examples.two_lines Cli.upgrade7to8
        (Cli.abs ["a"; "f.py"]%string)
        (Some (Cli.abs ["b"; "g.py"]%string)) false
      = ([Cli.Mkdir (Cli.abs ["b"%string]);
          Cli.ReadText (Cli.abs ["a"; "f.py"]%string)
            (lit ("x" ++ nl ++ "y")%string);
          Cli.WriteText (Cli.abs ["b"; "g.py"]%string)
            (lit ("dx" ++ nl ++ "dy")%string);
          Cli.PrintUpdated (Cli.abs ["b"; "g.py"]%string);
          Cli.PrintDiff
            [lit "x"; [newline]; lit "y"]
            [lit "d"; lit "x"; [newline]; lit "d"; lit "y"]
            "/a/f.py" "/b/g.py"],
         Cli.Returned tt,
         [(Cli.abs [], Cli.Dir);
          (Cli.abs ["a"%string], Cli.Dir);
          (Cli.abs ["a"; "f.py"]%string,
           Cli.File (Some (lit ("x" ++ nl ++ "y")%string)));
          (Cli.abs ["b"%string], Cli.Dir);
          (Cli.abs ["b"; "g.py"]%string,
           Cli.File (Some (lit ("dx" ++ nl ++ "dy")%string)))]))
  /\ Cli.splitlines (lit ("x" ++ nl ++ "y")%string) = [lit "x"; lit "y"]
  /\ Cli.splitlines (lit ("dx" ++ nl ++ "dy")%string) = [lit "dx"; lit "dy"].
Proof.
  split; [intros fuel; vm_compute; reflexivity|].
  split; vm_compute; reflexivity.
Qed.

(** The output path is compared as given: run in [/w] on [a.py], which
    holds a text the rewrite leaves as it is, with the output [a.py], the
    command takes the output for another file and writes the unchanged text
    over the input; with the output [/w/a.py], the same file in resolved
    form, it writes nothing. *)
Theorem relative_output_rewrites_unchanged_file :
  (forall fuel,
      Cli.migrate ascii_only fuel Examples.in_cwd_settled Cli.upgrade7to8
        (Cli.rel ["a.py"%string]) (Some (Cli.rel ["a.py"%string])) false
      = ([Cli.Mkdir (Cli.rel []);
          Cli.ReadText (Cli.abs ["w"; "a.py"]%string) (lit "dx");
          Cli.WriteText (Cli.rel ["a.py"%string]) (lit "dx")],
         Cli.Returned tt,
         Cli.files Examples.in_cwd_settled))
  /\ (forall fuel,
        Cli.migrate ascii_only fuel Examples.in_cwd_settled Cli.upgrade7to8
          (Cli.rel ["a.py"%string]) (Some (Cli.abs ["w"; "a.py"]%string))
          false
        = ([Cli.Mkdir (Cli.abs ["w"%string]);
            Cli.ReadText (Cli.abs ["w"; "a.py"]%string) (lit "dx")],
           Cli.Returned tt,
           Cli.files Examples.in_cwd_settled))
  /\ Cli.resolve Examples.in_cwd_settled (Cli.rel ["a.py"%string])
     = Cli.abs ["w"; "a.py"]%string.
Proof.
  split; [intros fuel; vm_compute; reflexivity|].
  split; [intros fuel; vm_compute; reflexivity|].
  reflexivity.
Qed.

(** The witness of no-op detection: [a = b + 1]. *)
Lemma no_op_detection_witness :
  Re.rewrite ascii_only (lit "a = b + 1") = lit "a = b + 1"
  /\ DriverSpec.changed ascii_only (lit "a = b + 1") = false.
Proof. apply (no_op_detection ascii_only). reflexivity. Defined.

(** The witness of mirror completeness: the tree with [a.py], which
    changes, and [b.py], which does not. *)
Lemma mirror_is_complete_witness :
  DriverSpec.written
    (Cli.events
       (Cli.migrate ascii_only 5 Examples.two_file_tree Cli.upgrade7to8
          (Cli.abs ["in"%string]) (Some (Cli.abs ["out"%string])) false))
  = map (fun r => Cli.joinpath (Cli.abs ["out"%string]) (Cli.rel r))
      [["a.py"%string]; ["b.py"%string]]
  /\ DriverSpec.noticed
       (Cli.events
          (Cli.migrate ascii_only 5 Examples.two_file_tree Cli.upgrade7to8
             (Cli.abs ["in"%string]) (Some (Cli.abs ["out"%string])) false))
     = map (fun r => Cli.joinpath (Cli.abs ["out"%string]) (Cli.rel r))
         (filter
            (fun r =>
               DriverSpec.changes ascii_only Examples.two_file_tree
                 (Cli.files Examples.two_file_tree)
                 (Cli.joinpath (Cli.abs ["in"%string]) (Cli.rel r)))
            [["a.py"%string]; ["b.py"%string]])
  /\ map fst
       (DriverSpec.reads
          (Cli.events
             (Cli.migrate ascii_only 5 Examples.two_file_tree
                Cli.upgrade7to8
                (Cli.abs ["in"%string]) (Some (Cli.abs ["out"%string]))
                false)))
     = map (fun r => Cli.joinpath (Cli.abs ["in"%string]) (Cli.rel r))
         [["a.py"%string]; ["b.py"%string]].
Proof.
  apply (mirror_is_complete ascii_only 5 Examples.two_file_tree
           Cli.upgrade7to8 (Cli.abs ["in"%string]) (Cli.abs ["out"%string])
           false [["a.py"%string]; ["b.py"%string]]);
    vm_compute; reflexivity.
Defined.

(** The witness of in-place suppression: the same tree, in place. *)
Lemma inplace_writes_witness :
  DriverSpec.written
    (Cli.events
       (Cli.migrate ascii_only 5 Examples.two_file_tree Cli.upgrade7to8
          (Cli.abs ["in"%string]) None true))
  = map (fun r => Cli.joinpath (Cli.abs ["in"%string]) (Cli.rel r))
      (filter
         (fun r =>
            DriverSpec.changes ascii_only Examples.two_file_tree
              (Cli.files Examples.two_file_tree)
              (Cli.joinpath (Cli.abs ["in"%string]) (Cli.rel r)))
         [["a.py"%string]; ["b.py"%string]])
  /\ DriverSpec.noticed
       (Cli.events
          (Cli.migrate ascii_only 5 Examples.two_file_tree Cli.upgrade7to8
             (Cli.abs ["in"%string]) None true))
     = DriverSpec.written
         (Cli.events
            (Cli.migrate ascii_only 5 Examples.two_file_tree Cli.upgrade7to8
               (Cli.abs ["in"%string]) None true))
  /\ (forall c,
        existsb (Cli.path_eqb c)
          (map (Cli.resolve Examples.two_file_tree)
             (DriverSpec.written
                (Cli.events
                   (Cli.migrate ascii_only 5 Examples.two_file_tree
                      Cli.upgrade7to8 (Cli.abs ["in"%string]) None true))))
        = false ->
        Cli.lookup
          (Cli.final
             (Cli.migrate ascii_only 5 Examples.two_file_tree
                Cli.upgrade7to8 (Cli.abs ["in"%string]) None true)) c
        = Cli.lookup (Cli.files Examples.two_file_tree) c).
Proof.
  apply (inplace_writes_only_changed_files ascii_only 5
           Examples.two_file_tree Cli.upgrade7to8 (Cli.abs ["in"%string])
           [["a.py"%string]; ["b.py"%string]]).
  - reflexivity.
  - vm_compute. reflexivity.
  - vm_compute. reflexivity.
  - repeat constructor; simpl; intuition discriminate.
  - vm_compute. reflexivity.
Defined.

(** Directory traversal: [a/b/c.py] below [/in] goes to [/out/a/b/c.py],
    after its directory [/out/a/b] is created. *)
Theorem nested_file_is_mirrored :
  forall fuel,
    Cli.migrate ascii_only (S (S fuel)) Examples.nested_tree Cli.upgrade7to8
      (Cli.abs ["in"%string]) (Some (Cli.abs ["out"%string])) false
    = ([Cli.ReadText (Cli.abs ["in"; "a"; "b"; "c.py"]%string)
          (lit "y = 2");
        Cli.Mkdir (Cli.abs ["out"; "a"; "b"]%string);
        Cli.WriteText (Cli.abs ["out"; "a"; "b"; "c.py"]%string)
          (lit "dy = 2");
        Cli.PrintUpdated (Cli.abs ["out"; "a"; "b"; "c.py"]%string);
        Cli.PrintDiff [lit "y = 2"] [lit "dy = 2"]
          "/in/a/b/c.py" "/out/a/b/c.py"],
       Cli.Returned tt,
       Cli.files Examples.nested_tree
       ++ [(Cli.abs ["out"%string], Cli.Dir);
           (Cli.abs ["out"; "a"]%string, Cli.Dir);
           (Cli.abs ["out"; "a"; "b"]%string, Cli.Dir);
           (Cli.abs ["out"; "a"; "b"; "c.py"]%string,
            Cli.File (Some (lit "dy = 2")))]).
Proof. intros fuel. vm_compute. reflexivity. Qed.

(** [str.splitlines] on the line ends it knows. *)
Example splitlines_examples :
  Cli.splitlines [] = []
  /\ Cli.splitlines (lit "a") = [lit "a"]
  /\ Cli.splitlines [97; 10] = [lit "a"]
  /\ Cli.splitlines [97; 10; 10; 98] = [lit "a"; []; lit "b"]
  /\ Cli.splitlines [97; 13; 10; 98] = [lit "a"; lit "b"]
  /\ Cli.splitlines [10; 13] = [[]; []]
  /\ Cli.splitlines [97; 13] = [lit "a"].
Proof. repeat split; reflexivity. Qed.

(** The rewrite on single names and near misses. *)
Example rewrite_examples :
  Re.rewrite ascii_only (lit "recentered") = lit "recentered"
  /\ Re.rewrite ascii_only (lit "movex") = lit "dmovex"
  /\ Re.rewrite ascii_only (lit "xd.center") = lit "xd.dcenter"
  /\ Re.rewrite ascii_only (lit "c.move(x=1)") = lit "c.dmove(dx=1)"
  /\ Re.rewrite ascii_only (lit "size_info_x") = lit "size_info_x"
  /\ Re.rewrite ascii_only (lit "d.x") = lit "dd.dx".
Proof. repeat split; vm_compute; reflexivity. Qed.

(** ** The commands that derive a file name *)

Section CommandsTheory.

Import Cli Commands.
Local Open Scope string_scope.

Lemma string_length_app a b :
  String.length (a ++ b) = (String.length a + String.length b)%nat.
Proof. induction a as [|c a IH]; simpl; [reflexivity | now rewrite IH]. Qed.

Lemma substring_prefix a b : substring 0 (String.length a) (a ++ b) = a.
Proof.
  induction a as [|c a IH]; simpl.
  - now destruct b.
  - now rewrite IH.
Qed.

Lemma string_app_nil a : a ++ "" = a.
Proof. induction a as [|c a IH]; simpl; [reflexivity | now rewrite IH]. Qed.

Lemma string_app_assoc a b c : (a ++ b) ++ c = a ++ b ++ c.
Proof. induction a as [|x a IH]; simpl; [reflexivity | now rewrite IH]. Qed.

Lemma from_last_dot_suffix s r :
  from_last_dot s = Some r -> exists pre, s = pre ++ r.
Proof.
  revert r. induction s as [|c s IH]; intros r; simpl; [discriminate|].
  destruct (from_last_dot s) as [r'|].
  - intros H. inv H. destruct (IH r eq_refl) as (pre & ->).
    now exists (String c pre).
  - destruct (Ascii.eqb c "."); [|discriminate].
    intros H. inv H. now exists "".
Qed.

Lemma from_last_dot_no_dot s : no_dot s = true -> from_last_dot s = None.
Proof.
  induction s as [|c s IH]; simpl; [reflexivity|].
  intros H. apply andb_true_iff in H as [H1 H2]. rewrite (IH H2).
  now destruct (Ascii.eqb c ".").
Qed.

Lemma from_last_dot_ext s ext :
  no_dot ext = true ->
  from_last_dot (s ++ String "." ext) = Some (String "." ext).
Proof.
  intros H. induction s as [|c s IH]; simpl.
  - now rewrite (from_last_dot_no_dot _ H).
  - now rewrite IH.
Qed.

(** The name is its stem and its suffix. *)
Lemma name_stem_suffix p c n0 :
  name p = String c n0 ->
  exists pre,
    name p = String c pre ++ suffix p
    /\ match suffix p with
       | "" => String c n0
       | old => substring 0 (String.length (String c n0) - String.length old)
                  (String c n0)
       end = String c pre.
Proof.
  intros Hn. unfold suffix. rewrite Hn.
  destruct (from_last_dot n0) as [r|] eqn:E.
  - destruct (Nat.eqb (String.length r) 1) eqn:El.
    + exists n0. now rewrite string_app_nil.
    + apply from_last_dot_suffix in E as (pre & ->). exists pre.
      split; [reflexivity|].
      destruct r as [|x r]; [now rewrite string_app_nil|].
      replace (String.length (String c (pre ++ String x r))
               - String.length (String x r))%nat
        with (String.length (String c pre))
        by (simpl; rewrite string_length_app; simpl; lia).
      apply (substring_prefix (String c pre)).
  - exists n0. now rewrite string_app_nil.
Qed.

Lemma with_suffix_some p sfx q :
  with_suffix p sfx = Some q ->
  exists c pre,
    valid_suffix sfx = true
    /\ name p = String c pre ++ suffix p
    /\ q = mkPath (anchored p)
           (removelast (parts p) ++ [(String c pre ++ sfx)%string])%list.
Proof.
  unfold with_suffix. destruct (valid_suffix sfx); [|discriminate].
  cbn [negb]. destruct (name p) as [|c n0] eqn:Hn; [discriminate|].
  destruct (name_stem_suffix p c n0 Hn) as (pre & H1 & H2).
  intros H. exists c, pre. split; [reflexivity|]. split; [congruence|].
  destruct (suffix p) eqn:Es.
  - rewrite H2 in H. now inv H.
  - rewrite H2 in H. now inv H.
Qed.

Lemma name_last a l n : name (mkPath a (l ++ [n])%list) = n.
Proof. unfold name. cbn. apply last_last. Qed.

Lemma parts_of_name p c n0 :
  name p = String c n0 -> parts p = (removelast (parts p) ++ [name p])%list.
Proof.
  intros Hn. unfold name in *. destruct (parts p) as [|x l] eqn:E.
  - discriminate.
  - apply app_removelast_last. discriminate.
Qed.

(** The derived file lies beside the original and has the new suffix;
    deriving again changes nothing. *)
Lemma with_suffix_sibling p ext q :
  no_dot ext = true -> ext <> "" ->
  with_suffix p (String "." ext) = Some q ->
  parent q = parent p
  /\ suffix q = String "." ext
  /\ with_suffix q (String "." ext) = Some q.
Proof.
  intros Hd He H. pose proof H as H'.
  apply with_suffix_some in H' as (c & pre & Hv & Hn & ->).
  assert (Hsuf : suffix (mkPath (anchored p)
                   (removelast (parts p)
                    ++ [(String c pre ++ String "." ext)%string])%list)
                 = String "." ext).
  { unfold suffix. rewrite name_last. cbn [append].
    rewrite (from_last_dot_ext pre ext Hd).
    destruct ext; [congruence | reflexivity]. }
  split; [|split].
  - unfold parent. cbn. now rewrite removelast_last.
  - exact Hsuf.
  - unfold with_suffix. rewrite Hv. cbn [negb]. rewrite name_last.
    cbn [append] in Hsuf |- *. rewrite Hsuf.
    change (String c (pre ++ String "." ext))
      with (String c pre ++ String "." ext).
    replace (String.length (String c pre ++ String "." ext)
             - String.length (String "." ext))%nat
      with (String.length (String c pre))
      by (rewrite string_length_app; lia).
    rewrite substring_prefix. cbn [parts anchored].
    now rewrite removelast_last.
Qed.

(** A path that has the suffix already is its own derived file. *)
Lemma with_suffix_same p sfx :
  valid_suffix sfx = true -> sfx <> "" -> suffix p = sfx ->
  with_suffix p sfx = Some p.
Proof.
  intros Hv Hne Hs. unfold with_suffix. rewrite Hv. cbn [negb].
  destruct (name p) as [|c n0] eqn:Hn.
  - unfold suffix in Hs. rewrite Hn in Hs. congruence.
  - destruct (name_stem_suffix p c n0 Hn) as (pre & H1 & H2).
    rewrite Hs in *. destruct sfx as [|x sfx]; [congruence|].
    rewrite H2, <- H1.
    rewrite <- (parts_of_name p c n0 Hn). now destruct p.
Qed.

(** [layermap_to_dataclass]: the converter is called only on the argument
    itself, only if that file exists, and, unless forced, only if no file
    stands where the derived [.py] name points; so an argument that is
    itself named [.py] is never converted without [--force]. *)
Theorem layermap_never_clobbers exists_ p force q :
  layermap_to_dataclass exists_ p force = inr q ->
  q = p
  /\ exists_ p = true
  /\ (force = false ->
      String.eqb (suffix p) ".py" = false
      /\ exists py, with_suffix p ".py" = Some py
                    /\ parent py = parent p /\ suffix py = ".py"
                    /\ exists_ py = false).
Proof.
  unfold layermap_to_dataclass.
  destruct (with_suffix p ".py") as [py|] eqn:E; [|discriminate].
  destruct (exists_ p) eqn:Ep; cbn [negb]; [|discriminate].
  destruct (negb force && exists_ py) eqn:Eg; [discriminate|].
  intros H. inv H. split; [reflexivity|]. split; [reflexivity|].
  intros ->. cbn [negb andb] in Eg.
  destruct (with_suffix_sibling q "py" py eq_refl ltac:(discriminate) E)
    as (H1 & H2 & _).
  split.
  - destruct (String.eqb (suffix q) ".py") eqn:Es; [|reflexivity].
    apply String.eqb_eq in Es.
    rewrite (with_suffix_same q ".py" eq_refl ltac:(discriminate) Es) in E.
    inv E. congruence.
  - exists py. auto.
Qed.

Lemma with_suffix_stem p ext :
  no_dot ext = true -> ext <> "" ->
  valid_suffix (String "." ext) = true ->
  (name p = "" /\ with_suffix p (String "." ext) = None)
  \/ (exists stem,
         (0 < String.length stem)%nat
         /\ name p = stem ++ suffix p
         /\ with_suffix p (String "." ext)
            = Some (mkPath (anchored p)
                      (removelast (parts p) ++ [(stem ++ String "." ext)%string])%list)
         /\ suffix (mkPath (anchored p)
                      (removelast (parts p) ++ [(stem ++ String "." ext)%string])%list)
            = String "." ext
         /\ parent (mkPath (anchored p)
                      (removelast (parts p) ++ [(stem ++ String "." ext)%string])%list)
            = parent p).
Proof.
  intros Hd He Hv.
  destruct (with_suffix p (String "." ext)) as [q|] eqn:E.
  - right. pose proof E as E'.
    apply with_suffix_some in E' as (c & pre & _ & Hn & ->).
    destruct (with_suffix_sibling p ext _ Hd He E) as (H1 & H2 & _).
    exists (String c pre). repeat split; auto. simpl. lia.
  - left. split; [|reflexivity]. unfold with_suffix in E.
    destruct (valid_suffix (String "." ext)) eqn:Ev.
    + cbn [negb] in E. now destruct (name p).
    + congruence.
Qed.

(** An output given is passed on as it is. *)
Lemma from_updk_given_output p out :
  out <> "" -> from_updk_command p out = inr (p, inl out).
Proof. intros Hne. destruct out; [congruence | reflexivity]. Qed.

(** [from_updk_command] with the default output: for a path without a name
    it raises [ValueError]; otherwise [from_updk] is called with the input
    and, as output, the file beside the input whose name is the stem of the
    input's name (the name without its suffix) followed by [.py]; that file
    is the input itself exactly when the input is named [.py] already. *)
Theorem from_updk_default_output p :
  (name p = "" /\ from_updk_command p "" = inl ValueError)
  \/ (exists stem,
         (0 < String.length stem)%nat
         /\ name p = stem ++ suffix p
         /\ from_updk_command p ""
            = inr (p, inr (mkPath (anchored p)
                             (removelast (parts p) ++ [(stem ++ ".py")%string])%list))
         /\ suffix (mkPath (anchored p)
                      (removelast (parts p) ++ [(stem ++ ".py")%string])%list)
            = ".py"
         /\ parent (mkPath (anchored p)
                      (removelast (parts p) ++ [(stem ++ ".py")%string])%list)
            = parent p
         /\ path_eqb (mkPath (anchored p)
                        (removelast (parts p) ++ [(stem ++ ".py")%string])%list) p
            = String.eqb (suffix p) ".py").
Proof.
  destruct (with_suffix_stem p "py" eq_refl ltac:(discriminate) eq_refl)
    as [[Hn E]|(stem & Hl & Hn & E & Hs & Hp)].
  - left. split; [exact Hn|]. unfold from_updk_command. now rewrite E.
  - right. exists stem. repeat split; auto.
    + unfold from_updk_command. now rewrite E.
    + destruct (String.eqb (suffix p) ".py") eqn:Es.
      * apply String.eqb_eq in Es.
        rewrite (with_suffix_same p ".py" eq_refl ltac:(discriminate) Es) in E.
        injection E as E. rewrite <- E. apply path_eqb_refl.
      * destruct (path_eqb _ p) eqn:Eq; [|reflexivity].
        apply path_eqb_eq in Eq. rewrite Eq in Hs. rewrite Hs in Es.
        discriminate.
Qed.

Lemma count_join c ls :
  count_occ N.eq_dec (Re.join_with c ls) c
  = (list_sum (map (fun l => count_occ N.eq_dec l c) ls)
     + pred (List.length ls))%nat.
Proof.
  induction ls as [|l ls IH]; [reflexivity|].
  destruct ls as [|l' ls].
  - simpl. lia.
  - change (Re.join_with c (l :: l' :: ls))
      with (l ++ c :: Re.join_with c (l' :: ls))%list.
    rewrite count_occ_app, count_occ_cons_eq by reflexivity.
    rewrite IH. simpl. lia.
Qed.

(** The joined text, closed by one more separator, is the pages each closed
    by the separator. *)
Lemma join_closed c l ls :
  (Re.join_with c (l :: ls) ++ [c])%list
  = flat_map (fun pg => (pg ++ [c])%list) (l :: ls).
Proof.
  revert l. induction ls as [|l' ls IH]; intros l.
  - cbn. now rewrite app_nil_r.
  - change (Re.join_with c (l :: l' :: ls))
      with (l ++ c :: Re.join_with c (l' :: ls))%list.
    specialize (IH l'). cbn [flat_map] in IH |- *. rewrite <- IH.
    rewrite <- !app_assoc. reflexivity.
Qed.

(** [text_from_pdf_command] on a file that opens, with the pages [pages]:
    for a path without a name it raises [ValueError]; otherwise it writes,
    to the file beside the input whose name is the stem of the input's name
    followed by [.md], the pages with one newline between each two: closed
    by one more newline, the text is the pages each closed by a newline,
    and a file without pages gives the empty text. *)
Theorem text_from_pdf_output pages p :
  (name p = "" /\ text_from_pdf_command (inr pages) p = inl ValueError)
  \/ (exists stem t,
         (0 < String.length stem)%nat
         /\ name p = stem ++ suffix p
         /\ text_from_pdf_command (inr pages) p
            = inr (mkPath (anchored p)
                     (removelast (parts p) ++ [(stem ++ ".md")%string])%list, t)
         /\ suffix (mkPath (anchored p)
                      (removelast (parts p) ++ [(stem ++ ".md")%string])%list)
            = ".md"
         /\ parent (mkPath (anchored p)
                      (removelast (parts p) ++ [(stem ++ ".md")%string])%list)
            = parent p
         /\ match pages with
            | [] => t
            | _ :: _ => (t ++ [newline])%list
            end
            = flat_map (fun pg => (pg ++ [newline])%list) pages
         /\ count_occ N.eq_dec t newline
            = (list_sum (map (fun l => count_occ N.eq_dec l newline) pages)
               + pred (List.length pages))%nat).
Proof.
  destruct (with_suffix_stem p "md" eq_refl ltac:(discriminate) eq_refl)
    as [[Hn E]|(stem & Hl & Hn & E & Hs & Hp)].
  - left. split; [exact Hn|]. unfold text_from_pdf_command. now rewrite E.
  - right. exists stem, (Re.join_with newline pages). repeat split; auto.
    + unfold text_from_pdf_command. now rewrite E.
    + destruct pages as [|l ls]; [reflexivity | apply join_closed].
    + apply count_join.
Qed.

(** The two commands on [/t/pdk.yaml] and on [/t/doc.pdf] with the pages
    [a] and [b]. *)
Example derived_names_examples :
  from_updk_command (abs ["t"; "pdk.yaml"]) ""
  = inr (abs ["t"; "pdk.yaml"], inr (abs ["t"; "pdk.py"]))
  /\ from_updk_command (abs ["t"; "pdk.yaml"]) "out.py"
     = inr (abs ["t"; "pdk.yaml"], inl "out.py")
  /\ from_updk_command (abs []) "" = inl ValueError
  /\ text_from_pdf_command (inr [lit "a"; lit "b"]) (abs ["t"; "doc.pdf"])
     = inr (abs ["t"; "doc.md"], (lit "a" ++ newline :: lit "b")%list)
  /\ text_from_pdf_command (inr []) (abs ["t"; "archive.tar.gz"])
     = inr (abs ["t"; "archive.tar.md"], []).
Proof. repeat split; vm_compute; reflexivity. Qed.

End CommandsTheory.

(** ** Witnesses *)

Lemma rewrite_is_local_witness :
  Re.rewrite ascii_only (lit "x = 1" ++ newline :: lit "d.move(y)")
  = Re.rewrite ascii_only (lit "x = 1")
    ++ newline :: Re.rewrite ascii_only (lit "d.move(y)")
  /\ Re.rewrite ascii_only
       (Re.join_with newline [lit "x"; lit "a.y"; lit ""])
     = Re.join_with newline
         (map (Re.rewrite ascii_only) [lit "x"; lit "a.y"; lit ""]).
Proof.
  destruct (rewrite_is_local ascii_only newline eq_refl eq_refl) as [H1 H2].
  split; [apply H1 | apply H2].
Defined.

Lemma bounded_name_witness :
  Re.rewrite ascii_only (lit "p." ++ lit "center" ++ lit " = 1")
  = Re.rewrite ascii_only (lit "p.")
    ++ marker :: lit "center" ++ Re.rewrite ascii_only (lit " = 1").
Proof.
  apply (bounded_name_is_marked ascii_only).
  - simpl. tauto.
  - reflexivity.
  - reflexivity.
  - reflexivity.
Defined.

Lemma qualified_name_witness :
  Re.rewrite ascii_only (lit "a = " ++ marker :: dot :: lit "xmin" ++ [])
  = Re.rewrite ascii_only (lit "a = ")
    ++ marker :: marker :: dot :: marker :: lit "xmin"
    ++ Re.rewrite ascii_only [].
Proof.
  apply (qualified_name_gets_two_markers ascii_only).
  - simpl. tauto.
  - reflexivity.
  - reflexivity.
Defined.

Lemma no_name_left_witness :
  Re.word_at ascii_only (Re.prev_after [marker] None)
  || Re.word_at ascii_only (hd_error (lit " + 1")) = true.
Proof.
  apply (no_name_left_standing ascii_only (lit "move + 1") [marker]
           (lit "move") (lit " + 1")).
  - simpl. tauto.
  - vm_compute. reflexivity.
Defined.

Lemma tree_diffs_witness :
  (exists rest,
      flat_map
        (DriverSpec.tree_diff ascii_only Examples.two_file_tree
           (Cli.abs ["in"%string]) (Cli.abs ["out"%string]))
        (DriverSpec.reads
           (Cli.events
              (Cli.migrate ascii_only 5 Examples.two_file_tree
                 Cli.upgrade7to8 (Cli.abs ["in"%string])
                 (Some (Cli.abs ["out"%string])) false)))
      = DriverSpec.diffs
          (Cli.events
             (Cli.migrate ascii_only 5 Examples.two_file_tree
                Cli.upgrade7to8 (Cli.abs ["in"%string])
                (Some (Cli.abs ["out"%string])) false))
        ++ rest)
  /\ (exists cut,
         DriverSpec.diffs
           (Cli.events
              (Cli.migrate ascii_only 5 Examples.two_file_tree
                 Cli.upgrade7to8 (Cli.abs ["in"%string])
                 (Some (Cli.abs ["out"%string])) false))
         = flat_map
             (DriverSpec.tree_diff ascii_only Examples.two_file_tree
                (Cli.abs ["in"%string]) (Cli.abs ["out"%string]))
             (removelast
                (DriverSpec.reads
                   (Cli.events
                      (Cli.migrate ascii_only 5 Examples.two_file_tree
                         Cli.upgrade7to8 (Cli.abs ["in"%string])
                         (Some (Cli.abs ["out"%string])) false))))
           ++ cut)
  /\ (Cli.outcome
        (Cli.migrate ascii_only 5 Examples.two_file_tree Cli.upgrade7to8
           (Cli.abs ["in"%string]) (Some (Cli.abs ["out"%string])) false)
      = Cli.Returned tt ->
      DriverSpec.diffs
        (Cli.events
           (Cli.migrate ascii_only 5 Examples.two_file_tree Cli.upgrade7to8
              (Cli.abs ["in"%string]) (Some (Cli.abs ["out"%string])) false))
      = flat_map
          (DriverSpec.tree_diff ascii_only Examples.two_file_tree
             (Cli.abs ["in"%string]) (Cli.abs ["out"%string]))
          (DriverSpec.reads
             (Cli.events
                (Cli.migrate ascii_only 5 Examples.two_file_tree
                   Cli.upgrade7to8 (Cli.abs ["in"%string])
                   (Some (Cli.abs ["out"%string])) false)))).
Proof.
  apply (tree_diffs_are_by_line_and_resolved ascii_only 5
           Examples.two_file_tree Cli.upgrade7to8
           (Cli.abs ["in"%string]) (Cli.abs ["out"%string]) false).
  reflexivity.
Defined.

Lemma inplace_on_other_suffix_witness :
  existsb (Cli.path_eqb (Cli.abs ["n"; "notes.txt"]%string))
    (DriverSpec.written
       (Cli.events
          (Cli.migrate ascii_only 5 Examples.text_file Cli.upgrade7to8
             (Cli.abs ["n"; "notes.txt"]%string) None true))) = false
  /\ (Cli.events
        (Cli.migrate ascii_only 5 Examples.text_file Cli.upgrade7to8
           (Cli.abs ["n"; "notes.txt"]%string) None true) = []
      \/ hd_error
           (Cli.events
              (Cli.migrate ascii_only 5 Examples.text_file Cli.upgrade7to8
                 (Cli.abs ["n"; "notes.txt"]%string) None true))
         = Some (Cli.Mkdir (Cli.abs ["n"; "notes.txt"]%string)))
  /\ (forall t,
        Cli.lookup (Cli.files Examples.text_file)
          (Cli.abs ["n"; "notes.txt"]%string) = Some (Cli.File t) ->
        Cli.migrate ascii_only 5 Examples.text_file Cli.upgrade7to8
          (Cli.abs ["n"; "notes.txt"]%string) None true
        = ([], Cli.Raised Cli.FileExistsError, Cli.files Examples.text_file)
        \/ Cli.migrate ascii_only 5 Examples.text_file Cli.upgrade7to8
             (Cli.abs ["n"; "notes.txt"]%string) None true
           = ([], Cli.Raised Cli.NotADirectoryError,
              Cli.files Examples.text_file)).
Proof.
  apply (inplace_on_other_suffix_spares_the_file ascii_only 5
           Examples.text_file Cli.upgrade7to8
           (Cli.abs ["n"; "notes.txt"]%string));
    reflexivity.
Defined.


Lemma second_inplace_run_witness :
  DriverSpec.only_reads
    (Cli.events
       (Cli.migrate ascii_only 5
          (DriverSpec.with_files Examples.mixed_tree
             (Cli.final
                (Cli.migrate ascii_only 5 Examples.mixed_tree
                   Cli.upgrade7to8 (Cli.abs ["in"%string]) None true)))
          Cli.upgrade7to8 (Cli.abs ["in"%string]) None true)) = true
  /\ Cli.final
       (Cli.migrate ascii_only 5
          (DriverSpec.with_files Examples.mixed_tree
             (Cli.final
                (Cli.migrate ascii_only 5 Examples.mixed_tree
                   Cli.upgrade7to8 (Cli.abs ["in"%string]) None true)))
          Cli.upgrade7to8 (Cli.abs ["in"%string]) None true)
     = Cli.final
         (Cli.migrate ascii_only 5 Examples.mixed_tree Cli.upgrade7to8
            (Cli.abs ["in"%string]) None true)
  /\ Cli.outcome
       (Cli.migrate ascii_only 5
          (DriverSpec.with_files Examples.mixed_tree
             (Cli.final
                (Cli.migrate ascii_only 5 Examples.mixed_tree
                   Cli.upgrade7to8 (Cli.abs ["in"%string]) None true)))
          Cli.upgrade7to8 (Cli.abs ["in"%string]) None true)
     = Cli.outcome
         (Cli.migrate ascii_only 5 Examples.mixed_tree Cli.upgrade7to8
            (Cli.abs ["in"%string]) None true).
Proof.
  apply (second_inplace_run_is_silent ascii_only 5 Examples.mixed_tree
           Cli.upgrade7to8 (Cli.abs ["in"%string])
           [["a.py"%string]; ["b.py"%string]; ["c.py"%string]]).
  - reflexivity.
  - vm_compute. reflexivity.
  - vm_compute. reflexivity.
  - right. vm_compute. reflexivity.
Defined.


Lemma layermap_witness :
  Cli.abs ["t"; "layers.lyp"]%string = Cli.abs ["t"; "layers.lyp"]%string
  /\ Examples.only_lyp (Cli.abs ["t"; "layers.lyp"]%string) = true
  /\ (false = false ->
      String.eqb (Cli.suffix (Cli.abs ["t"; "layers.lyp"]%string)) ".py"
      = false
      /\ exists py,
          Commands.with_suffix (Cli.abs ["t"; "layers.lyp"]%string) ".py"
          = Some py
          /\ Cli.parent py = Cli.parent (Cli.abs ["t"; "layers.lyp"]%string)
          /\ Cli.suffix py = ".py"%string
          /\ Examples.only_lyp py = false).
Proof.
  apply (layermap_never_clobbers Examples.only_lyp
           (Cli.abs ["t"; "layers.lyp"]%string) false).
  reflexivity.
Defined.
